(** * sql-formatter2: the tokenizer and the formatter, embedded in Rocq

    The development follows [src/core/Tokenizer.ts] and
    [src/core/Formatter.ts], with the modules they import: [Params],
    [tokenTypes] and [types].

    Strings.  A JavaScript string is modelled as a list of characters
    ([list ascii]).  The embedding is about texts, of the input and of the
    configuration, whose code units lie in U+0000..U+007F; on these
    [toUpperCase], the classes [\s], [\w], [.] and the flag [i] are the
    functions written below.

    Regular expressions.  The source builds its patterns as text and hands
    them to [new RegExp].  Here a pattern is a term of type [regex] and the
    builders ([createReservedWordRegex], ...) produce that term directly;
    [rmatch] is the backtracking search of the JavaScript engine, returning
    every way a pattern can match at a position, most preferred first.  Where
    the source interpolates configuration text into a pattern without
    escaping it (reserved words, multi-character brackets, special word
    characters) the embedding reads that text literally, which is what the
    engine does as long as the text is free of pattern syntax. *)

From Stdlib Require Import Ascii String NArith Lia.
From stdpp Require Import gmap strings list.

Open Scope char_scope.
Open Scope list_scope.

(** ** Characters and strings *)

Abbreviation str := (list ascii).

Definition txt (s : string) : str := list_ascii_of_string s.

Definition code (c : ascii) : N := N_of_ascii c.

Definition in_range (lo hi : N) (c : ascii) : bool :=
  ((lo <=? code c) && (code c <=? hi))%N.

Definition isChar (c : ascii) : ascii -> bool := fun d => bool_decide (d = c).

Definition isDigit : ascii -> bool := in_range 48 57.
Definition isLower : ascii -> bool := in_range 97 122.
Definition isUpper : ascii -> bool := in_range 65 90.

(** [\w] *)
Definition isWordChar (c : ascii) : bool :=
  isUpper c || isLower c || isDigit c || isChar "_" c.

(** [\s]: TAB, LF, VT, FF, CR and the space *)
Definition isSpace (c : ascii) : bool := in_range 9 13 c || isChar " " c.

Definition LF : ascii := "010".
Definition CR : ascii := "013".
Definition DQUOTE : ascii := "034".
Definition SQUOTE : ascii := "'".
Definition BACKTICK : ascii := "`".
Definition BACKSLASH : ascii := "\".

(** [.] matches everything but a line terminator *)
Definition isDot (c : ascii) : bool := negb (isChar LF c || isChar CR c).

Definition upperChar (c : ascii) : ascii :=
  if isLower c then ascii_of_N (code c - 32) else c.

Definition toUpperCase (s : str) : str := map upperChar s.

(** [s.substring(n)], [s.slice(n)] and [s.slice(2, -1)]; [s.slice(-1)], the
    last character if there is one, is [last s]. *)
Definition substring (n : nat) (s : str) : str := drop n s.
Definition slice_from (n : nat) (s : str) : str := drop n s.
Definition slice_2_to_last (s : str) : str := take (length s - 1 - 2) (drop 2 s).

(** lodash's [trimEnd] and [String.prototype.trim] *)
Fixpoint dropSpaces (s : str) : str :=
  match s with
  | c :: s' => if isSpace c then dropSpaces s' else s
  | [] => []
  end.

Definition trimEnd (s : str) : str := reverse (dropSpaces (reverse s)).
Definition trim (s : str) : str := dropSpaces (trimEnd s).

(** ** Regular expressions

    A position records the character just before it (for [\b] and [^]) and
    the text that is left. *)

Record pos := Pos { before : option ascii; rest : str }.

Inductive regex :=
| Eps                          (* the empty pattern *)
| Cls (p : ascii -> bool)      (* one character of a class *)
| Seq (a b : regex)            (* ab *)
| Alt (a b : regex)            (* a|b *)
| Star (a : regex)             (* a*, greedy *)
| Lazy (a : regex)             (* a*?, lazy *)
| Bnd                          (* \b *)
| Bol                          (* ^ *)
| Eoi.                         (* $ *)

Definition shorter (x y : pos) : bool :=
  bool_decide (length (rest y) < length (rest x)).

(** Greedy repetition: another round first, stopping here last.  A round
    that consumes nothing is rejected, as in the engine. *)
Fixpoint iter_greedy (step : pos -> list pos) (n : nat) (x : pos) : list pos :=
  match n with
  | 0 => [x]
  | S n => (filter (fun y => shorter x y = true) (step x) ≫= iter_greedy step n) ++ [x]
  end.

Fixpoint iter_lazy (step : pos -> list pos) (n : nat) (x : pos) : list pos :=
  match n with
  | 0 => [x]
  | S n => x :: (filter (fun y => shorter x y = true) (step x) ≫= iter_lazy step n)
  end.

Definition wordBefore (x : pos) : bool :=
  match before x with Some c => isWordChar c | None => false end.
Definition wordAfter (x : pos) : bool :=
  match rest x with c :: _ => isWordChar c | [] => false end.

(** All the ways [r] matches at [x], in the order the engine tries them. *)
Fixpoint rmatch (r : regex) (x : pos) : list pos :=
  match r with
  | Eps => [x]
  | Cls p =>
      match rest x with
      | c :: s => if p c then [Pos (Some c) s] else []
      | [] => []
      end
  | Seq a b => rmatch a x ≫= rmatch b
  | Alt a b => rmatch a x ++ rmatch b x
  | Star a => iter_greedy (rmatch a) (length (rest x)) x
  | Lazy a => iter_lazy (rmatch a) (length (rest x)) x
  | Bnd => if xorb (wordBefore x) (wordAfter x) then [x] else []
  | Bol => match before x with None => [x] | Some _ => [] end
  | Eoi => match rest x with [] => [x] | _ :: _ => [] end
  end.

(** [input.match(regex)] for a pattern anchored at the start of the input:
    the text of the first match, which in every pattern of the tokenizer is
    also the text of its group 1. *)
Definition exec (r : regex) (input : str) : option str :=
  match rmatch r (Pos None input) with
  | y :: _ => Some (take (length input - length (rest y)) input)
  | [] => None
  end.

Definition test (r : regex) (input : str) : bool :=
  match exec r input with Some _ => true | None => false end.

(** *** Pattern combinators *)

Definition plus (a : regex) : regex := Seq a (Star a).        (* a+ *)
Definition opt (a : regex) : regex := Alt a Eps.              (* a? *)
Definition chr (c : ascii) : regex := Cls (isChar c).
Definition chr_i (c : ascii) : regex :=
  Cls (fun d => bool_decide (upperChar d = upperChar c)).      (* flag i *)

Fixpoint seqs (l : list regex) : regex :=
  match l with
  | [] => Eps
  | [a] => a
  | a :: l' => Seq a (seqs l')
  end.

(** [l.join('|')]: the empty list joins to the empty pattern *)
Fixpoint alts (l : list regex) : regex :=
  match l with
  | [] => Eps
  | [a] => a
  | a :: l' => Alt a (alts l')
  end.

(** a piece of text matched literally ([escapeRegExp]) *)
Definition lit (s : str) : regex := seqs (map chr s).
Definition lit_i (s : str) : regex := seqs (map chr_i s).

(** [s.replace(r, rep)] for a pattern [r] with flag [g] and a replacement
    [rep] free of [$]: scan from the left; at each place take the first
    match, and after an empty match copy one character. *)
Fixpoint replace_scan (r : regex) (rep : str) (n : nat) (x : pos) : str :=
  match n with
  | 0 => rest x
  | S n =>
      let skip :=
        match rest x with
        | c :: s => c :: replace_scan r rep n (Pos (Some c) s)
        | [] => []
        end in
      match rmatch r x with
      | [] => skip
      | y :: _ =>
          if shorter x y then rep ++ replace_scan r rep n y else rep ++ skip
      end
  end.

Definition replace_g (r : regex) (rep : str) (s : str) : str :=
  replace_scan r rep (S (length s)) (Pos None s).

(** ** Results of a computation *)

Inductive exn := SyntaxError.

Inductive outcome (A : Type) : Type :=
| Ret (a : A)        (* the call returns *)
| Throw (e : exn)    (* the call throws *)
| OutOfFuel.         (* the loop has not finished within the bound given *)
Arguments Ret {A} a.
Arguments Throw {A} e.
Arguments OutOfFuel {A}.

Definition bind {A B} (m : outcome A) (f : A -> outcome B) : outcome B :=
  match m with
  | Ret a => f a
  | Throw e => Throw e
  | OutOfFuel => OutOfFuel
  end.

Notation "'let*' x := m 'in' k" := (bind m (fun x => k))
  (at level 10, x pattern, m at level 100, k at level 200).

(** [a || b] on results that are a token or [undefined] *)
Notation "a 'or_else' b" :=
  (match a with Ret None => b | other => other end)
  (at level 85, right associativity, only parsing).

(** ** Tokens ([types.ts], [tokenTypes.ts]) *)

Record Token := { type : str; value : str; key : str }.

Module tokenTypes.
Definition WHITESPACE : str := txt "whitespace".
Definition WORD : str := txt "word".
Definition STRING : str := txt "string".
Definition RESERVED : str := txt "reserved".
Definition RESERVED_TOPLEVEL : str := txt "reserved-toplevel".
Definition RESERVED_NEWLINE : str := txt "reserved-newline".
Definition OPERATOR : str := txt "operator".
Definition OPEN_PAREN : str := txt "open-paren".
Definition CLOSE_PAREN : str := txt "close-paren".
Definition LINE_COMMENT : str := txt "line-comment".
Definition BLOCK_COMMENT : str := txt "block-comment".
Definition NUMBER : str := txt "number".
Definition PLACEHOLDER : str := txt "placeholder".
Definition COMMENT : str := txt "comment".
End tokenTypes.

(** Every list is optional in the source and defaults to the empty list. *)
Record tokenizerConfig := {
  reservedWords : list str;
  reservedToplevelWords : list str;
  reservedNewlineWords : list str;
  stringTypes : list str;
  openParens : list str;
  closeParens : list str;
  indexedPlaceholderTypes : list str;
  namedPlaceholderTypes : list str;
  lineCommentTypes : list str;
  specialWordChars : list str
}.

(** ** The tokenizer ([Tokenizer.ts]) *)

Module Tokenizer.

Import tokenTypes.

(** [^((?:c1|c2|...).*?(?:\n|$))] *)
Definition createLineCommentRegex (lineCommentTypes : list str) : regex :=
  Seq (alts (map lit lineCommentTypes))
      (Seq (Lazy (Cls isDot)) (Alt (chr LF) Eoi)).

(** One reserved phrase, flag [i]; each space of the phrase stands for
    [\s+]. *)
Definition reservedWordPattern (w : str) : regex :=
  seqs (map (fun c => if isChar " " c then plus (Cls isSpace) else chr_i c) w).

(** [^(w1|w2|...)\b], flag [i] *)
Definition createReservedWordRegex (reservedWords : list str) : regex :=
  Seq (alts (map reservedWordPattern reservedWords)) Bnd.

(** [^([\w...]+)] *)
Definition createWordRegex (specialChars : list str) : regex :=
  plus (Cls (fun c => isWordChar c || bool_decide (c ∈ concat specialChars))).

Definition notOneOf (l : list ascii) : regex :=
  Cls (fun c => negb (bool_decide (c ∈ l))).

(** a quote, its body with backslash escapes, the quote or the end of input,
    one or more times *)
Definition quoted (open : list regex) (excluded : list ascii) (close : ascii) : regex :=
  plus (seqs (open ++
    [ Star (notOneOf excluded);
      Star (seqs [chr BACKSLASH; Cls isDot; Star (notOneOf excluded)]);
      Alt (chr close) Eoi ])).

(** The table [patterns] of [createStringPattern]. *)
Definition patterns (t : str) : option regex :=
  if bool_decide (t = [BACKTICK; BACKTICK]) then
    (* a backtick, characters other than it, the end of input or a backtick;
       one or more times *)
    Some (plus (seqs [chr BACKTICK; Star (notOneOf [BACKTICK]); Alt Eoi (chr BACKTICK)]))
  else if bool_decide (t = txt "[]") then
    (* an opening bracket, characters other than the closing one, the end of
       input or the closing bracket; then any number of: a closing bracket,
       characters other than it, the end of input or a closing bracket *)
    Some (Seq (seqs [chr "["; Star (notOneOf ["]"]); Alt Eoi (chr "]")])
              (Star (seqs [chr "]"; Star (notOneOf ["]"]); Alt Eoi (chr "]")])))
  else if bool_decide (t = [DQUOTE; DQUOTE]) then
    (* double quotes around a body with backslash escapes *)
    Some (quoted [chr DQUOTE] [DQUOTE; BACKSLASH] DQUOTE)
  else if bool_decide (t = [SQUOTE; SQUOTE]) then
    (* single quotes around a body with backslash escapes *)
    Some (quoted [chr SQUOTE] [SQUOTE; BACKSLASH] SQUOTE)
  else if bool_decide (t = ["N"; SQUOTE; SQUOTE]) then
    (* the same after the letter N, which the body excludes as well *)
    Some (quoted [chr "N"; chr SQUOTE] ["N"; SQUOTE; BACKSLASH] SQUOTE)
  else None.

(** [stringTypes.map(t => patterns[t]).join('|')]: a type that is not in
    the table joins as the empty text. *)
Definition createStringPattern (stringTypes : list str) : regex :=
  alts (map (fun t => default Eps (patterns t)) stringTypes).

Definition createStringRegex (stringTypes : list str) : regex :=
  createStringPattern stringTypes.

Definition escapeParen (paren : str) : regex :=
  if bool_decide (length paren = 1) then lit_i paren
  else seqs [Bnd; lit_i paren; Bnd].

(** [^(p1|p2|...)], flag [i] *)
Definition createParenRegex (parens : list str) : regex :=
  alts (map escapeParen parens).

(** [^((?:t1|t2|...)(?:pattern))] *)
Definition createPlaceholderRegex (types : list str) (pattern : regex) : regex :=
  Seq (alts (map lit types)) pattern.

Record t := {
  WHITESPACE_REGEX : regex;
  NUMBER_REGEX : regex;
  OPERATOR_REGEX : regex;
  BLOCK_COMMENT_REGEX : regex;
  LINE_COMMENT_REGEX : regex;
  RESERVED_TOPLEVEL_REGEX : regex;
  RESERVED_NEWLINE_REGEX : regex;
  RESERVED_PLAIN_REGEX : regex;
  WORD_REGEX : regex;
  STRING_REGEX : regex;
  OPEN_PAREN_REGEX : regex;
  CLOSE_PAREN_REGEX : regex;
  INDEXED_PLACEHOLDER_REGEX : regex;
  IDENT_NAMED_PLACEHOLDER_REGEX : regex;
  STRING_NAMED_PLACEHOLDER_REGEX : regex
}.

Definition isHex (c : ascii) : bool :=
  isDigit c || in_range 97 102 c || in_range 65 70 c.

Definition isIdentChar (c : ascii) : bool :=
  isLower c || isUpper c || isDigit c || isChar "." c || isChar "_" c || isChar "$" c.

Definition operators : list str :=
  map txt ["!="; "<>"; "=="; "<="; ">="; "!<"; "!>"; "||"; "::"; "->>"; "->";
           "~~*"; "~~"; "!~~*"; "!~~"; "~*"; "!~*"; "!~"]%string.

Definition constructor (cfg : tokenizerConfig) : t := {|
  (* /^(\s+)/ *)
  WHITESPACE_REGEX := plus (Cls isSpace);
  (* decimal with an optional minus sign and fraction, or 0x and hex digits,
     or 0b and binary digits; then \b *)
  NUMBER_REGEX :=
    Seq (alts [ seqs [opt (Seq (chr "-") (Star (Cls isSpace)));
                      plus (Cls isDigit);
                      opt (Seq (chr ".") (plus (Cls isDigit)))];
                Seq (lit (txt "0x")) (plus (Cls isHex));
                Seq (lit (txt "0b")) (plus (Cls (fun c => isChar "0" c || isChar "1" c))) ])
        Bnd;
  (* /^(!=|<>|==|<=|>=|!<|!>|\|\||::|->>|->|~~\*|~~|!~~\*|!~~|~\*|!~\*|!~|.)/ *)
  OPERATOR_REGEX := alts (map lit operators ++ [Cls isDot]);
  (* /^(\/\*[^]*?(?:\*\/|$))/ *)
  BLOCK_COMMENT_REGEX :=
    seqs [lit (txt "/*"); Lazy (Cls (fun _ => true)); Alt (lit (txt "*/")) Eoi];
  LINE_COMMENT_REGEX := createLineCommentRegex (lineCommentTypes cfg);
  RESERVED_TOPLEVEL_REGEX := createReservedWordRegex (reservedToplevelWords cfg);
  RESERVED_NEWLINE_REGEX := createReservedWordRegex (reservedNewlineWords cfg);
  RESERVED_PLAIN_REGEX := createReservedWordRegex (reservedWords cfg);
  WORD_REGEX := createWordRegex (specialWordChars cfg);
  STRING_REGEX := createStringRegex (stringTypes cfg);
  OPEN_PAREN_REGEX := createParenRegex (openParens cfg);
  CLOSE_PAREN_REGEX := createParenRegex (closeParens cfg);
  INDEXED_PLACEHOLDER_REGEX :=
    createPlaceholderRegex (indexedPlaceholderTypes cfg) (Star (Cls isDigit));
  IDENT_NAMED_PLACEHOLDER_REGEX :=
    createPlaceholderRegex (namedPlaceholderTypes cfg) (plus (Cls isIdentChar));
  STRING_NAMED_PLACEHOLDER_REGEX :=
    createPlaceholderRegex (namedPlaceholderTypes cfg)
      (createStringPattern (stringTypes cfg))
|}.

(** [input.match(regex)], then [{type, value: matches[1], key: ''}] *)
Definition getTokenOnFirstMatch (input : str) (type : str) (regex : regex)
  : option Token :=
  match exec regex input with
  | Some m => Some {| type := type; value := m; key := [] |}
  | None => None
  end.

Definition getWhitespaceToken (T : t) (input : str) : option Token :=
  getTokenOnFirstMatch input WHITESPACE (WHITESPACE_REGEX T).

Definition getLineCommentToken (T : t) (input : str) : option Token :=
  getTokenOnFirstMatch input LINE_COMMENT (LINE_COMMENT_REGEX T).

Definition getBlockCommentToken (T : t) (input : str) : option Token :=
  getTokenOnFirstMatch input BLOCK_COMMENT (BLOCK_COMMENT_REGEX T).

Definition getCommentToken (T : t) (input : str) : option Token :=
  match getLineCommentToken T input with
  | Some tk => Some tk
  | None => getBlockCommentToken T input
  end.

Definition getStringToken (T : t) (input : str) : option Token :=
  getTokenOnFirstMatch input STRING (STRING_REGEX T).

Definition upperValue (tk : option Token) : option Token :=
  match tk with
  | Some tk => Some {| type := type tk; value := toUpperCase (value tk); key := key tk |}
  | None => None
  end.

Definition getOpenParenToken (T : t) (input : str) : option Token :=
  upperValue (getTokenOnFirstMatch input OPEN_PAREN (OPEN_PAREN_REGEX T)).

Definition getCloseParenToken (T : t) (input : str) : option Token :=
  upperValue (getTokenOnFirstMatch input CLOSE_PAREN (CLOSE_PAREN_REGEX T)).

(** [new RegExp(escapeRegExp('\\') + quoteChar, 'g')]: a backslash, then
    [quoteChar] as pattern text.  [quoteChar] is [v.slice(-1)], the last
    character of the match ([None] for the empty text).  Four characters
    leave the pattern ill-formed and the constructor throws; seven others are
    pattern syntax. *)
Definition escapedQuoteRegex (quoteChar : option ascii) : outcome regex :=
  let b := chr BACKSLASH in
  match quoteChar with
  | None => Ret b
  | Some c =>
      if bool_decide (c ∈ ["("; ")"; "["; BACKSLASH]) then Throw SyntaxError
      else if isChar "*" c then Ret (Star b)
      else if isChar "+" c then Ret (plus b)
      else if isChar "?" c then Ret (opt b)
      else if isChar "|" c then Ret (Alt b Eps)
      else if isChar "." c then Ret (Seq b (Cls isDot))
      else if isChar "^" c then Ret (Seq b Bol)
      else if isChar "$" c then Ret (Seq b Eoi)
      else Ret (Seq b (chr c))
  end.

(** [key.replace(new RegExp(...), quoteChar)] *)
Definition getEscapedPlaceholderKey (key : str) (quoteChar : option ascii)
  : outcome str :=
  let* r := escapedQuoteRegex quoteChar in
  Ret (replace_g r (option_list quoteChar) key).

Definition getPlaceholderTokenWithKey (input : str) (regex : regex)
    (parseKey : str -> outcome str) : outcome (option Token) :=
  match getTokenOnFirstMatch input PLACEHOLDER regex with
  | Some token =>
      let* k := parseKey (value token) in
      Ret (Some {| type := type token; value := value token; key := k |})
  | None => Ret None
  end.

Definition getIdentNamedPlaceholderToken (T : t) (input : str) : outcome (option Token) :=
  getPlaceholderTokenWithKey input (IDENT_NAMED_PLACEHOLDER_REGEX T)
    (fun v => Ret (slice_from 1 v)).

Definition getStringNamedPlaceholderToken (T : t) (input : str) : outcome (option Token) :=
  getPlaceholderTokenWithKey input (STRING_NAMED_PLACEHOLDER_REGEX T)
    (fun v => getEscapedPlaceholderKey (slice_2_to_last v) (last v)).

Definition getIndexedPlaceholderToken (T : t) (input : str) : outcome (option Token) :=
  getPlaceholderTokenWithKey input (INDEXED_PLACEHOLDER_REGEX T)
    (fun v => Ret (slice_from 1 v)).

Definition getPlaceholderToken (T : t) (input : str) : outcome (option Token) :=
  getIdentNamedPlaceholderToken T input or_else
  getStringNamedPlaceholderToken T input or_else
  getIndexedPlaceholderToken T input.

Definition getNumberToken (T : t) (input : str) : option Token :=
  getTokenOnFirstMatch input NUMBER (NUMBER_REGEX T).

Definition getOperatorToken (T : t) (input : str) : option Token :=
  getTokenOnFirstMatch input OPERATOR (OPERATOR_REGEX T).

Definition getToplevelReservedToken (T : t) (input : str) : option Token :=
  getTokenOnFirstMatch input RESERVED_TOPLEVEL (RESERVED_TOPLEVEL_REGEX T).

Definition getNewlineReservedToken (T : t) (input : str) : option Token :=
  getTokenOnFirstMatch input RESERVED_NEWLINE (RESERVED_NEWLINE_REGEX T).

Definition getPlainReservedToken (T : t) (input : str) : option Token :=
  getTokenOnFirstMatch input RESERVED (RESERVED_PLAIN_REGEX T).

(** [previousToken && previousToken.value && previousToken.value === '.'] *)
Definition afterDot (previousToken : option Token) : bool :=
  match previousToken with
  | Some p => bool_decide (value p = ["."])
  | None => false
  end.

Definition getReservedWordToken (T : t) (input : str) (previousToken : option Token)
  : option Token :=
  if afterDot previousToken then None
  else
    upperValue
      (match getToplevelReservedToken T input with
       | Some tk => Some tk
       | None =>
           match getNewlineReservedToken T input with
           | Some tk => Some tk
           | None => getPlainReservedToken T input
           end
       end).

Definition getWordToken (T : t) (input : str) : option Token :=
  getTokenOnFirstMatch input WORD (WORD_REGEX T).

Definition getNextToken (T : t) (input : str) (previousToken : option Token)
  : outcome (option Token) :=
  Ret (getWhitespaceToken T input) or_else
  Ret (getCommentToken T input) or_else
  Ret (getStringToken T input) or_else
  Ret (getOpenParenToken T input) or_else
  Ret (getCloseParenToken T input) or_else
  getPlaceholderToken T input or_else
  Ret (getNumberToken T input) or_else
  Ret (getReservedWordToken T input previousToken) or_else
  Ret (getWordToken T input) or_else
  Ret (getOperatorToken T input).

(** The loop of [tokenize]: [token] is the variable of that name, [tokens]
    the array built so far, [fuel] bounds the number of iterations. *)
Fixpoint tokenize_loop (T : t) (fuel : nat) (input : str) (token : option Token)
    (tokens : list Token) : outcome (list Token) :=
  match input with
  | [] => Ret tokens
  | _ :: _ =>
      match fuel with
      | 0 => OutOfFuel
      | S fuel =>
          let* token := getNextToken T input token in
          match token with
          | Some tk =>
              tokenize_loop T fuel (substring (length (value tk)) input)
                (Some tk) (tokens ++ [tk])
          | None => tokenize_loop T fuel input None tokens
          end
      end
  end.

Definition tokenize (T : t) (fuel : nat) (input : str) : outcome (list Token) :=
  tokenize_loop T fuel input None [].

End Tokenizer.

(** ** Placeholder parameters ([Params.ts]) *)

(** [Record<string, string> | string[]] *)
Inductive parameters :=
| Mapping (m : gmap str str)
| Sequence (l : list str).

Module Params.

(** [params] is [None] for a value the test [!this.params] rejects. *)
Record t := { params : option parameters; index : nat }.

(** [constructor(params = {})] *)
Definition constructor (params : option parameters) : t :=
  {| params := Some (default (Mapping ∅) params); index := 0 |}.

(** The result is a string or [undefined] ([None]), with the object after
    the call. *)
Definition get (P : t) (token : Token) : option str * t :=
  match params P with
  | None => (Some (value token), P)
  | Some (Mapping m) =>
      match m !! key token with
      | Some v => (Some v, P)
      | None => (Some (value token), P)
      end
  | Some (Sequence l) =>
      (l !! index P, {| params := params P; index := S (index P) |})
  end.

End Params.

(** ** Indentation and inline blocks

    [Indentation.ts] and [InlineBlock.ts] are used by the formatter but are
    not among the sources at hand. *)

Module Indentation.

(** Modelled from the spec: the two tags of spec 3, clause
    ([INDENT_TYPE_TOP_LEVEL]) and nesting ([INDENT_TYPE_BLOCK_LEVEL]). *)
Inductive indentType := INDENT_TYPE_TOP_LEVEL | INDENT_TYPE_BLOCK_LEVEL.

(** Modelled from the spec: the class [Indentation], absent from the
    sources.  Spec 3 and 4.3: an ordered stack of markers tagged clause or
    nesting; the indent is the indent unit repeated once per entry; the
    default unit is a fixed-width whitespace unit (two spaces in the spec's
    example). *)
Record t := { indent : str; indentTypes : list indentType }.

(** Modelled from the spec: the constructor of [Indentation], absent from
    the sources. *)
Definition constructor (indent : option str) : t :=
  {| indent := default (txt "  ") indent; indentTypes := [] |}.

(** Modelled from the spec: [getIndent], spec 4.3 [currentIndent]. *)
Definition getIndent (I : t) : str :=
  concat (replicate (length (indentTypes I)) (indent I)).

(** Modelled from the spec: [increaseToplevel], spec 4.3 [pushClause]. *)
Definition increaseToplevel (I : t) : t :=
  {| indent := indent I; indentTypes := INDENT_TYPE_TOP_LEVEL :: indentTypes I |}.

(** Modelled from the spec: [increaseBlockLevel], spec 4.3 [pushNesting]. *)
Definition increaseBlockLevel (I : t) : t :=
  {| indent := indent I; indentTypes := INDENT_TYPE_BLOCK_LEVEL :: indentTypes I |}.

(** Modelled from the spec: [decreaseTopLevel], spec 4.3
    [popClauseIfPresent]: pops one clause marker if the top is one. *)
Definition decreaseTopLevel (I : t) : t :=
  match indentTypes I with
  | INDENT_TYPE_TOP_LEVEL :: l => {| indent := indent I; indentTypes := l |}
  | _ => I
  end.

(** Modelled from the spec: the stack after popping down to and including
    the most recent nesting marker (spec 4.3). *)
Fixpoint popThroughBlock (l : list indentType) : list indentType :=
  match l with
  | INDENT_TYPE_TOP_LEVEL :: l' => popThroughBlock l'
  | INDENT_TYPE_BLOCK_LEVEL :: l' => l'
  | [] => []
  end.

(** Modelled from the spec: [decreaseBlockLevel], spec 4.3
    [popNestingDiscardingClauses]: pops down to and including the most
    recent nesting marker; nothing happens on the empty stack. *)
Definition decreaseBlockLevel (I : t) : t :=
  {| indent := indent I; indentTypes := popThroughBlock (indentTypes I) |}.

End Indentation.

Module InlineBlock.

Import tokenTypes.

(** Modelled from the spec: the maximum length of an inline block, a
    constant of [InlineBlock.ts] that the spec leaves open.  No theorem
    below depends on its value. *)
Definition INLINE_MAX_LENGTH : nat := 50.

(** Modelled from the spec: the class [InlineBlock], absent from the
    sources.  Spec 3: a single boolean flag. *)
Record t := { active : bool }.

(** Modelled from the spec: the constructor of [InlineBlock]. *)
Definition constructor : t := {| active := false |}.

(** Modelled from the spec: the scan of spec 4.4, from the opening bracket
    to its closing bracket: too long, a line comment, a toplevel or newline
    reserved word or a nested bracket disqualify; so does the end of the
    tokens. *)
Fixpoint scan (tokens : list Token) (length_so_far level : nat) : bool :=
  match tokens with
  | [] => false
  | token :: tokens' =>
      let len := length_so_far + length (value token) in
      if bool_decide (INLINE_MAX_LENGTH < len) then false
      else if bool_decide (type token = OPEN_PAREN) then
        if bool_decide (level = 0) then scan tokens' len 1 else false
      else if bool_decide (type token = CLOSE_PAREN) then
        if bool_decide (level <= 1) then true else scan tokens' len (level - 1)
      else if bool_decide (type token = LINE_COMMENT) then false
      else if bool_decide (type token = RESERVED_TOPLEVEL) then false
      else if bool_decide (type token = RESERVED_NEWLINE) then false
      else scan tokens' len level
  end.

(** Modelled from the spec: [shouldInline(tokens, openIndex)] of spec 4.4. *)
Definition shouldInline (tokens : list Token) (openIndex : nat) : bool :=
  scan (drop openIndex tokens) 0 0.

(** Modelled from the spec: [beginIfPossible], evaluated when an opening
    bracket outside an active inline block is met. *)
Definition beginIfPossible (B : t) (tokens : list Token) (index : nat) : t :=
  if active B then B else {| active := shouldInline tokens index |}.

(** Modelled from the spec: [end], the block is left. *)
Definition end_ (B : t) : t := {| active := false |}.

(** Modelled from the spec: [isActive]. *)
Definition isActive (B : t) : bool := active B.

End InlineBlock.

(** ** The formatter ([Formatter.ts]) *)

Module config.
Record t := {
  indent : option str;
  language : option str;
  params : option parameters
}.
End config.

Module Formatter.

Import tokenTypes.

Record t := {
  cfg : config.t;
  indentation : Indentation.t;
  inlineBlock : InlineBlock.t;
  params : Params.t;
  tokenizer : Tokenizer.t;
  previousReservedWord : Token;
  tokens : list Token;
  index : nat
}.

Definition constructor (cfg : config.t) (tokenizer : Tokenizer.t) : t := {|
  cfg := cfg;
  indentation := Indentation.constructor (config.indent cfg);
  inlineBlock := InlineBlock.constructor;
  params := Params.constructor (config.params cfg);
  tokenizer := tokenizer;
  previousReservedWord := {| type := []; value := []; key := [] |};
  tokens := [];
  index := 0
|}.

Definition set_indentation (F : t) (I : Indentation.t) : t :=
  {| cfg := cfg F; indentation := I; inlineBlock := inlineBlock F;
     params := params F; tokenizer := tokenizer F;
     previousReservedWord := previousReservedWord F;
     tokens := tokens F; index := index F |}.

Definition set_inlineBlock (F : t) (B : InlineBlock.t) : t :=
  {| cfg := cfg F; indentation := indentation F; inlineBlock := B;
     params := params F; tokenizer := tokenizer F;
     previousReservedWord := previousReservedWord F;
     tokens := tokens F; index := index F |}.

Definition set_params (F : t) (P : Params.t) : t :=
  {| cfg := cfg F; indentation := indentation F; inlineBlock := inlineBlock F;
     params := P; tokenizer := tokenizer F;
     previousReservedWord := previousReservedWord F;
     tokens := tokens F; index := index F |}.

Definition set_previousReservedWord (F : t) (token : Token) : t :=
  {| cfg := cfg F; indentation := indentation F; inlineBlock := inlineBlock F;
     params := params F; tokenizer := tokenizer F;
     previousReservedWord := token;
     tokens := tokens F; index := index F |}.

Definition set_tokens (F : t) (tokens : list Token) : t :=
  {| cfg := cfg F; indentation := indentation F; inlineBlock := inlineBlock F;
     params := params F; tokenizer := tokenizer F;
     previousReservedWord := previousReservedWord F;
     tokens := tokens; index := index F |}.

Definition set_index (F : t) (index : nat) : t :=
  {| cfg := cfg F; indentation := indentation F; inlineBlock := inlineBlock F;
     params := params F; tokenizer := tokenizer F;
     previousReservedWord := previousReservedWord F;
     tokens := tokens F; index := index |}.

(** [this.tokens[this.index - offset] || {}]; [None] is the empty object. *)
Definition previousToken (F : t) (offset : nat) : option Token :=
  if bool_decide (offset <= index F) then tokens F !! (index F - offset) else None.

(** [x.type === ty], where the empty object has no type *)
Definition hasType (x : option Token) (ty : str) : bool :=
  match x with Some tk => bool_decide (type tk = ty) | None => false end.

(** The loop of [previousNonWhitespaceToken], started at [n]; the bound is
    the number of tokens before the index. *)
Fixpoint previousNonWhitespaceFrom (F : t) (bound n : nat) : option Token :=
  match bound with
  | 0 => previousToken F n
  | S bound =>
      if hasType (previousToken F n) WHITESPACE
      then previousNonWhitespaceFrom F bound (S n)
      else previousToken F n
  end.

Definition previousNonWhitespaceToken (F : t) : option Token :=
  previousNonWhitespaceFrom F (index F) 1.

Definition addNewline (F : t) (query : str) : str :=
  trimEnd query ++ [LF] ++ Indentation.getIndent (indentation F).

Definition trimTrailingWhitespace (F : t) (query : str) : str :=
  if hasType (previousNonWhitespaceToken F) LINE_COMMENT
  then trimEnd query ++ [LF]
  else trimEnd query.

Definition formatLineComment (F : t) (token : Token) (query : str) : str :=
  addNewline F (query ++ value token).

(** [comment.replace(/\n/g, newline + indent)]; the indent is taken to be
    free of [$]. *)
Definition indentComment (F : t) (comment : str) : str :=
  replace_g (chr LF) (LF :: Indentation.getIndent (indentation F)) comment.

Definition formatBlockComment (F : t) (token : Token) (query : str) : str :=
  addNewline F (addNewline F query ++ indentComment F (value token)).

(** [string.replace(/\s+/g, ' ')] *)
Definition equalizeWhitespace (s : str) : str :=
  replace_g (plus (Cls isSpace)) [" "] s.

Definition formatToplevelReservedWord (F : t) (token : Token) (query : str)
  : str * t :=
  let F := set_indentation F (Indentation.decreaseTopLevel (indentation F)) in
  let query := addNewline F query in
  let F := set_indentation F (Indentation.increaseToplevel (indentation F)) in
  let query := query ++ equalizeWhitespace (value token) in
  (addNewline F query, F).

Definition formatNewlineReservedWord (F : t) (token : Token) (query : str) : str :=
  addNewline F query ++ equalizeWhitespace (value token) ++ [" "].

Definition formatWithSpaces (token : Token) (query : str) : str :=
  query ++ value token ++ [" "].

Definition formatWithSpaceAfter (F : t) (token : Token) (query : str) : str :=
  trimTrailingWhitespace F query ++ value token ++ [" "].

Definition formatWithoutSpaces (F : t) (token : Token) (query : str) : str :=
  trimTrailingWhitespace F query ++ value token.

Definition formatQuerySeparator (F : t) (token : Token) (query : str) : str :=
  trimTrailingWhitespace F query ++ [LF] ++ value token ++ [LF].

Definition formatOpeningParentheses (F : t) (token : Token) (query : str)
  : str * t :=
  let p := previousToken F 1 in
  let query :=
    if hasType p WHITESPACE || hasType p OPEN_PAREN || hasType p LINE_COMMENT
    then query else trimEnd query in
  let query := query ++ value token in
  let F := set_inlineBlock F
             (InlineBlock.beginIfPossible (inlineBlock F) (tokens F) (index F)) in
  if InlineBlock.isActive (inlineBlock F) then (query, F)
  else
    let F := set_indentation F (Indentation.increaseBlockLevel (indentation F)) in
    (addNewline F query, F).

Definition formatClosingParentheses (F : t) (token : Token) (query : str)
  : str * t :=
  if InlineBlock.isActive (inlineBlock F) then
    let F := set_inlineBlock F (InlineBlock.end_ (inlineBlock F)) in
    (formatWithSpaceAfter F token query, F)
  else
    let F := set_indentation F (Indentation.decreaseBlockLevel (indentation F)) in
    (formatWithSpaces token (addNewline F query), F).

(** [query + undefined] appends the text [undefined] *)
Definition toText (v : option str) : str := default (txt "undefined") v.

Definition formatPlaceholder (F : t) (token : Token) (query : str) : str * t :=
  let '(v, P) := Params.get (params F) token in
  (query ++ toText v ++ [" "], set_params F P).

(** [/^LIMIT$/i] *)
Definition LIMIT_REGEX : regex := Seq (lit_i (txt "LIMIT")) Eoi.

Definition formatComma (F : t) (token : Token) (query : str) : str :=
  let query := trimTrailingWhitespace F query ++ value token ++ [" "] in
  if InlineBlock.isActive (inlineBlock F) then query
  else if test LIMIT_REGEX (value (previousReservedWord F)) then query
  else addNewline F query.

(** The body of the [forEach] callback. *)
Definition formatToken (F : t) (token : Token) (index : nat) (formattedQuery : str)
  : str * t :=
  let F := set_index F index in
  if bool_decide (type token = WHITESPACE) then (formattedQuery, F)
  else if bool_decide (type token = LINE_COMMENT) then
    (formatLineComment F token formattedQuery, F)
  else if bool_decide (type token = BLOCK_COMMENT) then
    (formatBlockComment F token formattedQuery, F)
  else if bool_decide (type token = RESERVED_TOPLEVEL) then
    let '(q, F) := formatToplevelReservedWord F token formattedQuery in
    (q, set_previousReservedWord F token)
  else if bool_decide (type token = RESERVED_NEWLINE) then
    (formatNewlineReservedWord F token formattedQuery,
     set_previousReservedWord F token)
  else if bool_decide (type token = RESERVED) then
    (formatWithSpaces token formattedQuery, set_previousReservedWord F token)
  else if bool_decide (type token = OPEN_PAREN) then
    formatOpeningParentheses F token formattedQuery
  else if bool_decide (type token = CLOSE_PAREN) then
    formatClosingParentheses F token formattedQuery
  else if bool_decide (type token = PLACEHOLDER) then
    formatPlaceholder F token formattedQuery
  else if bool_decide (value token = [","]) then
    (formatComma F token formattedQuery, F)
  else if bool_decide (value token = [":"]) then
    (formatWithSpaceAfter F token formattedQuery, F)
  else if bool_decide (value token = ["."]) then
    (formatWithoutSpaces F token formattedQuery, F)
  else if bool_decide (value token = [";"]) then
    (formatQuerySeparator F token formattedQuery, F)
  else (formatWithSpaces token formattedQuery, F).

(** [this.tokens.forEach((token, index) => ...)], from position [index] on *)
Fixpoint forEach (l : list Token) (index : nat) (F : t) (formattedQuery : str)
  : str * t :=
  match l with
  | [] => (formattedQuery, F)
  | token :: l' =>
      let '(q, F) := formatToken F token index formattedQuery in
      forEach l' (S index) F q
  end.

Definition getFormattedQueryFromTokens (F : t) : str * t :=
  forEach (tokens F) 0 F [].

(** [format(query)]; [fuel] bounds the loop of [tokenize]. *)
Definition format (F : t) (fuel : nat) (query : str) : outcome (str * t) :=
  let* tokens := Tokenizer.tokenize (tokenizer F) fuel query in
  let F := set_tokens F tokens in
  let '(formattedQuery, F) := getFormattedQueryFromTokens F in
  Ret (trim formattedQuery, F).

End Formatter.

(** ** Sample configurations

    The dialect tables are outside the sources at hand; [sampleConfig] has
    their shape, with a few words of each class. *)

Definition sampleConfig : tokenizerConfig := {|
  reservedWords := map txt ["AS"; "ASC"; "DESC"; "END"; "IN"; "ON"]%string;
  reservedToplevelWords :=
    map txt ["SELECT"; "FROM"; "WHERE"; "LIMIT"; "ORDER BY"; "GROUP BY"]%string;
  reservedNewlineWords := map txt ["AND"; "OR"; "LEFT JOIN"; "JOIN"]%string;
  stringTypes := [[DQUOTE; DQUOTE]; ["N"; SQUOTE; SQUOTE]; [SQUOTE; SQUOTE];
                  [BACKTICK; BACKTICK]; txt "[]"];
  openParens := map txt ["("; "CASE"]%string;
  closeParens := map txt [")"; "END"]%string;
  indexedPlaceholderTypes := map txt ["?"]%string;
  namedPlaceholderTypes := map txt ["@"; ":"]%string;
  lineCommentTypes := map txt ["#"; "--"]%string;
  specialWordChars := []
|}.

(** The same without prefixes for indexed placeholders, as a dialect with
    named placeholders only leaves that list out. *)
Definition namedOnlyConfig : tokenizerConfig := {|
  reservedWords := reservedWords sampleConfig;
  reservedToplevelWords := reservedToplevelWords sampleConfig;
  reservedNewlineWords := reservedNewlineWords sampleConfig;
  stringTypes := stringTypes sampleConfig;
  openParens := openParens sampleConfig;
  closeParens := closeParens sampleConfig;
  indexedPlaceholderTypes := [];
  namedPlaceholderTypes := map txt ["$"]%string;
  lineCommentTypes := lineCommentTypes sampleConfig;
  specialWordChars := []
|}.

Definition sampleTokenizer : Tokenizer.t := Tokenizer.constructor sampleConfig.

Definition sampleFormatter (p : option parameters) : Formatter.t :=
  Formatter.constructor
    {| config.indent := None; config.language := None; config.params := p |}
    sampleTokenizer.

Definition mkToken (ty : str) (v k : string) : Token :=
  {| type := ty; value := txt v; key := txt k |}.

(** ** Vocabulary of the statements *)

(** *** Patterns *)

(** A pattern that has to consume a character when it matches in front of
    non-empty text ([$] cannot match there at all). *)
Fixpoint consuming (r : regex) : bool :=
  match r with
  | Cls _ | Eoi => true
  | Seq a b => consuming a || consuming b
  | Alt a b => consuming a && consuming b
  | Eps | Star _ | Lazy _ | Bnd | Bol => false
  end.

(** A property of every character class of a pattern. *)
Fixpoint all_classes (Q : (ascii -> bool) -> Prop) (r : regex) : Prop :=
  match r with
  | Cls p => Q p
  | Seq a b | Alt a b => all_classes Q a /\ all_classes Q b
  | Star a | Lazy a => all_classes Q a
  | Eps | Bnd | Bol | Eoi => True
  end.

(** From [x] to [y] the text [p] was read, all of whose characters satisfy [P]. *)
Definition reads (P : ascii -> Prop) (x y : pos) : Prop :=
  exists p, rest x = p ++ rest y /\ Forall P p.

(** The last character of [p], or [d] when [p] is empty. *)
Definition lastOr (d : option ascii) (p : str) : option ascii :=
  match last p with
  | Some c => Some c
  | None => d
  end.

(** From [x] to [y] a text was read whose last character, if there is one,
    is the character before [y]. *)
Definition tracks (x y : pos) : Prop :=
  exists p, rest x = p ++ rest y /\ before y = lastOr (before x) p.

(** The characters that close a quoted text. *)
Definition closers : list ascii := [DQUOTE; SQUOTE; BACKTICK; "]"].

(** A position at the end of the text or just after a closing character. *)
Definition closing (y : pos) : Prop :=
  rest y = [] \/ exists c, before y = Some c /\ c ∈ closers.

(** A pattern all of whose matches end at such a position. *)
Definition closes (r : regex) : Prop :=
  forall x y, y ∈ rmatch r x -> closing y.

(** The four characters that leave the pattern of
    [getEscapedPlaceholderKey] ill-formed. *)
Definition unbalancing : list ascii := ["("; ")"; "["; BACKSLASH].

(** A text that does not end in one of them. *)
Definition endsWell (input : str) : bool :=
  match last input with
  | Some c => negb (bool_decide (c ∈ unbalancing))
  | None => true
  end.



(** *** The tokenizer *)

(** The fifteen patterns of a tokenizer. *)
Definition regexes (T : Tokenizer.t) : list regex :=
  [ Tokenizer.WHITESPACE_REGEX T; Tokenizer.LINE_COMMENT_REGEX T;
    Tokenizer.BLOCK_COMMENT_REGEX T; Tokenizer.STRING_REGEX T;
    Tokenizer.OPEN_PAREN_REGEX T; Tokenizer.CLOSE_PAREN_REGEX T;
    Tokenizer.IDENT_NAMED_PLACEHOLDER_REGEX T;
    Tokenizer.STRING_NAMED_PLACEHOLDER_REGEX T;
    Tokenizer.INDEXED_PLACEHOLDER_REGEX T; Tokenizer.NUMBER_REGEX T;
    Tokenizer.RESERVED_TOPLEVEL_REGEX T; Tokenizer.RESERVED_NEWLINE_REGEX T;
    Tokenizer.RESERVED_PLAIN_REGEX T; Tokenizer.WORD_REGEX T;
    Tokenizer.OPERATOR_REGEX T ].

(** No pattern of the tokenizer can match the empty text in front of
    non-empty text. *)
Definition progressive (T : Tokenizer.t) : bool := forallb consuming (regexes T).

(** A list of the configuration that is not empty and has no empty entry. *)
Definition nonEmptyEntries (l : list str) : bool :=
  match l with
  | [] => false
  | _ :: _ => forallb (fun s => match s with [] => false | _ :: _ => true end) l
  end.

(** A non-empty list of string types that are all in the table. *)
Definition knownStringTypes (l : list str) : bool :=
  match l with
  | [] => false
  | _ :: _ =>
      forallb (fun t => match Tokenizer.patterns t with Some _ => true | None => false end) l
  end.

(** The lists on which progress depends; the prefixes of named placeholders,
    the prefixes of line comments and the special word characters may be
    anything. *)
Definition wellFormed (cfg : tokenizerConfig) : bool :=
  nonEmptyEntries (reservedWords cfg) &&
  nonEmptyEntries (reservedToplevelWords cfg) &&
  nonEmptyEntries (reservedNewlineWords cfg) &&
  knownStringTypes (stringTypes cfg) &&
  nonEmptyEntries (openParens cfg) &&
  nonEmptyEntries (closeParens cfg) &&
  nonEmptyEntries (indexedPlaceholderTypes cfg).

(** The token types whose text is upper-cased at creation. *)
Definition canonical (ty : str) : bool :=
  bool_decide (ty ∈ [tokenTypes.RESERVED; tokenTypes.RESERVED_TOPLEVEL;
                     tokenTypes.RESERVED_NEWLINE; tokenTypes.OPEN_PAREN;
                     tokenTypes.CLOSE_PAREN]).

(** The text of [tk] is the piece [sl] of the input, upper-cased for the
    canonical types. *)
Definition sliceOf (tk : Token) (sl : str) : Prop :=
  value tk = if canonical (type tk) then toUpperCase sl else sl.

(** What [getNextToken] can return: the match of one of the patterns, with
    the type of its matcher, upper-cased by the matchers of brackets and
    reserved words. *)
Inductive lexed (T : Tokenizer.t) (input : str) : Token -> Prop :=
| lexed_plain ty r m k :
    (ty, r) ∈ [ (tokenTypes.WHITESPACE, Tokenizer.WHITESPACE_REGEX T);
                (tokenTypes.LINE_COMMENT, Tokenizer.LINE_COMMENT_REGEX T);
                (tokenTypes.BLOCK_COMMENT, Tokenizer.BLOCK_COMMENT_REGEX T);
                (tokenTypes.STRING, Tokenizer.STRING_REGEX T);
                (tokenTypes.PLACEHOLDER, Tokenizer.IDENT_NAMED_PLACEHOLDER_REGEX T);
                (tokenTypes.PLACEHOLDER, Tokenizer.STRING_NAMED_PLACEHOLDER_REGEX T);
                (tokenTypes.PLACEHOLDER, Tokenizer.INDEXED_PLACEHOLDER_REGEX T);
                (tokenTypes.NUMBER, Tokenizer.NUMBER_REGEX T);
                (tokenTypes.WORD, Tokenizer.WORD_REGEX T);
                (tokenTypes.OPERATOR, Tokenizer.OPERATOR_REGEX T) ] ->
    exec r input = Some m ->
    lexed T input {| type := ty; value := m; key := k |}
| lexed_upper ty r m :
    (ty, r) ∈ [ (tokenTypes.OPEN_PAREN, Tokenizer.OPEN_PAREN_REGEX T);
                (tokenTypes.CLOSE_PAREN, Tokenizer.CLOSE_PAREN_REGEX T);
                (tokenTypes.RESERVED_TOPLEVEL, Tokenizer.RESERVED_TOPLEVEL_REGEX T);
                (tokenTypes.RESERVED_NEWLINE, Tokenizer.RESERVED_NEWLINE_REGEX T);
                (tokenTypes.RESERVED, Tokenizer.RESERVED_PLAIN_REGEX T) ] ->
    exec r input = Some m ->
    lexed T input {| type := ty; value := toUpperCase m; key := [] |}.

(** No matcher that [getNextToken] tries before the reserved words and the
    bare words takes the text. *)
Definition unclaimed (T : Tokenizer.t) (input : str) : Prop :=
  Tokenizer.getWhitespaceToken T input = None /\
  Tokenizer.getCommentToken T input = None /\
  Tokenizer.getStringToken T input = None /\
  Tokenizer.getOpenParenToken T input = None /\
  Tokenizer.getCloseParenToken T input = None /\
  Tokenizer.getPlaceholderToken T input = Ret None /\
  Tokenizer.getNumberToken T input = None.

(** *** The formatter *)

(** What a call of [format] hands back to its caller. *)
Definition output (o : outcome (str * Formatter.t)) : outcome str :=
  match o with
  | Ret (s, _) => Ret s
  | Throw e => Throw e
  | OutOfFuel => OutOfFuel
  end.

(** The part of a formatter that one call of [format] leaves to the next. *)
Definition carried (F : Formatter.t)
  : Indentation.t * InlineBlock.t * Params.t * Token :=
  (Formatter.indentation F, Formatter.inlineBlock F, Formatter.params F,
   Formatter.previousReservedWord F).

(** The same after a call, when the call returns. *)
Definition carried_after (o : outcome (str * Formatter.t))
  : option (Indentation.t * InlineBlock.t * Params.t * Token) :=
  match o with
  | Ret (_, F) => Some (carried F)
  | _ => None
  end.

(** A second call of [format] on the formatter that a first call left. *)
Definition and_then_format (first : outcome (str * Formatter.t)) (fuel : nat)
    (query : str) : outcome (str * Formatter.t) :=
  let* r := first in Formatter.format (snd r) fuel query.

(** The formatter with another configuration record. *)
Definition with_cfg (c : config.t) (F : Formatter.t) : Formatter.t :=
  {| Formatter.cfg := c;
     Formatter.indentation := Formatter.indentation F;
     Formatter.inlineBlock := Formatter.inlineBlock F;
     Formatter.params := Formatter.params F;
     Formatter.tokenizer := Formatter.tokenizer F;
     Formatter.previousReservedWord := Formatter.previousReservedWord F;
     Formatter.tokens := Formatter.tokens F;
     Formatter.index := Formatter.index F |}.

(** The three types after which the formatter remembers the token. *)
Definition isReservedType (ty : str) : bool :=
  bool_decide (ty ∈ [tokenTypes.RESERVED_TOPLEVEL; tokenTypes.RESERVED_NEWLINE;
                     tokenTypes.RESERVED]).

(** The last token of [l] with a reserved type, [d] if there is none. *)
Fixpoint lastReserved (l : list Token) (d : Token) : Token :=
  match l with
  | [] => d
  | tk :: l' => lastReserved l' (if isReservedType (type tk) then tk else d)
  end.


(** A text without its whitespace. *)
Definition strip (s : str) : str := filter (fun c => isSpace c = false) s.

(** What the formatter prints for a token: nothing for whitespace, the
    parameter for a placeholder, the text of the token otherwise; with the
    parameters object after the token. *)
Definition printed (P : Params.t) (tk : Token) : str * Params.t :=
  if bool_decide (type tk = tokenTypes.WHITESPACE) then ([], P)
  else if bool_decide (type tk = tokenTypes.PLACEHOLDER) then
    let '(v, P') := Params.get P tk in (Formatter.toText v, P')
  else (value tk, P).

(** The same for the tokens of a call, in order. *)
Fixpoint printedTexts (P : Params.t) (l : list Token) : list str :=
  match l with
  | [] => []
  | tk :: l' => let '(s, P') := printed P tk in s :: printedTexts P' l'
  end.

(** The number of placeholder tokens. *)
Definition countPlaceholders (l : list Token) : nat :=
  length (filter (fun tk => type tk = tokenTypes.PLACEHOLDER) l).

(** *** Sample data *)

(** Lines joined by line feeds. *)
Fixpoint lines (l : list string) : str :=
  match l with
  | [] => []
  | [s] => txt s
  | s :: l' => txt s ++ LF :: lines l'
  end.


(** The tokens of [limit 1 as x, 2]. *)
Definition limitAsTokens : list Token :=
  [ mkToken tokenTypes.RESERVED_TOPLEVEL "LIMIT" ""; mkToken tokenTypes.WHITESPACE " " "";
    mkToken tokenTypes.NUMBER "1" ""; mkToken tokenTypes.WHITESPACE " " "";
    mkToken tokenTypes.RESERVED "AS" ""; mkToken tokenTypes.WHITESPACE " " "";
    mkToken tokenTypes.WORD "x" ""; mkToken tokenTypes.OPERATOR "," "";
    mkToken tokenTypes.WHITESPACE " " ""; mkToken tokenTypes.NUMBER "2" "" ].

(** *** Runs, prefixes and word boundaries *)

(** The longest prefix of [s] whose characters satisfy [p], and what
    follows it. *)
Fixpoint takeWhile (p : ascii -> bool) (s : str) : str :=
  match s with
  | c :: s' => if p c then c :: takeWhile p s' else []
  | [] => []
  end.

Fixpoint dropWhile (p : ascii -> bool) (s : str) : str :=
  match s with
  | c :: s' => if p c then dropWhile p s' else s
  | [] => []
  end.

(** [s.startsWith(p)] *)
Fixpoint startsWith (p s : str) : bool :=
  match p, s with
  | [], _ => true
  | a :: p', c :: s' => bool_decide (a = c) && startsWith p' s'
  | _ :: _, [] => false
  end.

(** The first text of [l] that [s] starts with. *)
Fixpoint firstPrefix (l : list str) (s : str) : option str :=
  match l with
  | [] => None
  | o :: l' => if startsWith o s then Some o else firstPrefix l' s
  end.

(** No text of the list is a proper prefix of a later one. *)
Fixpoint longestFirst (l : list str) : bool :=
  match l with
  | [] => true
  | a :: l' =>
      forallb (fun o => negb (startsWith a o) || (length o <=? length a)%nat) l'
      && longestFirst l'
  end.

(** The matches of a greedy repetition of one class in front of [s], the
    longest first; [b] is the character before. *)
Fixpoint greedyClass (p : ascii -> bool) (b : option ascii) (s : str) : list pos :=
  match s with
  | c :: s' => if p c then greedyClass p (Some c) s' ++ [Pos b s] else [Pos b s]
  | [] => [Pos b s]
  end.

(** A text that ends, respectively starts, with a word character. *)
Definition wordEnd (m : str) : bool :=
  match last m with Some c => isWordChar c | None => false end.

Definition wordStart (s : str) : bool :=
  match s with c :: _ => isWordChar c | [] => false end.

(** *** Shapes of tokens *)

Definition isWhitespaceToken (tk : Token) : bool :=
  bool_decide (type tk = tokenTypes.WHITESPACE).

(** Every two neighbouring tokens of [l] satisfy [R]. *)
Fixpoint neighbours (R : Token -> Token -> bool) (l : list Token) : bool :=
  match l with
  | a :: l' =>
      match l' with
      | b :: _ => R a b && neighbours R l'
      | [] => true
      end
  | [] => true
  end.

(** No two neighbouring tokens of [l] are both whitespace. *)
Definition separated (l : list Token) : bool :=
  neighbours (fun a b => negb (isWhitespaceToken a && isWhitespaceToken b)) l.

(** No token of [l] that follows a token whose text is a bare dot has a
    reserved type. *)
Definition dotsRespected (l : list Token) : bool :=
  neighbours
    (fun a b => negb (bool_decide (value a = ["."]) && isReservedType (type b))) l.

(** The characters of a bare word: [\w] and the special characters of the
    configuration. *)
Definition isBareWordChar (cfg : tokenizerConfig) (c : ascii) : bool :=
  isWordChar c || bool_decide (c ∈ concat (specialWordChars cfg)).

(** The text up to and including the first star followed by a slash; all of
    the text when there is none. *)
Fixpoint untilCommentEnd (s : str) : str :=
  match s with
  | [] => []
  | c :: s' =>
      match s' with
      | d :: _ => if isChar "*" c && isChar "/" d then [c; d] else c :: untilCommentEnd s'
      | [] => [c]
      end
  end.

(** The thirteen types that the tokenizer gives to tokens. *)
Definition producedTypes : list str :=
  [ tokenTypes.WHITESPACE; tokenTypes.LINE_COMMENT; tokenTypes.BLOCK_COMMENT;
    tokenTypes.STRING; tokenTypes.OPEN_PAREN; tokenTypes.CLOSE_PAREN;
    tokenTypes.PLACEHOLDER; tokenTypes.NUMBER; tokenTypes.RESERVED_TOPLEVEL;
    tokenTypes.RESERVED_NEWLINE; tokenTypes.RESERVED; tokenTypes.WORD;
    tokenTypes.OPERATOR ].

(** The characters that open a quoted text. *)
Definition openers : list ascii := [BACKTICK; "["; DQUOTE; SQUOTE; "N"].

(** A pattern all of whose matches start in front of such a character. *)
Definition opens (r : regex) : Prop :=
  forall x y, y ∈ rmatch r x -> exists c, head (rest x) = Some c /\ c ∈ openers.

(** *** Whitespace in the output *)

(** [s] with every run of whitespace replaced by one space; [inRun] says
    that the character before was whitespace. *)
Fixpoint collapseFrom (inRun : bool) (s : str) : str :=
  match s with
  | [] => []
  | c :: s' =>
      if isSpace c
      then if inRun then collapseFrom true s' else " " :: collapseFrom true s'
      else c :: collapseFrom false s'
  end.

Definition collapse (s : str) : str := collapseFrom false s.

(** [m] spells the reserved phrase [w]: letter for letter up to letter
    case, with a non-empty run of whitespace for each space of [w]. *)
Inductive spelled : str -> str -> Prop :=
| spelled_nil : spelled [] []
| spelled_char c d w m :
    isChar " " c = false -> upperChar d = upperChar c -> spelled w m ->
    spelled (c :: w) (d :: m)
| spelled_space c ws w m :
    isChar " " c = true -> ws <> [] -> Forall (fun c => isSpace c = true) ws ->
    spelled w m -> spelled (c :: w) (ws ++ m).

(** A phrase whose only whitespace characters are spaces. *)
Definition plainSpaces (w : str) : bool :=
  forallb (fun c => negb (isSpace c) || isChar " " c) w.

(** *** Letter case *)

(** A position in the upper-cased text. *)
Definition upperPos (x : pos) : pos :=
  Pos (option_map upperChar (before x)) (toUpperCase (rest x)).

(** A pattern whose classes do not tell a letter from its upper case. *)
Definition caseBlind (r : regex) : Prop :=
  all_classes (fun p => forall c, p (upperChar c) = p c) r.

(** *** Plain tokens *)



(** *** The layout of the output *)

(** A text of whitespace only. *)
Definition blank (s : str) : Prop := Forall (fun c => isSpace c = true) s.

(** [out] is laid out from the texts [ts]: it consists of the texts, in
    order, each without the whitespace at its two ends and otherwise
    character for character, with nothing but whitespace before, between
    and after them. *)
Inductive laidOut : list str -> str -> Prop :=
| laidOut_nil w : blank w -> laidOut [] w
| laidOut_snoc ts q t w :
    laidOut ts q -> blank w -> laidOut (ts ++ [t]) (q ++ trim t ++ w).

(** The lines of a text, each with its line feed; [cur] is the line begun
    so far. *)
Fixpoint linesFrom (cur : str) (s : str) : list str :=
  match s with
  | [] => [cur]
  | c :: s' =>
      if isChar LF c then (cur ++ [c]) :: linesFrom [] s' else linesFrom (cur ++ [c]) s'
  end.

(** The texts that the formatter lays out for a token: none for
    whitespace, the parameter for a placeholder, the lines of a block
    comment one by one, the text with its runs of whitespace replaced by one
    space for a toplevel or newline reserved word, the text of the token
    otherwise; with the parameters object after the token. *)
Definition shown (P : Params.t) (tk : Token) : list str * Params.t :=
  if bool_decide (type tk = tokenTypes.WHITESPACE) then ([], P)
  else if bool_decide (type tk = tokenTypes.PLACEHOLDER) then
    let '(v, P') := Params.get P tk in ([Formatter.toText v], P')
  else if bool_decide (type tk = tokenTypes.BLOCK_COMMENT) then
    (linesFrom [] (value tk), P)
  else if bool_decide (type tk = tokenTypes.RESERVED_TOPLEVEL)
          || bool_decide (type tk = tokenTypes.RESERVED_NEWLINE) then
    ([Formatter.equalizeWhitespace (value tk)], P)
  else ([value tk], P).

(** The same for the tokens of a call, in order. *)
Fixpoint shownTexts (P : Params.t) (l : list Token) : list str :=
  match l with
  | [] => []
  | tk :: l' => let '(s, P') := shown P tk in s ++ shownTexts P' l'
  end.

(** The parameters object after the placeholders of [l] have been looked
    up in turn. *)
Definition paramsAfter (P : Params.t) (l : list Token) : Params.t :=
  foldl (fun P tk => snd (printed P tk)) P l.

(** The three types at which the formatter changes the indent tracker or
    the inline-block flag. *)
Definition movesIndent (tk : Token) : bool :=
  bool_decide (type tk ∈ [tokenTypes.RESERVED_TOPLEVEL; tokenTypes.OPEN_PAREN;
                          tokenTypes.CLOSE_PAREN]).

(** A formatter as an earlier call has left it: the second parameter is
    next, and the remembered word is LIMIT. *)
Definition usedFormatter : Formatter.t :=
  Formatter.set_previousReservedWord
    (Formatter.set_params (sampleFormatter (Some (Sequence [txt "1"; txt "2"; txt "3"])))
       {| Params.params := Some (Sequence [txt "1"; txt "2"; txt "3"]);
          Params.index := 1 |})
    (mkToken tokenTypes.RESERVED_TOPLEVEL "LIMIT" "").

(** A configuration like [sampleConfig] that leaves both lists of
    placeholder prefixes and the list of string types out. *)
Definition noPrefixConfig : tokenizerConfig := {|
  reservedWords := reservedWords sampleConfig;
  reservedToplevelWords := reservedToplevelWords sampleConfig;
  reservedNewlineWords := reservedNewlineWords sampleConfig;
  stringTypes := [];
  openParens := openParens sampleConfig;
  closeParens := closeParens sampleConfig;
  indexedPlaceholderTypes := [];
  namedPlaceholderTypes := [];
  lineCommentTypes := lineCommentTypes sampleConfig;
  specialWordChars := []
|}.

(** * Properties *)

(** ** The pattern engine *)

Lemma all_classes_True r : all_classes (fun p => forall c, p c = true -> True) r.
Proof. induction r; simpl; auto. Qed.

Lemma all_classes_impl (Q Q' : (ascii -> bool) -> Prop) r :
  (forall p, Q p -> Q' p) -> all_classes Q r -> all_classes Q' r.
Proof. intros HQ. induction r; simpl; intuition. Qed.

(** Whatever relates a position to itself, is transitive and relates the
    two ends of every character read, relates a position to every match
    from it. *)
Section Relation.

Variable R : pos -> pos -> Prop.
Hypothesis R_refl : forall x, R x x.
Hypothesis R_trans : forall x y z, R x y -> R y z -> R x z.

Lemma iter_greedy_rel step n x y :
  (forall x y, y ∈ step x -> R x y) -> y ∈ iter_greedy step n x -> R x y.
Proof.
  intros Hstep. revert x. induction n as [|n IH]; intros x; simpl.
  - intros ->%list_elem_of_singleton. apply R_refl.
  - rewrite elem_of_app, list_elem_of_bind, list_elem_of_singleton.
    intros [(z & Hy & Hz) | ->]; [|apply R_refl].
    apply list_elem_of_filter in Hz as [_ Hz].
    eapply R_trans; eauto.
Qed.

Lemma iter_lazy_rel step n x y :
  (forall x y, y ∈ step x -> R x y) -> y ∈ iter_lazy step n x -> R x y.
Proof.
  intros Hstep. revert x. induction n as [|n IH]; intros x; simpl.
  - intros ->%list_elem_of_singleton. apply R_refl.
  - rewrite elem_of_cons, list_elem_of_bind.
    intros [-> | (z & Hy & Hz)]; [apply R_refl|].
    apply list_elem_of_filter in Hz as [_ Hz].
    eapply R_trans; eauto.
Qed.

Lemma rmatch_rel r :
  all_classes (fun p => forall x c s, rest x = c :: s -> p c = true ->
                                      R x (Pos (Some c) s)) r ->
  forall x y, y ∈ rmatch r x -> R x y.
Proof.
  induction r as [|p|a IHa b IHb|a IHa b IHb|a IHa|a IHa| | |]; simpl; intros Hc x y.
  - intros ->%list_elem_of_singleton. apply R_refl.
  - destruct (rest x) as [|c s] eqn:Hx; [by intros ?%elem_of_nil|].
    destruct (p c) eqn:Hp; [|by intros ?%elem_of_nil].
    intros ->%list_elem_of_singleton. by apply Hc.
  - destruct Hc as [Ha Hb]. rewrite list_elem_of_bind.
    intros (z & Hy & Hz). eapply R_trans; eauto.
  - destruct Hc as [Ha Hb]. rewrite elem_of_app. intros [?|?]; eauto.
  - apply iter_greedy_rel; auto.
  - apply iter_lazy_rel; auto.
  - destruct (xorb _ _); [|by intros ?%elem_of_nil].
    intros ->%list_elem_of_singleton. apply R_refl.
  - destruct (before x); [by intros ?%elem_of_nil|].
    intros ->%list_elem_of_singleton. apply R_refl.
  - destruct (rest x); [|by intros ?%elem_of_nil].
    intros ->%list_elem_of_singleton. apply R_refl.
Qed.

End Relation.

Lemma reads_refl P x : reads P x x.
Proof. exists []. split; [done | constructor]. Qed.

Lemma reads_trans P x y z : reads P x y -> reads P y z -> reads P x z.
Proof.
  intros (p & Hp & HP) (q & Hq & HQ). exists (p ++ q). split.
  - rewrite Hp, Hq. by rewrite app_assoc.
  - by apply Forall_app.
Qed.

Lemma reads_length P x y : reads P x y -> length (rest y) <= length (rest x).
Proof. intros (p & -> & _). rewrite length_app. lia. Qed.

(** Every match reads a piece of the text in front of it, made of
    characters its classes accept. *)
Lemma rmatch_reads (P : ascii -> Prop) r :
  all_classes (fun p => forall c, p c = true -> P c) r ->
  forall x y, y ∈ rmatch r x -> reads P x y.
Proof.
  intros Hc. apply rmatch_rel; [apply reads_refl | apply reads_trans |].
  eapply all_classes_impl; [|exact Hc]. intros p Hp x c s Hx Hpc.
  exists [c]. split; [done|]. constructor; [by apply Hp | constructor].
Qed.

Lemma tracks_refl x : tracks x x.
Proof. by exists []. Qed.

Lemma lastOr_app d p q : lastOr (lastOr d p) q = lastOr d (p ++ q).
Proof.
  unfold lastOr. rewrite last_app. by destruct (last q).
Qed.

Lemma tracks_trans x y z : tracks x y -> tracks y z -> tracks x z.
Proof.
  intros (p & Hp & HP) (q & Hq & HQ). exists (p ++ q). split.
  - rewrite Hp, Hq. by rewrite app_assoc.
  - by rewrite HQ, HP, lastOr_app.
Qed.

(** The character before the end of a match is the last one read, if any. *)
Lemma rmatch_tracks r x y : y ∈ rmatch r x -> tracks x y.
Proof.
  apply rmatch_rel; [apply tracks_refl | apply tracks_trans |].
  eapply all_classes_impl; [|apply (all_classes_True r)].
  intros p _ x' c s Hx _. by exists [c].
Qed.

Lemma rmatch_le r x y : y ∈ rmatch r x -> length (rest y) <= length (rest x).
Proof.
  intros H. eapply reads_length, (rmatch_reads (fun _ => True)); eauto.
  apply all_classes_True.
Qed.

(** A consuming pattern makes progress in front of non-empty text. *)
Lemma rmatch_consuming r :
  consuming r = true ->
  forall x y, rest x <> [] -> y ∈ rmatch r x -> length (rest y) < length (rest x).
Proof.
  induction r as [|p|a IHa b IHb|a IHa b IHb|a IHa|a IHa| | |]; simpl; try done;
    intros Hc x y Hx.
  - destruct (rest x) as [|c s] eqn:E; [done|].
    destruct (p c); [|by intros ?%elem_of_nil].
    intros ->%list_elem_of_singleton. simpl. lia.
  - rewrite list_elem_of_bind. intros (z & Hy & Hz).
    pose proof (rmatch_le _ _ _ Hz) as Hz'. pose proof (rmatch_le _ _ _ Hy) as Hy'.
    apply orb_true_iff in Hc as [Ha | Hb].
    + specialize (IHa Ha x z Hx Hz). lia.
    + destruct (rest z) as [|c s] eqn:E.
      * simpl in *. destruct (rest x); [done | simpl; lia].
      * assert (rest z <> []) as Hz'' by (rewrite E; done).
        specialize (IHb Hb z y Hz'' Hy). rewrite E in *. lia.
  - apply andb_true_iff in Hc as [Ha Hb]. rewrite elem_of_app. intros [?|?]; eauto.
  - destruct (rest x); [done | by intros ?%elem_of_nil].
Qed.

Lemma exec_prefix r input m : exec r input = Some m -> exists k, m = take k input.
Proof.
  unfold exec. destruct (rmatch _ _); [done|]. intros [= <-]. eauto.
Qed.

Lemma exec_consuming r input m :
  consuming r = true -> input <> [] -> exec r input = Some m -> m <> [].
Proof.
  unfold exec. intros Hc Hi. destruct (rmatch r (Pos None input)) as [|y l] eqn:E; [done|].
  intros [= <-].
  assert (length (rest y) < length input) as Hlt.
  { apply (rmatch_consuming r Hc (Pos None input) y); [done|]. rewrite E. left. }
  intros Hnil. apply (f_equal length) in Hnil.
  rewrite length_take in Hnil. simpl in Hnil. lia.
Qed.

(** ** One step of the tokenizer *)

Lemma getTokenOnFirstMatch_Some input ty r tk :
  Tokenizer.getTokenOnFirstMatch input ty r = Some tk ->
  exists m, exec r input = Some m /\ tk = {| type := ty; value := m; key := [] |}.
Proof.
  unfold Tokenizer.getTokenOnFirstMatch. destruct (exec r input); [|done].
  intros [= <-]. eauto.
Qed.

Ltac first_match H :=
  apply getTokenOnFirstMatch_Some in H as (? & ? & ->).

Ltac in_list := repeat first [ by left | right ].

(** Two different types for one token. *)
Ltac types_clash :=
  match goal with
  | H1 : type ?t = ?A, H2 : type ?t = ?B |- _ =>
      exfalso; rewrite H1 in H2; by vm_compute in H2
  end.

Section Lexing.

Import Tokenizer tokenTypes.

Lemma length_toUpperCase s : length (toUpperCase s) = length s.
Proof. apply length_map. Qed.

Lemma getPlaceholderTokenWithKey_Some input r parseKey tk :
  getPlaceholderTokenWithKey input r parseKey = Ret (Some tk) ->
  exists m k, exec r input = Some m /\ parseKey m = Ret k /\
              tk = {| type := PLACEHOLDER; value := m; key := k |}.
Proof.
  unfold getPlaceholderTokenWithKey.
  destruct (getTokenOnFirstMatch _ _ _) as [tok|] eqn:E; [|done].
  first_match E. simpl. destruct (parseKey _) eqn:Ek; simpl; [|done..].
  intros [= <-]. eauto 6.
Qed.

Lemma getPlaceholderToken_lexed T input tk :
  getPlaceholderToken T input = Ret (Some tk) -> lexed T input tk.
Proof.
  unfold getPlaceholderToken, getIdentNamedPlaceholderToken,
    getStringNamedPlaceholderToken, getIndexedPlaceholderToken.
  intros H.
  repeat match type of H with
  | match ?a with _ => _ end = _ => destruct a as [[?|]| |] eqn:? ; try done
  end; simplify_eq;
  match goal with
  | E : getPlaceholderTokenWithKey _ _ _ = Ret (Some _) |- _ =>
      apply getPlaceholderTokenWithKey_Some in E as (m & k & Hm & _ & ->)
  end; (eapply lexed_plain; [|exact Hm]); in_list.
Qed.

Lemma getPlaceholderToken_type T input tk :
  getPlaceholderToken T input = Ret (Some tk) -> type tk = PLACEHOLDER.
Proof.
  unfold getPlaceholderToken, getIdentNamedPlaceholderToken,
    getStringNamedPlaceholderToken, getIndexedPlaceholderToken.
  intros H.
  repeat match type of H with
  | match ?a with _ => _ end = _ => destruct a as [[?|]| |] eqn:? ; try done
  end; simplify_eq;
  match goal with
  | E : getPlaceholderTokenWithKey _ _ _ = Ret (Some _) |- _ =>
      by apply getPlaceholderTokenWithKey_Some in E as (m & k & Hm & _ & ->)
  end.
Qed.

Lemma getReservedWordToken_lexed T input prev tk :
  getReservedWordToken T input prev = Some tk -> lexed T input tk.
Proof.
  unfold getReservedWordToken, getToplevelReservedToken, getNewlineReservedToken,
    getPlainReservedToken.
  destruct (afterDot prev); [done|].
  destruct (getTokenOnFirstMatch _ RESERVED_TOPLEVEL _) eqn:E1;
    [|destruct (getTokenOnFirstMatch _ RESERVED_NEWLINE _) eqn:E2;
      [|destruct (getTokenOnFirstMatch _ RESERVED _) eqn:E3; [|done]]];
    simpl; intros [= <-];
    match goal with E : getTokenOnFirstMatch _ _ _ = Some _ |- _ => first_match E end;
    simpl; (eapply lexed_upper; [|eassumption]); in_list.
Qed.

Lemma getNextToken_lexed T input prev tk :
  getNextToken T input prev = Ret (Some tk) -> lexed T input tk.
Proof.
  unfold getNextToken. intros H.
  destruct (getWhitespaceToken T input) eqn:E1.
  { simplify_eq. first_match E1. eapply lexed_plain; [|eassumption]. in_list. }
  destruct (getCommentToken T input) eqn:E2.
  { simplify_eq. unfold getCommentToken in E2.
    destruct (getLineCommentToken T input) eqn:E2'; simplify_eq.
    - first_match E2'. eapply lexed_plain; [|eassumption]. in_list.
    - first_match E2. eapply lexed_plain; [|eassumption]. in_list. }
  destruct (getStringToken T input) eqn:E3.
  { simplify_eq. first_match E3. eapply lexed_plain; [|eassumption]. in_list. }
  destruct (getOpenParenToken T input) eqn:E4.
  { unfold getOpenParenToken in E4.
    destruct (getTokenOnFirstMatch _ _ _) eqn:E; [|done]. first_match E.
    simpl in E4. simplify_eq. eapply lexed_upper; [|eassumption]. in_list. }
  destruct (getCloseParenToken T input) eqn:E5.
  { unfold getCloseParenToken in E5.
    destruct (getTokenOnFirstMatch _ _ _) eqn:E; [|done]. first_match E.
    simpl in E5. simplify_eq. eapply lexed_upper; [|eassumption]. in_list. }
  destruct (getPlaceholderToken T input) as [[?|]| |] eqn:E6; try done.
  { simplify_eq. by apply getPlaceholderToken_lexed. }
  destruct (getNumberToken T input) eqn:E7.
  { simplify_eq. first_match E7. eapply lexed_plain; [|eassumption]. in_list. }
  destruct (getReservedWordToken T input prev) eqn:E8.
  { simplify_eq. by eapply getReservedWordToken_lexed. }
  destruct (getWordToken T input) eqn:E9.
  { simplify_eq. first_match E9. eapply lexed_plain; [|eassumption]. in_list. }
  simplify_eq. first_match H. eapply lexed_plain; [|eassumption]. in_list.
Qed.

Lemma lexed_sliceOf T input tk :
  lexed T input tk -> exists k, sliceOf tk (take k input).
Proof.
  intros [ty r m k Hin Hm | ty r m Hin Hm];
    apply exec_prefix in Hm as [n ->]; exists n; unfold sliceOf; simpl.
  - repeat (apply elem_of_cons in Hin as [[= -> ->] | Hin]; [by vm_compute|]).
    by apply elem_of_nil in Hin.
  - repeat (apply elem_of_cons in Hin as [[= -> ->] | Hin]; [by vm_compute|]).
    by apply elem_of_nil in Hin.
Qed.

Lemma lexed_nonempty T input tk :
  progressive T = true -> input <> [] -> lexed T input tk -> value tk <> [].
Proof.
  unfold progressive, regexes. simpl. intros Hp Hi.
  repeat (apply andb_true_iff in Hp as [? Hp]).
  intros [ty r m k Hin Hm | ty r m Hin Hm]; simpl.
  - repeat (apply elem_of_cons in Hin as [[= -> ->] | Hin];
            [by eapply exec_consuming; [| |exact Hm]|]).
    by apply elem_of_nil in Hin.
  - assert (m <> []) as Hne.
    { repeat (apply elem_of_cons in Hin as [[= -> ->] | Hin];
              [by eapply exec_consuming; [| |exact Hm]|]).
      by apply elem_of_nil in Hin. }
    by destruct m.
Qed.

End Lexing.

(** ** The loop of [tokenize] *)

Section Tokenize.

Import Tokenizer tokenTypes.

Lemma iter_greedy_nonempty step n x : iter_greedy step n x <> [].
Proof. destruct n; simpl; [done|]. by destruct (_ ≫= _). Qed.

Lemma rmatch_alts_last l r x y :
  y ∈ rmatch r x -> y ∈ rmatch (alts (l ++ [r])) x.
Proof.
  intros Hy. induction l as [|a l IH]; [done|].
  change ((a :: l) ++ [r]) with (a :: (l ++ [r])).
  destruct (l ++ [r]) as [|b l'] eqn:E; [by destruct l|].
  change (alts (a :: b :: l')) with (Alt a (alts (b :: l'))).
  simpl rmatch. apply elem_of_app. by right.
Qed.

Lemma isSpace_or_isDot c : isSpace c = false -> isDot c = true.
Proof. destruct c as [[] [] [] [] [] [] [] []]; by vm_compute. Qed.

(** The whitespace pattern or the last alternative of the operator pattern
    matches in front of any non-empty text. *)
Lemma fallback_matches cfg c s :
  let T := constructor cfg in
  exec (WHITESPACE_REGEX T) (c :: s) <> None \/ exec (OPERATOR_REGEX T) (c :: s) <> None.
Proof.
  simpl. unfold exec. destruct (isSpace c) eqn:Hc; [left | right].
  - unfold plus. simpl. rewrite Hc. simpl.
    pose proof (iter_greedy_nonempty (rmatch (Cls isSpace)) (length s) (Pos (Some c) s)).
    destruct (iter_greedy _ _ _) as [|y l] eqn:E; [done|]. simpl. done.
  - assert (Pos (Some c) s ∈
              rmatch (alts (map lit operators ++ [Cls isDot])) (Pos None (c :: s))) as Hin.
    { apply rmatch_alts_last. simpl. rewrite (isSpace_or_isDot c Hc). left. }
    destruct (rmatch _ _); [by apply elem_of_nil in Hin | done].
Qed.

Lemma getNextToken_never_undefined cfg input prev :
  input <> [] -> getNextToken (constructor cfg) input prev <> Ret None.
Proof.
  destruct input as [|c s]; [done|]. intros _.
  pose proof (fallback_matches cfg c s) as Hfb. simpl in Hfb.
  unfold getNextToken.
  destruct (getWhitespaceToken _ _) eqn:E1; [done|].
  destruct Hfb as [Hws | Hop].
  { unfold getWhitespaceToken, getTokenOnFirstMatch in E1. simpl in E1.
    by destruct (exec _ _). }
  destruct (getCommentToken _ _); [done|].
  destruct (getStringToken _ _); [done|].
  destruct (getOpenParenToken _ _); [done|].
  destruct (getCloseParenToken _ _); [done|].
  destruct (getPlaceholderToken _ _) as [[?|]| |]; try done.
  destruct (getNumberToken _ _); [done|].
  destruct (getReservedWordToken _ _ _); [done|].
  destruct (getWordToken _ _); [done|].
  unfold getOperatorToken, getTokenOnFirstMatch. simpl.
  by destruct (exec _ _).
Qed.

Lemma take_drop_length_take {A} k (l : list A) :
  take k l ++ drop (length (take k l)) l = l.
Proof.
  rewrite length_take. destruct (decide (k <= length l)).
  - rewrite Nat.min_l by done. apply take_drop.
  - rewrite Nat.min_r by lia. rewrite take_ge, drop_all by lia. apply app_nil_r.
Qed.

Lemma sliceOf_length tk sl : sliceOf tk sl -> length (value tk) = length sl.
Proof.
  unfold sliceOf. intros ->. destruct (canonical _); [apply length_toUpperCase | done].
Qed.

Lemma getEscapedPlaceholderKey_answers k q : getEscapedPlaceholderKey k q <> OutOfFuel.
Proof.
  unfold getEscapedPlaceholderKey, escapedQuoteRegex.
  destruct q as [c|]; [|done]. by repeat case_match.
Qed.

Lemma getPlaceholderTokenWithKey_answers input r parseKey :
  (forall v, parseKey v <> OutOfFuel) ->
  getPlaceholderTokenWithKey input r parseKey <> OutOfFuel.
Proof.
  intros Hk. unfold getPlaceholderTokenWithKey.
  destruct (getTokenOnFirstMatch _ _ _) as [tk|]; [|done].
  specialize (Hk (value tk)). by destruct (parseKey _).
Qed.

Lemma getPlaceholderToken_answers T input : getPlaceholderToken T input <> OutOfFuel.
Proof.
  unfold getPlaceholderToken.
  pose proof (getPlaceholderTokenWithKey_answers input (IDENT_NAMED_PLACEHOLDER_REGEX T)
                (fun v => Ret (slice_from 1 v))) as H1.
  pose proof (getPlaceholderTokenWithKey_answers input (STRING_NAMED_PLACEHOLDER_REGEX T)
                (fun v => getEscapedPlaceholderKey (slice_2_to_last v) (last v))) as H2.
  pose proof (getPlaceholderTokenWithKey_answers input (INDEXED_PLACEHOLDER_REGEX T)
                (fun v => Ret (slice_from 1 v))) as H3.
  unfold getIdentNamedPlaceholderToken, getStringNamedPlaceholderToken,
    getIndexedPlaceholderToken.
  destruct (getPlaceholderTokenWithKey _ (IDENT_NAMED_PLACEHOLDER_REGEX T) _)
    as [[?|]| |]; try done; [|by apply H1].
  destruct (getPlaceholderTokenWithKey _ (STRING_NAMED_PLACEHOLDER_REGEX T) _)
    as [[?|]| |]; try done; [|by apply H2; intros; apply getEscapedPlaceholderKey_answers].
  by apply H3.
Qed.

Lemma getNextToken_answers T input prev : getNextToken T input prev <> OutOfFuel.
Proof.
  unfold getNextToken. pose proof (getPlaceholderToken_answers T input).
  destruct (getWhitespaceToken _ _); [done|].
  destruct (getCommentToken _ _); [done|].
  destruct (getStringToken _ _); [done|].
  destruct (getOpenParenToken _ _); [done|].
  destruct (getCloseParenToken _ _); [done|].
  destruct (getPlaceholderToken _ _) as [[?|]| |]; try done.
  destruct (getNumberToken _ _); [done|].
  destruct (getReservedWordToken _ _ _); [done|].
  destruct (getWordToken _ _); [done|].
  by destruct (getOperatorToken _ _).
Qed.

Lemma tokenize_loop_step T fuel input token tokens :
  input <> [] ->
  tokenize_loop T (S fuel) input token tokens =
  let* tk := getNextToken T input token in
  match tk with
  | Some tk =>
      tokenize_loop T fuel (substring (length (value tk)) input) (Some tk) (tokens ++ [tk])
  | None => tokenize_loop T fuel input None tokens
  end.
Proof. by destruct input. Qed.


(** Whatever the loop returns is the old tokens followed by tokens that cut
    the input into consecutive pieces. *)
Lemma tokenize_loop_slices T fuel input token tokens toks :
  tokenize_loop T fuel input token tokens = Ret toks ->
  exists new slices,
    toks = tokens ++ new /\ concat slices = input /\ Forall2 sliceOf new slices.
Proof.
  revert input token tokens.
  induction fuel as [|fuel IH]; intros input token tokens.
  { destruct input; simpl; [|done]. intros [= <-].
    exists [], []. by rewrite app_nil_r. }
  destruct (decide (input = [])) as [->|Hne].
  { simpl. intros [= <-]. exists [], []. by rewrite app_nil_r. }
  rewrite tokenize_loop_step by done.
  destruct (getNextToken T input token) as [[tk|]|e|] eqn:E; simpl; try done.
  - intros (new & slices & -> & Hc & Hs)%IH.
    apply getNextToken_lexed, lexed_sliceOf in E as [k Hk].
    exists (tk :: new), (take k input :: slices). split; [by rewrite <- app_assoc|].
    split; [|by constructor].
    simpl. rewrite Hc. unfold substring.
    rewrite (sliceOf_length _ _ Hk). apply take_drop_length_take.
  - apply IH.
Qed.

Lemma toUpperCase_idemp s : toUpperCase (toUpperCase s) = toUpperCase s.
Proof.
  unfold toUpperCase. rewrite map_map. apply map_ext.
  intros c. destruct c as [[] [] [] [] [] [] [] []]; by vm_compute.
Qed.

Lemma toUpperCase_app a b : toUpperCase (a ++ b) = toUpperCase a ++ toUpperCase b.
Proof. apply map_app. Qed.


End Tokenize.

(** ** Configurations whose patterns consume *)

Section WellFormed.

Import Tokenizer.

Lemma consuming_alts l :
  l <> [] -> Forall (fun r => consuming r = true) l -> consuming (alts l) = true.
Proof.
  intros Hne Hall. induction Hall as [|a l Ha Hall IH]; [done|].
  destruct l as [|b l]; [done|].
  change (consuming (alts (a :: b :: l)))
    with (consuming a && consuming (alts (b :: l))).
  rewrite Ha. by rewrite IH.
Qed.

Lemma consuming_seqs l :
  Exists (fun r => consuming r = true) l -> consuming (seqs l) = true.
Proof.
  induction l as [|a l IH]; [by intros ?%Exists_nil|].
  intros [Ha|Hl]%Exists_cons.
  - destruct l as [|b l]; [done|].
    change (consuming (seqs (a :: b :: l)))
      with (consuming a || consuming (seqs (b :: l))). by rewrite Ha.
  - destruct l as [|b l]; [by apply Exists_nil in Hl|].
    change (consuming (seqs (a :: b :: l)))
      with (consuming a || consuming (seqs (b :: l))).
    rewrite (IH Hl). apply orb_true_r.
Qed.

Lemma consuming_lit s : s <> [] -> consuming (lit s) = true.
Proof. destruct s; [done|]. intros _. apply consuming_seqs. by left. Qed.

Lemma consuming_lit_i s : s <> [] -> consuming (lit_i s) = true.
Proof. destruct s; [done|]. intros _. apply consuming_seqs. by left. Qed.

Lemma consuming_reservedWordPattern w :
  w <> [] -> consuming (reservedWordPattern w) = true.
Proof.
  destruct w as [|c w]; [done|]. intros _. apply consuming_seqs. left.
  by destruct (isChar " " c).
Qed.

Lemma consuming_escapeParen p : p <> [] -> consuming (escapeParen p) = true.
Proof.
  intros Hp. unfold escapeParen. case_bool_decide.
  - by apply consuming_lit_i.
  - apply consuming_seqs. right. left. by apply consuming_lit_i.
Qed.

Lemma consuming_patterns t r : patterns t = Some r -> consuming r = true.
Proof. unfold patterns. repeat case_bool_decide; by intros [= <-]. Qed.

Lemma nonEmptyEntries_alts (f : str -> regex) l :
  (forall s, s <> [] -> consuming (f s) = true) ->
  nonEmptyEntries l = true -> consuming (alts (map f l)) = true.
Proof.
  intros Hf Hl. apply consuming_alts.
  - by destruct l.
  - destruct l as [|a l]; [done|]. unfold nonEmptyEntries in Hl.
    rewrite forallb_forall in Hl.
    apply Forall_forall. intros r (s & <- & Hs)%list_elem_of_In%in_map_iff.
    apply Hf. specialize (Hl s Hs). by destruct s.
Qed.

Lemma knownStringTypes_consuming l :
  knownStringTypes l = true -> consuming (createStringPattern l) = true.
Proof.
  intros Hl. unfold createStringPattern. apply consuming_alts.
  - by destruct l.
  - destruct l as [|a l]; [done|]. unfold knownStringTypes in Hl.
    rewrite forallb_forall in Hl.
    apply Forall_forall. intros r (t & <- & Ht)%list_elem_of_In%in_map_iff.
    specialize (Hl t Ht). destruct (patterns t) as [r|] eqn:E; [|done].
    simpl. by eapply consuming_patterns.
Qed.

(** No pattern built from a well-formed configuration matches the empty
    text in front of non-empty text. *)
Lemma wellFormed_progressive cfg :
  wellFormed cfg = true -> progressive (constructor cfg) = true.
Proof.
  unfold wellFormed. intros H.
  repeat (apply andb_true_iff in H as [H ?]).
  unfold progressive, regexes, constructor. cbn [forallb
    WHITESPACE_REGEX NUMBER_REGEX OPERATOR_REGEX BLOCK_COMMENT_REGEX LINE_COMMENT_REGEX
    RESERVED_TOPLEVEL_REGEX RESERVED_NEWLINE_REGEX RESERVED_PLAIN_REGEX WORD_REGEX
    STRING_REGEX OPEN_PAREN_REGEX CLOSE_PAREN_REGEX INDEXED_PLACEHOLDER_REGEX
    IDENT_NAMED_PLACEHOLDER_REGEX STRING_NAMED_PLACEHOLDER_REGEX].
  unfold createLineCommentRegex, createReservedWordRegex, createStringRegex,
    createParenRegex, createPlaceholderRegex.
  cbn [consuming].
  rewrite !(nonEmptyEntries_alts reservedWordPattern) by (done || apply consuming_reservedWordPattern).
  rewrite !(nonEmptyEntries_alts escapeParen) by (done || apply consuming_escapeParen).
  rewrite (nonEmptyEntries_alts lit (indexedPlaceholderTypes cfg))
    by (done || apply consuming_lit).
  rewrite !knownStringTypes_consuming by done.
  rewrite !orb_true_r. done.
Qed.

Example sampleConfig_wellFormed : wellFormed sampleConfig = true.
Proof. by vm_compute. Qed.

Example namedOnlyConfig_not_wellFormed :
  wellFormed namedOnlyConfig = false /\ progressive (constructor namedOnlyConfig) = false.
Proof. split; by vm_compute. Qed.

End WellFormed.

(** ** Where a quoted text ends, and when the tokenizer throws *)

Section Closing.

Import Tokenizer.

Lemma closes_chr c : c ∈ closers -> closes (chr c).
Proof.
  intros Hc x y. simpl. destruct (rest x) as [|d s]; [by intros ?%elem_of_nil|].
  unfold isChar. case_bool_decide as Hd; [|by intros ?%elem_of_nil].
  intros ->%list_elem_of_singleton. right. exists d. by rewrite Hd.
Qed.

Lemma closes_Eoi : closes Eoi.
Proof.
  intros x y. simpl. destruct (rest x) eqn:E; [|by intros ?%elem_of_nil].
  intros ->%list_elem_of_singleton. by left.
Qed.

Lemma closes_Alt a b : closes a -> closes b -> closes (Alt a b).
Proof. intros Ha Hb x y. simpl. rewrite elem_of_app. intros [?|?]; eauto. Qed.

Lemma closes_Seq a b : closes b -> closes (Seq a b).
Proof.
  intros Hb x y. simpl. rewrite list_elem_of_bind. intros (z & Hy & _). eauto.
Qed.

Lemma closes_seqs l b : closes b -> closes (seqs (l ++ [b])).
Proof.
  intros Hb. induction l as [|a l IH]; [done|].
  change ((a :: l) ++ [b]) with (a :: (l ++ [b])).
  destruct (l ++ [b]) as [|a' l'] eqn:E; [by destruct l|].
  change (seqs (a :: a' :: l')) with (Seq a (seqs (a' :: l'))).
  by apply closes_Seq.
Qed.

Lemma iter_greedy_closing step n x y :
  (forall x y, y ∈ step x -> closing y) ->
  y ∈ iter_greedy step n x -> y = x \/ closing y.
Proof.
  intros Hstep. revert x. induction n as [|n IH]; intros x; simpl.
  - intros ->%list_elem_of_singleton. by left.
  - rewrite elem_of_app, list_elem_of_bind, list_elem_of_singleton.
    intros [(z & Hy & Hz) | ->]; [|by left].
    apply list_elem_of_filter in Hz as [_ Hz].
    destruct (IH _ Hy) as [-> | ?]; right; eauto.
Qed.

Lemma closes_Seq_Star a b : closes a -> closes b -> closes (Seq a (Star b)).
Proof.
  intros Ha Hb x y. simpl. rewrite list_elem_of_bind. intros (z & Hy & Hz).
  apply (iter_greedy_closing _ _ _ _ Hb) in Hy as [-> | ?]; eauto.
Qed.

Lemma closes_plus a : closes a -> closes (plus a).
Proof. intros Ha. by apply closes_Seq_Star. Qed.

Lemma closes_alts l : l <> [] -> Forall closes l -> closes (alts l).
Proof.
  intros Hne Hall. induction Hall as [|a l Ha Hall IH]; [done|].
  destruct l as [|b l]; [done|].
  change (alts (a :: b :: l)) with (Alt a (alts (b :: l))).
  apply closes_Alt; [done | by apply IH].
Qed.

Lemma closes_quoted open excluded close :
  close ∈ closers -> closes (quoted open excluded close).
Proof.
  intros Hc. unfold quoted. apply closes_plus.
  match goal with
  | |- closes (seqs (open ++ [?a; ?b; ?c])) =>
      change (open ++ [a; b; c]) with (open ++ ([a; b] ++ [c]))
  end.
  rewrite app_assoc. apply closes_seqs.
  apply closes_Alt; [by apply closes_chr | apply closes_Eoi].
Qed.

Lemma closes_patterns t r : patterns t = Some r -> closes r.
Proof.
  unfold patterns. repeat case_bool_decide; intros [= <-].
  - apply closes_plus. apply (closes_seqs [_; _]).
    apply closes_Alt; [apply closes_Eoi | apply closes_chr; unfold closers; in_list].
  - apply closes_Seq_Star.
    + apply (closes_seqs [_; _]).
      apply closes_Alt; [apply closes_Eoi | apply closes_chr; unfold closers; in_list].
    + apply (closes_seqs [_; _]).
      apply closes_Alt; [apply closes_Eoi | apply closes_chr; unfold closers; in_list].
  - apply closes_quoted. unfold closers. in_list.
  - apply closes_quoted. unfold closers. in_list.
  - apply closes_quoted. unfold closers. in_list.
Qed.

Lemma consuming_alts_inv l :
  consuming (alts l) = true -> l <> [] /\ Forall (fun r => consuming r = true) l.
Proof.
  induction l as [|a l IH]; [done|]. intros H. split; [done|].
  destruct l as [|b l]; [by constructor|].
  change (consuming (alts (a :: b :: l)))
    with (consuming a && consuming (alts (b :: l))) in H.
  apply andb_true_iff in H as [Ha Hl]. constructor; [done | by apply IH].
Qed.

(** In a progressive tokenizer every string type is in the table, and the
    pattern of a quoted placeholder ends where a quoted text ends. *)
Lemma progressive_closes cfg :
  progressive (constructor cfg) = true ->
  closes (STRING_NAMED_PLACEHOLDER_REGEX (constructor cfg)).
Proof.
  intros HT. unfold progressive, regexes in HT. simpl in HT.
  repeat (apply andb_true_iff in HT as [? HT]).
  match goal with H : consuming (createStringRegex _) = true |- _ => rename H into Hs end.
  unfold createStringRegex, createStringPattern in Hs.
  apply consuming_alts_inv in Hs as [Hne Hall].
  simpl. unfold createPlaceholderRegex. apply closes_Seq.
  unfold createStringPattern. apply closes_alts; [done|].
  rewrite Forall_forall in Hall. apply Forall_forall. intros r Hr.
  specialize (Hall r Hr).
  apply list_elem_of_In, in_map_iff in Hr as (t & <- & _).
  destruct (patterns t) as [r|] eqn:E; [|done]. by eapply closes_patterns.
Qed.

Lemma take_all_but_rest {A} (p q : list A) :
  take (length (p ++ q) - length q) (p ++ q) = p.
Proof.
  rewrite length_app. replace (length p + length q - length q) with (length p) by lia.
  by rewrite take_app_length.
Qed.

(** The text matched by such a pattern is the whole input or ends in a
    closing character. *)
Lemma exec_closing r input m :
  closes r -> exec r input = Some m ->
  m = input \/ exists c, last m = Some c /\ c ∈ closers.
Proof.
  intros Hr. unfold exec.
  destruct (rmatch r (Pos None input)) as [|y l] eqn:E; [done|]. intros [= <-].
  assert (y ∈ rmatch r (Pos None input)) as Hy by (rewrite E; left).
  destruct (Hr _ _ Hy) as [Hend | (c & Hc & Hin)].
  - left. rewrite Hend. simpl. rewrite Nat.sub_0_r. by rewrite take_ge.
  - right. exists c. split; [|done].
    apply rmatch_tracks in Hy as (p & Hp & Hb). simpl in Hp, Hb.
    rewrite Hp, take_all_but_rest. rewrite Hb in Hc. unfold lastOr in Hc.
    by destruct (last p).
Qed.

Lemma escapedQuoteRegex_throws q e :
  escapedQuoteRegex q = Throw e -> exists c, q = Some c /\ c ∈ unbalancing.
Proof.
  unfold escapedQuoteRegex. destruct q as [c|]; [|done].
  case_bool_decide as Hc; [by eauto|]. by repeat case_match.
Qed.

Lemma closers_balanced c : c ∈ closers -> c ∉ unbalancing.
Proof.
  unfold closers, unbalancing. intros Hc Hu.
  repeat (apply elem_of_cons in Hc as [->|Hc];
          [by repeat (apply elem_of_cons in Hu as [?|Hu]; [done|]);
              apply elem_of_nil in Hu|]).
  by apply elem_of_nil in Hc.
Qed.

Lemma getPlaceholderTokenWithKey_returns input r parseKey :
  (forall m, exec r input = Some m -> exists k, parseKey m = Ret k) ->
  exists tk, getPlaceholderTokenWithKey input r parseKey = Ret tk.
Proof.
  intros Hk. unfold getPlaceholderTokenWithKey.
  destruct (getTokenOnFirstMatch _ _ _) as [tk|] eqn:E; [|by eauto].
  first_match E. cbn [value type]. destruct (Hk _ H) as [k ->]. simpl. eauto.
Qed.

Lemma getEscapedPlaceholderKey_returns cfg input m :
  progressive (constructor cfg) = true -> endsWell input = true ->
  exec (STRING_NAMED_PLACEHOLDER_REGEX (constructor cfg)) input = Some m ->
  exists k, getEscapedPlaceholderKey (slice_2_to_last m) (last m) = Ret k.
Proof.
  intros HT Hend Hm. unfold getEscapedPlaceholderKey.
  destruct (escapedQuoteRegex (last m)) as [r|e|] eqn:Eq; simpl; [by eauto| |].
  - exfalso. apply escapedQuoteRegex_throws in Eq as (c & Hl & Hc).
    apply (exec_closing _ _ _ (progressive_closes cfg HT)) in Hm
      as [-> | (c' & Hl' & Hc')].
    + unfold endsWell in Hend. rewrite Hl in Hend.
      by rewrite bool_decide_eq_true_2 in Hend.
    + rewrite Hl in Hl'. injection Hl' as ->. by apply closers_balanced in Hc'.
  - exfalso. unfold escapedQuoteRegex in Eq. destruct (last m); [|done].
    by repeat case_match.
Qed.

Lemma getPlaceholderToken_returns cfg input :
  progressive (constructor cfg) = true -> endsWell input = true ->
  exists tk, getPlaceholderToken (constructor cfg) input = Ret tk.
Proof.
  intros HT Hend. unfold getPlaceholderToken.
  destruct (getPlaceholderTokenWithKey_returns input
              (IDENT_NAMED_PLACEHOLDER_REGEX (constructor cfg))
              (fun v => Ret (slice_from 1 v))) as [t1 H1]; [by eauto|].
  destruct (getPlaceholderTokenWithKey_returns input
              (STRING_NAMED_PLACEHOLDER_REGEX (constructor cfg))
              (fun v => getEscapedPlaceholderKey (slice_2_to_last v) (last v)))
    as [t2 H2]; [intros m Hm; by eapply getEscapedPlaceholderKey_returns|].
  destruct (getPlaceholderTokenWithKey_returns input
              (INDEXED_PLACEHOLDER_REGEX (constructor cfg))
              (fun v => Ret (slice_from 1 v))) as [t3 H3]; [by eauto|].
  unfold getIdentNamedPlaceholderToken, getStringNamedPlaceholderToken,
    getIndexedPlaceholderToken.
  rewrite H1, H2, H3. destruct t1, t2; eauto.
Qed.

Lemma getNextToken_returns cfg input prev :
  progressive (constructor cfg) = true -> endsWell input = true ->
  exists tk, getNextToken (constructor cfg) input prev = Ret tk.
Proof.
  intros HT Hend. unfold getNextToken.
  destruct (getPlaceholderToken_returns cfg input HT Hend) as [tk ->].
  repeat case_match; eauto.
Qed.

Lemma endsWell_drop n input : endsWell input = true -> endsWell (drop n input) = true.
Proof.
  unfold endsWell. intros H.
  destruct (last (drop n input)) as [c|] eqn:E; [|done].
  apply last_Some in E as [l' El].
  assert (last input = Some c) as Hl.
  { rewrite <- (take_drop n input), El, app_assoc. apply last_snoc. }
  by rewrite Hl in H.
Qed.

(** With a progressive tokenizer and an input that ends well the loop
    returns. *)
Lemma tokenize_loop_returns cfg fuel input token tokens :
  progressive (constructor cfg) = true -> endsWell input = true ->
  length input <= fuel ->
  exists toks, tokenize_loop (constructor cfg) fuel input token tokens = Ret toks.
Proof.
  intros HT. revert input token tokens.
  induction fuel as [|fuel IH]; intros input token tokens Hend Hlen.
  { destruct input; [by eauto | simpl in Hlen; lia]. }
  destruct (decide (input = [])) as [->|Hne]; [by eauto|].
  rewrite tokenize_loop_step by done.
  destruct (getNextToken_returns cfg input token HT Hend) as [[tk|] E]; rewrite E; simpl.
  - apply IH; [by apply endsWell_drop|].
    unfold substring. rewrite length_drop.
    apply getNextToken_lexed in E.
    pose proof (lexed_nonempty _ _ _ HT Hne E) as Hv.
    assert (0 < length (value tk)) by (destruct (value tk); [done | simpl; lia]).
    lia.
  - by apply getNextToken_never_undefined in E.
Qed.

End Closing.

(** ** Claims about [tokenize] *)

Section TokenizeClaims.

Import Tokenizer tokenTypes.




(** The token that [getNextToken] finds in front of [a] when no prefix for
    indexed placeholders is configured: a placeholder with empty text. *)
Lemma namedOnly_empty_placeholder prev :
  getNextToken (constructor namedOnlyConfig) (txt "a") prev
  = Ret (Some (mkToken PLACEHOLDER "" "")).
Proof. by vm_compute. Qed.

Lemma namedOnly_loop_stuck fuel prev tokens :
  tokenize_loop (constructor namedOnlyConfig) fuel (txt "a") prev tokens = OutOfFuel.
Proof.
  revert prev tokens. induction fuel as [|fuel IH]; intros prev tokens; [done|].
  rewrite tokenize_loop_step by done.
  rewrite namedOnly_empty_placeholder. simpl. apply IH.
Qed.

(** C3: with a configuration that leaves [indexedPlaceholderTypes] out, the
    pattern for indexed placeholders matches the empty text; in front of [a]
    [getNextToken] returns a token of length zero, the input is not advanced,
    and the loop of [tokenize] never ends. *)
Theorem C3_tokenize_makes_no_progress :
  exec (INDEXED_PLACEHOLDER_REGEX (constructor namedOnlyConfig)) (txt "a") = Some [] /\
  getNextToken (constructor namedOnlyConfig) (txt "a") None
    = Ret (Some (mkToken PLACEHOLDER "" "")) /\
  forall fuel, tokenize (constructor namedOnlyConfig) fuel (txt "a") = OutOfFuel.
Proof.
  split; [by vm_compute|]. split; [by vm_compute|].
  intros fuel. apply namedOnly_loop_stuck.
Qed.

(** C5 as stated fails: [END] is a reserved word of the sample
    configuration and a bracket as well; after the dot of [x.end] the
    bracket matcher, which comes before the reserved words, takes it. *)
Lemma C5_counterexample :
  txt "END" ∈ reservedWords sampleConfig /\
  tokenize sampleTokenizer 5 (txt "x.end")
  = Ret [mkToken WORD "x" ""; mkToken OPERATOR "." ""; mkToken CLOSE_PAREN "END" ""].
Proof. split; [|by vm_compute]. unfold sampleConfig. simpl. in_list. Qed.

Lemma reserved_token_origin T input prev tk :
  getNextToken T input prev = Ret (Some tk) ->
  type tk ∈ [RESERVED; RESERVED_TOPLEVEL; RESERVED_NEWLINE] ->
  getReservedWordToken T input prev = Some tk.
Proof.
  intros H Hty.
  assert (forall ty, ty ∈ [WHITESPACE; LINE_COMMENT; BLOCK_COMMENT; STRING; OPEN_PAREN;
                           CLOSE_PAREN; PLACEHOLDER; NUMBER; WORD; OPERATOR] ->
                     type tk = ty -> False) as Hno.
  { intros ty Hin Heq. rewrite Heq in Hty.
    repeat (apply elem_of_cons in Hin as [->|Hin];
            [by repeat (apply elem_of_cons in Hty as [?|Hty]; [done|]);
                apply elem_of_nil in Hty|]).
    by apply elem_of_nil in Hin. }
  revert H. unfold getNextToken.
  destruct (getWhitespaceToken T input) eqn:E1.
  { intros [= <-]. first_match E1. exfalso. eapply Hno; [|done]. in_list. }
  destruct (getCommentToken T input) eqn:E2.
  { intros [= <-]. unfold getCommentToken in E2. exfalso.
    destruct (getLineCommentToken T input) eqn:E2'; simplify_eq.
    - first_match E2'. eapply Hno; [|done]. in_list.
    - first_match E2. eapply Hno; [|done]. in_list. }
  destruct (getStringToken T input) eqn:E3.
  { intros [= <-]. first_match E3. exfalso. eapply Hno; [|done]. in_list. }
  destruct (getOpenParenToken T input) eqn:E4.
  { intros [= <-]. unfold getOpenParenToken in E4. exfalso.
    destruct (getTokenOnFirstMatch _ _ _) eqn:E; [|done]. first_match E.
    simpl in E4. simplify_eq. eapply Hno; [|done]. in_list. }
  destruct (getCloseParenToken T input) eqn:E5.
  { intros [= <-]. unfold getCloseParenToken in E5. exfalso.
    destruct (getTokenOnFirstMatch _ _ _) eqn:E; [|done]. first_match E.
    simpl in E5. simplify_eq. eapply Hno; [|done]. in_list. }
  destruct (getPlaceholderToken T input) as [[?|]| |] eqn:E6; try done.
  { intros [= <-]. exfalso. apply getPlaceholderToken_type in E6.
    eapply Hno; [|done]. in_list. }
  destruct (getNumberToken T input) eqn:E7.
  { intros [= <-]. first_match E7. exfalso. eapply Hno; [|done]. in_list. }
  destruct (getReservedWordToken T input prev) eqn:E8; [by intros [= <-]|].
  destruct (getWordToken T input) eqn:E9.
  { intros [= <-]. first_match E9. exfalso. eapply Hno; [|done]. in_list. }
  intros H. simplify_eq. first_match H. exfalso. eapply Hno; [|done]. in_list.
Qed.

(** C5, amended: after a token whose text is a bare dot the reserved-word
    matcher returns nothing, so the next token is never a reserved word; it
    is a bare word whenever the word pattern matches and none of the
    matchers tried earlier (whitespace, comment, string, bracket,
    placeholder, number) does. *)
Theorem C5_dot_rule T input prev :
  value prev = ["."] ->
  getReservedWordToken T input (Some prev) = None /\
  (forall tk, getNextToken T input (Some prev) = Ret (Some tk) ->
     type tk ∉ [RESERVED; RESERVED_TOPLEVEL; RESERVED_NEWLINE]) /\
  (forall w, unclaimed T input -> exec (WORD_REGEX T) input = Some w ->
     getNextToken T input (Some prev)
     = Ret (Some {| type := WORD; value := w; key := [] |})).
Proof.
  intros Hdot.
  assert (getReservedWordToken T input (Some prev) = None) as Hres.
  { unfold getReservedWordToken, afterDot. by rewrite Hdot, bool_decide_eq_true_2. }
  split; [done|]. split.
  - intros tk Htk Hty. pose proof (reserved_token_origin _ _ _ _ Htk Hty) as H.
    by rewrite Hres in H.
  - intros w (H1 & H2 & H3 & H4 & H5 & H6 & H7) Hw.
    unfold getNextToken. rewrite H1, H2, H3, H4, H5, H6, H7, Hres.
    unfold getWordToken, getTokenOnFirstMatch. by rewrite Hw.
Qed.

Lemma C5_witness :
  getReservedWordToken sampleTokenizer (txt "from") (Some (mkToken OPERATOR "." "")) = None /\
  getNextToken sampleTokenizer (txt "from") (Some (mkToken OPERATOR "." ""))
  = Ret (Some (mkToken WORD "from" "")).
Proof.
  destruct (C5_dot_rule sampleTokenizer (txt "from") (mkToken OPERATOR "." "") eq_refl)
    as (H1 & _ & H3).
  split; [exact H1|]. apply H3.
  - repeat split; by vm_compute.
  - by vm_compute.
Defined.

(** The example of the source: in [mytable.from] the word after the dot is
    not a reserved word, while it is one after a space. *)
Example dot_rule_example :
  tokenize sampleTokenizer 12 (txt "mytable.from")
  = Ret [mkToken WORD "mytable" ""; mkToken OPERATOR "." ""; mkToken WORD "from" ""] /\
  tokenize sampleTokenizer 12 (txt "mytable from")
  = Ret [mkToken WORD "mytable" ""; mkToken WHITESPACE " " "";
         mkToken RESERVED_TOPLEVEL "FROM" ""].
Proof. split; by vm_compute. Qed.

End TokenizeClaims.

(** ** Placeholder keys *)

Section PlaceholderKeys.

Import Tokenizer tokenTypes.

Lemma rmatch_chr c x y : y ∈ rmatch (chr c) x -> rest x = c :: rest y.
Proof.
  simpl. destruct (rest x) as [|d s]; [by intros ?%elem_of_nil|].
  unfold isChar. case_bool_decide as Hd; [|by intros ?%elem_of_nil].
  intros ->%list_elem_of_singleton. by rewrite Hd.
Qed.


Lemma rmatch_alts l x y :
  y ∈ rmatch (alts l) x -> (l = [] /\ y = x) \/ exists r, r ∈ l /\ y ∈ rmatch r x.
Proof.
  induction l as [|a l IH].
  { intros ->%list_elem_of_singleton. by left. }
  intros Hy. right. revert Hy. destruct l as [|b l].
  { intros Hy. exists a. split; [left | done]. }
  change (alts (a :: b :: l)) with (Alt a (alts (b :: l))).
  simpl rmatch. rewrite elem_of_app. intros [Hy|Hy].
  - exists a. split; [left | done].
  - destruct (IH Hy) as [[Hnil _] | (r & Hr & Hy')]; [done|].
    exists r. split; [by right | done].
Qed.










End PlaceholderKeys.

(** ** Whitespace *)

Lemma strip_app a b : strip (a ++ b) = strip a ++ strip b.
Proof. apply filter_app. Qed.

Lemma strip_cons_space c s : isSpace c = true -> strip (c :: s) = strip s.
Proof. intros H. unfold strip. rewrite filter_cons_False; [done | by rewrite H]. Qed.

Lemma strip_spaces s : Forall (fun c => isSpace c = true) s -> strip s = [].
Proof.
  induction 1 as [|c s Hc _ IH]; [done|]. by rewrite strip_cons_space.
Qed.

Lemma strip_dropSpaces s : strip (dropSpaces s) = strip s.
Proof.
  induction s as [|c s IH]; [done|]. simpl.
  destruct (isSpace c) eqn:Hc; [|done]. by rewrite strip_cons_space.
Qed.

Lemma strip_trimEnd s : strip (trimEnd s) = strip s.
Proof.
  unfold trimEnd, strip. rewrite filter_reverse.
  fold (strip (dropSpaces (reverse s))). rewrite strip_dropSpaces.
  unfold strip. by rewrite filter_reverse, reverse_involutive.
Qed.

Lemma strip_trim s : strip (trim s) = strip s.
Proof. unfold trim. by rewrite strip_dropSpaces, strip_trimEnd. Qed.

Lemma strip_getIndent I :
  strip (Indentation.indent I) = [] -> strip (Indentation.getIndent I) = [].
Proof.
  intros H. unfold Indentation.getIndent.
  induction (length (Indentation.indentTypes I)) as [|n IH]; [done|].
  simpl. by rewrite strip_app, H, IH.
Qed.

(** Replacing whitespace by whitespace changes whitespace only. *)
Lemma replace_scan_strip r rep n x :
  strip rep = [] ->
  (forall x y, y ∈ rmatch r x -> reads (fun c => isSpace c = true) x y) ->
  strip (replace_scan r rep n x) = strip (rest x).
Proof.
  intros Hrep Hr. revert x. induction n as [|n IH]; intros x; [done|].
  cbn [replace_scan].
  assert (strip match rest x with
                | [] => []
                | c :: s => c :: replace_scan r rep n (Pos (Some c) s)
                end = strip (rest x)) as Hskip.
  { destruct (rest x) as [|c s]; [done|].
    change (c :: replace_scan r rep n (Pos (Some c) s))
      with ([c] ++ replace_scan r rep n (Pos (Some c) s)).
    rewrite strip_app, IH. simpl. by rewrite <- strip_app. }
  destruct (rmatch r x) as [|y l] eqn:E; [done|].
  destruct (shorter x y).
  - rewrite strip_app, Hrep, IH. simpl.
    destruct (Hr x y) as (p & -> & Hp); [rewrite E; left|].
    by rewrite strip_app, (strip_spaces p Hp).
  - by rewrite strip_app, Hrep, Hskip.
Qed.

Lemma strip_equalizeWhitespace s : strip (Formatter.equalizeWhitespace s) = strip s.
Proof.
  unfold Formatter.equalizeWhitespace, replace_g.
  rewrite replace_scan_strip; [done | done |].
  apply rmatch_reads. simpl. auto.
Qed.

Lemma isChar_LF_space c : isChar LF c = true -> isSpace c = true.
Proof. unfold isChar. intros ->%bool_decide_eq_true_1. done. Qed.

Section FormatterWhitespace.

Import Formatter tokenTypes.

Variable F : Formatter.t.
Hypothesis indent_blank : strip (Indentation.indent (indentation F)) = [].

Lemma strip_indent : strip (Indentation.getIndent (indentation F)) = [].
Proof. by apply strip_getIndent. Qed.

Lemma strip_addNewline q : strip (addNewline F q) = strip q.
Proof.
  unfold addNewline. rewrite !strip_app, strip_trimEnd, strip_indent.
  by rewrite app_nil_r.
Qed.

Lemma strip_trimTrailingWhitespace q : strip (trimTrailingWhitespace F q) = strip q.
Proof.
  unfold trimTrailingWhitespace. destruct (hasType _ _).
  - rewrite strip_app, strip_trimEnd. apply app_nil_r.
  - apply strip_trimEnd.
Qed.

Lemma strip_indentComment s : strip (indentComment F s) = strip s.
Proof.
  unfold indentComment, replace_g. rewrite replace_scan_strip; [done | |].
  - change (LF :: ?l) with ([LF] ++ l). by rewrite strip_app, strip_indent.
  - apply rmatch_reads. simpl. apply isChar_LF_space.
Qed.

Lemma strip_formatLineComment tk q :
  strip (formatLineComment F tk q) = strip q ++ strip (value tk).
Proof. unfold formatLineComment. by rewrite strip_addNewline, strip_app. Qed.

Lemma strip_formatBlockComment tk q :
  strip (formatBlockComment F tk q) = strip q ++ strip (value tk).
Proof.
  unfold formatBlockComment.
  by rewrite strip_addNewline, strip_app, strip_addNewline, strip_indentComment.
Qed.

Lemma strip_formatNewlineReservedWord tk q :
  strip (formatNewlineReservedWord F tk q) = strip q ++ strip (value tk).
Proof.
  unfold formatNewlineReservedWord.
  rewrite !strip_app, strip_addNewline, strip_equalizeWhitespace.
  by rewrite app_nil_r.
Qed.

Lemma strip_formatWithSpaces tk q :
  strip (formatWithSpaces tk q) = strip q ++ strip (value tk).
Proof. unfold formatWithSpaces. rewrite !strip_app. by rewrite app_nil_r. Qed.

Lemma strip_formatWithSpaceAfter tk q :
  strip (formatWithSpaceAfter F tk q) = strip q ++ strip (value tk).
Proof.
  unfold formatWithSpaceAfter.
  rewrite !strip_app, strip_trimTrailingWhitespace. by rewrite app_nil_r.
Qed.

Lemma strip_formatWithoutSpaces tk q :
  strip (formatWithoutSpaces F tk q) = strip q ++ strip (value tk).
Proof. unfold formatWithoutSpaces. by rewrite strip_app, strip_trimTrailingWhitespace. Qed.

Lemma strip_formatQuerySeparator tk q :
  strip (formatQuerySeparator F tk q) = strip q ++ strip (value tk).
Proof.
  unfold formatQuerySeparator.
  rewrite !strip_app, strip_trimTrailingWhitespace. by rewrite app_nil_r.
Qed.

Lemma strip_formatComma tk q :
  strip (formatComma F tk q) = strip q ++ strip (value tk).
Proof.
  unfold formatComma.
  assert (strip (trimTrailingWhitespace F q ++ value tk ++ [" "])
          = strip q ++ strip (value tk)) as H.
  { rewrite !strip_app, strip_trimTrailingWhitespace. by rewrite app_nil_r. }
  destruct (InlineBlock.isActive _); [done|].
  destruct (test _ _); [done|]. by rewrite strip_addNewline.
Qed.

End FormatterWhitespace.

(** ** One token of the formatter *)

Section FormatToken.

Import Formatter tokenTypes.

Lemma indent_decreaseTopLevel I :
  Indentation.indent (Indentation.decreaseTopLevel I) = Indentation.indent I.
Proof. unfold Indentation.decreaseTopLevel. by repeat case_match. Qed.

Lemma formatToplevelReservedWord_strip F tk q :
  strip (Indentation.indent (indentation F)) = [] ->
  strip (fst (formatToplevelReservedWord F tk q)) = strip q ++ strip (value tk) /\
  params (snd (formatToplevelReservedWord F tk q)) = params F /\
  Indentation.indent (indentation (snd (formatToplevelReservedWord F tk q)))
  = Indentation.indent (indentation F).
Proof.
  intros Hind. unfold formatToplevelReservedWord. cbn [fst snd].
  split; [|split; [done | apply indent_decreaseTopLevel]].
  rewrite strip_addNewline by (simpl; by rewrite indent_decreaseTopLevel).
  rewrite strip_app, strip_equalizeWhitespace.
  by rewrite strip_addNewline by (simpl; by rewrite indent_decreaseTopLevel).
Qed.

Lemma formatOpeningParentheses_strip F tk q :
  strip (Indentation.indent (indentation F)) = [] ->
  strip (fst (formatOpeningParentheses F tk q)) = strip q ++ strip (value tk) /\
  params (snd (formatOpeningParentheses F tk q)) = params F /\
  Indentation.indent (indentation (snd (formatOpeningParentheses F tk q)))
  = Indentation.indent (indentation F).
Proof.
  intros Hind. unfold formatOpeningParentheses.
  assert (strip ((if hasType (previousToken F 1) WHITESPACE
                     || hasType (previousToken F 1) OPEN_PAREN
                     || hasType (previousToken F 1) LINE_COMMENT
                  then q else trimEnd q) ++ value tk) = strip q ++ strip (value tk)) as H.
  { rewrite strip_app. destruct (_ || _ || _); [done | by rewrite strip_trimEnd]. }
  destruct (InlineBlock.isActive _); cbn [fst snd]; [done|].
  split; [|done]. by rewrite strip_addNewline by done.
Qed.

Lemma formatClosingParentheses_strip F tk q :
  strip (Indentation.indent (indentation F)) = [] ->
  strip (fst (formatClosingParentheses F tk q)) = strip q ++ strip (value tk) /\
  params (snd (formatClosingParentheses F tk q)) = params F /\
  Indentation.indent (indentation (snd (formatClosingParentheses F tk q)))
  = Indentation.indent (indentation F).
Proof.
  intros Hind. unfold formatClosingParentheses.
  destruct (InlineBlock.isActive _); cbn [fst snd].
  - split; [|done]. by rewrite strip_formatWithSpaceAfter by done.
  - split; [|done]. rewrite strip_formatWithSpaces. by rewrite strip_addNewline by done.
Qed.

Lemma formatPlaceholder_strip F tk q :
  strip (fst (formatPlaceholder F tk q))
  = strip q ++ strip (toText (fst (Params.get (params F) tk))) /\
  params (snd (formatPlaceholder F tk q)) = snd (Params.get (params F) tk) /\
  Indentation.indent (indentation (snd (formatPlaceholder F tk q)))
  = Indentation.indent (indentation F).
Proof.
  unfold formatPlaceholder. destruct (Params.get _ _) as [v P]. cbn [fst snd].
  split; [|done]. rewrite !strip_app. by rewrite app_nil_r.
Qed.

(** The formatter adds to its output the printed text of the token, up to
    whitespace, and leaves the indent unit alone. *)
Lemma formatToken_strip F tok i q :
  strip (Indentation.indent (indentation F)) = [] ->
  strip (fst (formatToken F tok i q)) = strip q ++ strip (fst (printed (params F) tok)) /\
  params (snd (formatToken F tok i q)) = snd (printed (params F) tok) /\
  Indentation.indent (indentation (snd (formatToken F tok i q)))
  = Indentation.indent (indentation F).
Proof.
  intros Hind.
  assert (strip (Indentation.indent (indentation (set_index F i))) = []) as Hind' by done.
  unfold formatToken, printed.
  repeat case_bool_decide; try types_clash.
  all: try (cbn [fst snd]; split; [|done];
            first [ by rewrite app_nil_r
                  | by apply strip_formatLineComment
                  | by apply strip_formatBlockComment
                  | by apply strip_formatNewlineReservedWord
                  | by apply strip_formatWithSpaces
                  | by apply strip_formatComma
                  | by apply strip_formatWithSpaceAfter
                  | by apply strip_formatWithoutSpaces
                  | by apply strip_formatQuerySeparator ]).
  - destruct (formatToplevelReservedWord _ _ _) as [q' F'] eqn:E. cbn [fst snd].
    pose proof (formatToplevelReservedWord_strip (set_index F i) tok q Hind') as H'.
    rewrite E in H'. cbn [fst snd] in H'. destruct H' as (Hq & HP & HI).
    split; [exact Hq | split; [exact HP | exact HI]].
  - by apply (formatOpeningParentheses_strip (set_index F i)).
  - by apply (formatClosingParentheses_strip (set_index F i)).
  - pose proof (formatPlaceholder_strip (set_index F i) tok q) as H'.
    change (params (set_index F i)) with (params F) in H'.
    destruct (Params.get (params F) tok) as [v P] eqn:E. apply H'.
Qed.

Lemma forEach_strip l i F q :
  strip (Indentation.indent (indentation F)) = [] ->
  strip (fst (forEach l i F q))
  = strip q ++ concat (map strip (printedTexts (params F) l)).
Proof.
  revert i F q. induction l as [|tk l IH]; intros i F q Hind.
  { simpl. by rewrite app_nil_r. }
  simpl. destruct (formatToken_strip F tk i q Hind) as (Hq & HP & HI).
  destruct (formatToken F tk i q) as [q' F'] eqn:E. cbn [fst snd] in *.
  rewrite IH by (by rewrite HI). rewrite Hq, HP.
  destruct (printed (params F) tk) as [s P']. simpl.
  by rewrite <- app_assoc.
Qed.

End FormatToken.

(** ** What a call of [format] reads and what it leaves *)

Section FormatState.

Import Formatter tokenTypes.

Lemma memory_formatToplevelReservedWord F tk q :
  previousReservedWord (snd (formatToplevelReservedWord F tk q)) = previousReservedWord F.
Proof. done. Qed.

Lemma memory_formatOpeningParentheses F tk q :
  previousReservedWord (snd (formatOpeningParentheses F tk q)) = previousReservedWord F.
Proof. unfold formatOpeningParentheses. by destruct (InlineBlock.isActive _). Qed.

Lemma memory_formatClosingParentheses F tk q :
  previousReservedWord (snd (formatClosingParentheses F tk q)) = previousReservedWord F.
Proof. unfold formatClosingParentheses. by destruct (InlineBlock.isActive _). Qed.

Lemma memory_formatPlaceholder F tk q :
  previousReservedWord (snd (formatPlaceholder F tk q)) = previousReservedWord F.
Proof. unfold formatPlaceholder. by destruct (Params.get _ _). Qed.

(** The formatter remembers a token exactly when its type is one of the
    three reserved types. *)
Lemma formatToken_memory F tok i q :
  previousReservedWord (snd (formatToken F tok i q))
  = if isReservedType (type tok) then tok else previousReservedWord F.
Proof.
  unfold isReservedType.
  destruct (decide (type tok ∈ [RESERVED_TOPLEVEL; RESERVED_NEWLINE; RESERVED]))
    as [Hres|Hres];
    [rewrite (bool_decide_eq_true_2 _ Hres) | rewrite (bool_decide_eq_false_2 _ Hres)];
    unfold formatToken.
  - apply elem_of_cons in Hres as [Hres|Hres];
      [|apply elem_of_cons in Hres as [Hres|Hres];
        [|apply elem_of_cons in Hres as [Hres|Hres];
          [|by apply elem_of_nil in Hres]]];
      repeat case_bool_decide; try types_clash; done.
  - assert (type tok <> RESERVED_TOPLEVEL /\ type tok <> RESERVED_NEWLINE /\
            type tok <> RESERVED) as (H1 & H2 & H3).
    { repeat split; intros Heq; apply Hres; rewrite Heq; in_list. }
    repeat case_bool_decide; try done.
    + apply (memory_formatOpeningParentheses (set_index F i)).
    + apply (memory_formatClosingParentheses (set_index F i)).
    + apply (memory_formatPlaceholder (set_index F i)).
Qed.

Lemma forEach_memory l i F q :
  previousReservedWord (snd (forEach l i F q)) = lastReserved l (previousReservedWord F).
Proof.
  revert i F q. induction l as [|tk l IH]; intros i F q; [done|].
  simpl. pose proof (formatToken_memory F tk i q) as H.
  destruct (formatToken F tk i q) as [q' F']. cbn [snd] in H.
  by rewrite IH, H.
Qed.

(** The configuration record is not read by the formatting of a token. *)
Lemma previousNonWhitespaceFrom_with_cfg c F bound n :
  previousNonWhitespaceFrom (with_cfg c F) bound n = previousNonWhitespaceFrom F bound n.
Proof.
  revert n. induction bound as [|bound IH]; intros n; [done|].
  simpl. rewrite IH. done.
Qed.

Lemma trimTrailingWhitespace_with_cfg c F q :
  trimTrailingWhitespace (with_cfg c F) q = trimTrailingWhitespace F q.
Proof.
  unfold trimTrailingWhitespace, previousNonWhitespaceToken.
  by rewrite previousNonWhitespaceFrom_with_cfg.
Qed.

Lemma formatWithSpaceAfter_with_cfg c F tk q :
  formatWithSpaceAfter (with_cfg c F) tk q = formatWithSpaceAfter F tk q.
Proof. unfold formatWithSpaceAfter. by rewrite trimTrailingWhitespace_with_cfg. Qed.

Lemma formatWithoutSpaces_with_cfg c F tk q :
  formatWithoutSpaces (with_cfg c F) tk q = formatWithoutSpaces F tk q.
Proof. unfold formatWithoutSpaces. by rewrite trimTrailingWhitespace_with_cfg. Qed.

Lemma formatQuerySeparator_with_cfg c F tk q :
  formatQuerySeparator (with_cfg c F) tk q = formatQuerySeparator F tk q.
Proof. unfold formatQuerySeparator. by rewrite trimTrailingWhitespace_with_cfg. Qed.

Lemma formatComma_with_cfg c F tk q :
  formatComma (with_cfg c F) tk q = formatComma F tk q.
Proof. unfold formatComma. by rewrite trimTrailingWhitespace_with_cfg. Qed.

Lemma formatOpeningParentheses_with_cfg c F tk q :
  formatOpeningParentheses (with_cfg c F) tk q
  = (fst (formatOpeningParentheses F tk q),
     with_cfg c (snd (formatOpeningParentheses F tk q))).
Proof.
  unfold formatOpeningParentheses.
  change (inlineBlock (set_inlineBlock (with_cfg c F) ?B)) with B.
  change (inlineBlock (set_inlineBlock F ?B)) with B.
  by destruct (InlineBlock.isActive _).
Qed.

Lemma formatClosingParentheses_with_cfg c F tk q :
  formatClosingParentheses (with_cfg c F) tk q
  = (fst (formatClosingParentheses F tk q),
     with_cfg c (snd (formatClosingParentheses F tk q))).
Proof.
  unfold formatClosingParentheses.
  change (inlineBlock (with_cfg c F)) with (inlineBlock F).
  destruct (InlineBlock.isActive _); [|done].
  change (set_inlineBlock (with_cfg c F) ?B) with (with_cfg c (set_inlineBlock F B)).
  by rewrite formatWithSpaceAfter_with_cfg.
Qed.

Lemma formatPlaceholder_with_cfg c F tk q :
  formatPlaceholder (with_cfg c F) tk q
  = (fst (formatPlaceholder F tk q), with_cfg c (snd (formatPlaceholder F tk q))).
Proof.
  unfold formatPlaceholder.
  change (params (with_cfg c F)) with (params F).
  by destruct (Params.get _ _).
Qed.

Lemma formatToken_with_cfg c F tok i q :
  formatToken (with_cfg c F) tok i q
  = (fst (formatToken F tok i q), with_cfg c (snd (formatToken F tok i q))).
Proof.
  unfold formatToken.
  change (set_index (with_cfg c F) i) with (with_cfg c (set_index F i)).
  repeat case_bool_decide; try done.
  - apply formatOpeningParentheses_with_cfg.
  - apply formatClosingParentheses_with_cfg.
  - apply formatPlaceholder_with_cfg.
  - by rewrite formatComma_with_cfg.
  - by rewrite formatWithSpaceAfter_with_cfg.
  - by rewrite formatWithoutSpaces_with_cfg.
  - by rewrite formatQuerySeparator_with_cfg.
Qed.

Lemma forEach_with_cfg c l i F q :
  forEach l i (with_cfg c F) q
  = (fst (forEach l i F q), with_cfg c (snd (forEach l i F q))).
Proof.
  revert i F q. induction l as [|tk l IH]; intros i F q; [done|].
  simpl. rewrite formatToken_with_cfg.
  destruct (formatToken F tk i q) as [q' F']. cbn [fst snd]. apply IH.
Qed.

(** Nor is the index that an earlier call left. *)
Lemma forEach_set_index l i j F q :
  fst (forEach l i (set_index F j) q) = fst (forEach l i F q) /\
  carried (snd (forEach l i (set_index F j) q)) = carried (snd (forEach l i F q)).
Proof. by destruct l. Qed.

End FormatState.

(** ** The counter of the parameters *)

Section ParamsCounter.

Import Formatter tokenTypes.

Lemma params_formatToplevelReservedWord F tk q :
  params (snd (formatToplevelReservedWord F tk q)) = params F.
Proof. done. Qed.

Lemma params_formatOpeningParentheses F tk q :
  params (snd (formatOpeningParentheses F tk q)) = params F.
Proof. unfold formatOpeningParentheses. by destruct (InlineBlock.isActive _). Qed.

Lemma params_formatClosingParentheses F tk q :
  params (snd (formatClosingParentheses F tk q)) = params F.
Proof. unfold formatClosingParentheses. by destruct (InlineBlock.isActive _). Qed.

(** Only a placeholder token changes the parameters object. *)
Lemma formatToken_params F tok i q :
  params (snd (formatToken F tok i q)) = snd (printed (params F) tok).
Proof.
  unfold formatToken, printed.
  repeat case_bool_decide; try types_clash; try done.
  - apply (params_formatOpeningParentheses (set_index F i)).
  - apply (params_formatClosingParentheses (set_index F i)).
  - unfold formatPlaceholder.
    change (params (set_index F i)) with (params F).
    by destruct (Params.get (params F) tok).
Qed.

Lemma forEach_params l i F q :
  params (snd (forEach l i F q))
  = foldl (fun P tk => snd (printed P tk)) (params F) l.
Proof.
  revert i F q. induction l as [|tk l IH]; intros i F q; [done|].
  simpl. pose proof (formatToken_params F tk i q) as H.
  destruct (formatToken F tk i q) as [q' F']. cbn [snd] in H.
  by rewrite IH, H.
Qed.

Lemma printed_sequence P seq tk :
  Params.params P = Some (Sequence seq) ->
  Params.params (snd (printed P tk)) = Some (Sequence seq) /\
  Params.index (snd (printed P tk))
  = Params.index P + countPlaceholders [tk].
Proof.
  intros HP. unfold printed, countPlaceholders.
  case_bool_decide as Hw.
  - rewrite filter_cons_False, filter_nil by (rewrite Hw; by vm_compute).
    simpl. split; [done | lia].
  - case_bool_decide as Hp.
    + rewrite filter_cons_True, filter_nil by done.
      unfold Params.get. rewrite HP. simpl. split; [done | lia].
    + rewrite filter_cons_False, filter_nil by done. simpl. split; [done | lia].
Qed.

Lemma foldl_printed_sequence l P seq :
  Params.params P = Some (Sequence seq) ->
  Params.index (foldl (fun P tk => snd (printed P tk)) P l)
  = Params.index P + countPlaceholders l.
Proof.
  revert P. induction l as [|tk l IH]; intros P HP.
  { unfold countPlaceholders. simpl. lia. }
  destruct (printed_sequence P seq tk HP) as [HP' Hi].
  simpl. rewrite (IH _ HP'), Hi. unfold countPlaceholders.
  rewrite (filter_cons _ tk l). rewrite (filter_cons _ tk []).
  destruct (decide _); simpl; lia.
Qed.

(** With a sequence of parameters the counter advances by the number of
    placeholder tokens that the formatter passes. *)
Lemma forEach_counter l i F q seq :
  Params.params (params F) = Some (Sequence seq) ->
  Params.index (params (snd (forEach l i F q)))
  = Params.index (params F) + countPlaceholders l.
Proof.
  intros HP. rewrite forEach_params. by eapply foldl_printed_sequence.
Qed.

End ParamsCounter.

(** ** Placeholder parameters *)

Section ParamsClaims.

Import tokenTypes.

(** C7: [Params.get] returns the entry of a mapping that has the key; for a
    sequence it returns the element at the counter and advances the counter
    by one, whatever the token, and over the tokens of a call of [format]
    the counter advances by the number of placeholder tokens; without
    parameters, or when the mapping lacks the key, it returns the text of
    the token.  With the parameters [1], [2] the first placeholder of a
    query prints 1 and the second 2, whatever digits follow the question
    mark. *)
Theorem C7_placeholder_resolution :
  (forall P m token v,
     Params.params P = Some (Mapping m) -> m !! key token = Some v ->
     Params.get P token = (Some v, P)) /\
  (forall P l token,
     Params.params P = Some (Sequence l) ->
     Params.get P token
     = (l !! Params.index P,
        {| Params.params := Params.params P; Params.index := S (Params.index P) |})) /\
  (forall F l seq i q,
     Params.params (Formatter.params F) = Some (Sequence seq) ->
     Params.index (Formatter.params (snd (Formatter.forEach l i F q)))
     = Params.index (Formatter.params F) + countPlaceholders l) /\
  (forall P m token,
     Params.params P = None \/
     (Params.params P = Some (Mapping m) /\ m !! key token = None) ->
     Params.get P token = (Some (value token), P)) /\
  (forall token, Params.get (Params.constructor None) token
                 = (Some (value token), Params.constructor None)) /\
  output (Formatter.format (sampleFormatter (Some (Sequence [txt "1"; txt "2"]))) 40
            (txt "SELECT * FROM t WHERE a = ? AND b = ?"))
  = Ret (lines ["SELECT"; "  *"; "FROM"; "  t"; "WHERE"; "  a = 1"; "  AND b = 2"]%string) /\
  output (Formatter.format (sampleFormatter (Some (Sequence [txt "1"; txt "2"]))) 40
            (txt "a = ?2 AND b = ?1"))
  = Ret (lines ["a = 1"; "AND b = 2"]%string).
Proof.
  refine (conj _ (conj _ (conj _ (conj _ (conj _ (conj _ _)))))).
  - intros P m token v HP Hv. unfold Params.get. by rewrite HP, Hv.
  - intros P l token HP. unfold Params.get. by rewrite HP.
  - intros F l seq i q HP. by eapply forEach_counter.
  - intros P m token [HP | [HP Hv]]; unfold Params.get; rewrite HP; [done|].
    by rewrite Hv.
  - intros token. unfold Params.get. simpl. by rewrite lookup_empty.
  - by vm_compute.
  - by vm_compute.
Qed.

Lemma C7_witness :
  Params.get {| Params.params := Some (Mapping {[ txt "name" := txt "Bob" ]});
                Params.index := 0 |}
    (mkToken PLACEHOLDER "@name" "name")
  = (Some (txt "Bob"),
     {| Params.params := Some (Mapping {[ txt "name" := txt "Bob" ]});
        Params.index := 0 |}) /\
  Params.get {| Params.params := Some (Sequence [txt "1"; txt "2"]); Params.index := 1 |}
    (mkToken PLACEHOLDER "?1" "1")
  = ([txt "1"; txt "2"] !! 1,
     {| Params.params := Some (Sequence [txt "1"; txt "2"]); Params.index := 2 |}) /\
  Params.get {| Params.params := Some (Mapping {[ txt "name" := txt "Bob" ]});
                Params.index := 0 |}
    (mkToken PLACEHOLDER ":id" "id")
  = (Some (txt ":id"),
     {| Params.params := Some (Mapping {[ txt "name" := txt "Bob" ]});
        Params.index := 0 |}).
Proof.
  destruct C7_placeholder_resolution as (H1 & H2 & _ & H3 & _).
  split; [|split].
  - apply (H1 _ {[ txt "name" := txt "Bob" ]}); [done | by vm_compute].
  - exact (H2 {| Params.params := Some (Sequence [txt "1"; txt "2"]); Params.index := 1 |}
              [txt "1"; txt "2"] (mkToken PLACEHOLDER "?1" "1") eq_refl).
  - apply (H3 _ {[ txt "name" := txt "Bob" ]}). right. split; [done | by vm_compute].
Defined.

(** C10: with a sequence of parameters [Params.get] returns the element at
    the counter for every token and never the text of the token; past the
    end of the sequence that element is [undefined], and the formatter
    prints the word [undefined] in place of the placeholder. *)
Theorem C10_sequence_never_falls_back :
  (forall P l token token',
     Params.params P = Some (Sequence l) ->
     Params.get P token = Params.get P token' /\
     fst (Params.get P token) = l !! Params.index P) /\
  (forall P l token,
     Params.params P = Some (Sequence l) -> length l <= Params.index P ->
     fst (Params.get P token) = None) /\
  (forall F l token query,
     Params.params (Formatter.params F) = Some (Sequence l) ->
     length l <= Params.index (Formatter.params F) ->
     fst (Formatter.formatPlaceholder F token query) = query ++ txt "undefined ") /\
  output (Formatter.format (sampleFormatter (Some (Sequence [txt "1"]))) 20
            (txt "a = ? AND b = ?"))
  = Ret (lines ["a = 1"; "AND b = undefined"]%string).
Proof.
  refine (conj _ (conj _ (conj _ _))).
  - intros P l token token' HP. unfold Params.get. by rewrite HP.
  - intros P l token HP Hlen. unfold Params.get. rewrite HP. simpl.
    by apply lookup_ge_None_2.
  - intros F l token query HP Hlen. unfold Formatter.formatPlaceholder, Params.get.
    rewrite HP. simpl. by rewrite (lookup_ge_None_2 l _ Hlen).
  - by vm_compute.
Qed.

Lemma C10_witness :
  fst (Params.get {| Params.params := Some (Sequence [txt "1"]); Params.index := 1 |}
         (mkToken PLACEHOLDER "?" "")) = None.
Proof.
  destruct C10_sequence_never_falls_back as (_ & H2 & _).
  apply (H2 _ [txt "1"]); [done | simpl; lia].
Defined.

End ParamsClaims.

(** ** Claims about the formatter *)

Section FormatterClaims.

Import Formatter tokenTypes.



(** C2 as stated fails: the counter of the parameters is not reset between
    two calls of [format] on one formatter, so the same query returns 1 the
    first time and 2 the second time. *)
Lemma C2_counterexample :
  output (format (sampleFormatter (Some (Sequence [txt "1"; txt "2"]))) 1 (txt "?"))
  = Ret (txt "1") /\
  output (and_then_format
            (format (sampleFormatter (Some (Sequence [txt "1"; txt "2"]))) 1 (txt "?"))
            1 (txt "?"))
  = Ret (txt "2").
Proof. split; by vm_compute. Qed.

(** The memory of the previous reserved word and the indent stack are not
    reset either: the comma of the second call comes after the LIMIT of the
    first. *)
Example format_twice_without_parameters :
  output (format (sampleFormatter None) 9 (txt "a, b limit 1"))
  = Ret (lines ["a,"; "b"; "LIMIT"; "  1"]%string) /\
  output (and_then_format (format (sampleFormatter None) 9 (txt "a, b limit 1"))
            9 (txt "a, b limit 1"))
  = Ret (lines ["a, b"; "LIMIT"; "  1"]%string).
Proof. split; by vm_compute. Qed.

(** A call that can tokenize its query returns the trimmed result of the
    loop over the tokens, started from the formatter as it is. *)
Lemma format_Ret F fuel query toks :
  Tokenizer.tokenize (tokenizer F) fuel query = Ret toks ->
  format F fuel query
  = Ret (trim (fst (forEach toks 0 (set_tokens F toks) [])),
         snd (forEach toks 0 (set_tokens F toks) [])).
Proof.
  intros Htok. unfold format. rewrite Htok. simpl.
  unfold getFormattedQueryFromTokens.
  change (tokens (set_tokens F toks)) with toks.
  by destruct (forEach toks 0 (set_tokens F toks) []).
Qed.

(** The formatting of a token leaves the tokenizer and the token buffer
    alone. *)
Lemma formatToken_frame F tok i q :
  tokenizer (snd (formatToken F tok i q)) = tokenizer F /\
  tokens (snd (formatToken F tok i q)) = tokens F.
Proof.
  unfold formatToken, formatToplevelReservedWord, formatOpeningParentheses,
    formatClosingParentheses, formatPlaceholder.
  repeat case_bool_decide; try done.
  - by destruct (InlineBlock.isActive _).
  - by destruct (InlineBlock.isActive _).
  - by destruct (Params.get _ _).
Qed.

Lemma forEach_frame l i F q :
  tokenizer (snd (forEach l i F q)) = tokenizer F /\
  tokens (snd (forEach l i F q)) = tokens F.
Proof.
  revert i F q. induction l as [|tk l IH]; intros i F q; [done|].
  simpl. destruct (formatToken_frame F tk i q) as [H1 H2].
  destruct (formatToken F tk i q) as [q' F']. cbn [snd] in *.
  destruct (IH (S i) F' q') as [H3 H4]. by rewrite H3, H4.
Qed.

(** Only a toplevel reserved word and a bracket change the indent tracker
    or the inline-block flag. *)
Lemma formatToken_still F tok i q :
  movesIndent tok = false ->
  indentation (snd (formatToken F tok i q)) = indentation F /\
  inlineBlock (snd (formatToken F tok i q)) = inlineBlock F.
Proof.
  intros Hm. apply bool_decide_eq_false_1 in Hm.
  assert (type tok <> RESERVED_TOPLEVEL /\ type tok <> OPEN_PAREN /\
          type tok <> CLOSE_PAREN) as (H1 & H2 & H3).
  { repeat split; intros Heq; apply Hm; rewrite Heq; in_list. }
  unfold formatToken, formatPlaceholder.
  repeat case_bool_decide; try done.
  by destruct (Params.get _ _).
Qed.

Lemma forEach_still l i F q :
  Forall (fun tk => movesIndent tk = false) l ->
  indentation (snd (forEach l i F q)) = indentation F /\
  inlineBlock (snd (forEach l i F q)) = inlineBlock F.
Proof.
  intros Hl. revert i F q. induction Hl as [|tk l Htk _ IH]; intros i F q; [done|].
  simpl. destruct (formatToken_still F tk i q Htk) as [H1 H2].
  destruct (formatToken F tk i q) as [q' F']. cbn [snd] in *.
  destruct (IH (S i) F' q') as [H3 H4]. by rewrite H3, H4.
Qed.

(** The indent unit stays as it is. *)
Lemma forEach_indent l i F q :
  strip (Indentation.indent (indentation F)) = [] ->
  Indentation.indent (indentation (snd (forEach l i F q)))
  = Indentation.indent (indentation F).
Proof.
  revert i F q. induction l as [|tk l IH]; intros i F q Hind; [done|].
  simpl. destruct (formatToken_strip F tk i q Hind) as (_ & _ & HI).
  destruct (formatToken F tk i q) as [q' F']. cbn [snd] in *.
  rewrite IH by (by rewrite HI). done.
Qed.

Lemma lastReserved_app l k d :
  lastReserved (l ++ k) d = lastReserved k (lastReserved l d).
Proof. revert d. induction l as [|tk l IH]; intros d; [done | apply IH]. Qed.

Lemma paramsAfter_app P l k :
  paramsAfter P (l ++ k) = paramsAfter (paramsAfter P l) k.
Proof. apply foldl_app. Qed.

(** What a call leaves, in terms of what it found. *)
Lemma format_leaves F fuel query toks :
  Tokenizer.tokenize (tokenizer F) fuel query = Ret toks ->
  exists out F1,
    format F fuel query = Ret (out, F1) /\
    tokenizer F1 = tokenizer F /\ tokens F1 = toks /\
    previousReservedWord F1 = lastReserved toks (previousReservedWord F) /\
    params F1 = paramsAfter (params F) toks /\
    (forall seq, Params.params (params F) = Some (Sequence seq) ->
       Params.params (params F1) = Some (Sequence seq) /\
       Params.index (params F1) = Params.index (params F) + countPlaceholders toks) /\
    (Forall (fun tk => movesIndent tk = false) toks ->
       indentation F1 = indentation F /\ inlineBlock F1 = inlineBlock F) /\
    (strip (Indentation.indent (indentation F)) = [] ->
       strip (Indentation.indent (indentation F1)) = [] /\
       strip out = concat (map strip (printedTexts (params F) toks))).
Proof.
  intros Htok. eexists _, _. split; [by apply format_Ret|].
  destruct (forEach_frame toks 0 (set_tokens F toks) []) as [H1 H2].
  split; [exact H1|]. split; [exact H2|].
  split; [apply (forEach_memory toks 0 (set_tokens F toks))|].
  split; [apply (forEach_params toks 0 (set_tokens F toks))|].
  split; [|split].
  - intros seq Hseq. split.
    + rewrite (forEach_params toks 0 (set_tokens F toks)).
      change (params (set_tokens F toks)) with (params F).
      clear -Hseq. revert Hseq. generalize (params F).
      induction toks as [|tk l IH]; intros P HP; [done|].
      simpl. apply IH. by apply printed_sequence.
    + by apply (forEach_counter toks 0 (set_tokens F toks) [] seq).
  - apply (forEach_still toks 0 (set_tokens F toks)).
  - intros Hind. split.
    + by rewrite (forEach_indent toks 0 (set_tokens F toks) []).
    + rewrite strip_trim. by rewrite (forEach_strip toks 0 (set_tokens F toks) []).
Qed.

(** C2, amended: the indent tracker, the inline-block flag, the parameters
    with their counter and the remembered reserved word are not set anew by
    a call of [format]; a call sets anew only the token buffer and the
    index.  First, the string a call returns and the state it leaves are
    determined by the query, the tokenizer and those four components as the
    call finds them.  Second, a call whose query can be tokenized returns
    and leaves: the tokenizer it had; the tokens of the query as token
    buffer; as remembered word the last reserved word of the query, and the
    word remembered before the call when the query has none; the parameters
    it found after the placeholders of the query have been looked up in
    turn, so with a sequence of parameters the counter it found advanced by
    the number of placeholders; and, when the query has neither a toplevel
    reserved word nor a bracket, the indent tracker and the inline-block
    flag as it found them.  Third, two calls in succession return, and
    leave the remembered word and the parameters as one call on the tokens
    of the first query followed by those of the second would; with a
    whitespace indent unit, the second call prints its placeholders from
    the parameters as the first call left them.  Fourth, the four
    components are set up by the constructor: an indent tracker and
    parameters made from the configuration, no inline block and an empty
    remembered word. *)
Theorem C2_format_reads_carried_state :
  (forall F F' fuel query,
     tokenizer F = tokenizer F' -> carried F = carried F' ->
     output (format F fuel query) = output (format F' fuel query) /\
     carried_after (format F fuel query) = carried_after (format F' fuel query)) /\
  (forall F fuel query toks,
     Tokenizer.tokenize (tokenizer F) fuel query = Ret toks ->
     exists out F1,
       format F fuel query = Ret (out, F1) /\
       tokenizer F1 = tokenizer F /\ tokens F1 = toks /\
       previousReservedWord F1 = lastReserved toks (previousReservedWord F) /\
       params F1 = paramsAfter (params F) toks /\
       (forall seq, Params.params (params F) = Some (Sequence seq) ->
          Params.params (params F1) = Some (Sequence seq) /\
          Params.index (params F1) = Params.index (params F) + countPlaceholders toks) /\
       (Forall (fun tk => movesIndent tk = false) toks ->
          indentation F1 = indentation F /\ inlineBlock F1 = inlineBlock F)) /\
  (forall F fuel1 query1 toks1 fuel2 query2 toks2,
     Tokenizer.tokenize (tokenizer F) fuel1 query1 = Ret toks1 ->
     Tokenizer.tokenize (tokenizer F) fuel2 query2 = Ret toks2 ->
     exists out F2,
       and_then_format (format F fuel1 query1) fuel2 query2 = Ret (out, F2) /\
       previousReservedWord F2 = lastReserved (toks1 ++ toks2) (previousReservedWord F) /\
       params F2 = paramsAfter (params F) (toks1 ++ toks2) /\
       (strip (Indentation.indent (indentation F)) = [] ->
        strip out
        = concat (map strip (printedTexts (paramsAfter (params F) toks1) toks2)))) /\
  (forall cfg T,
     tokenizer (constructor cfg T) = T /\
     carried (constructor cfg T)
     = (Indentation.constructor (config.indent cfg), InlineBlock.constructor,
        Params.constructor (config.params cfg),
        {| type := []; value := []; key := [] |})).
Proof.
  split; [|split; [|split]]; [| | |done].
  - intros F F' fuel query HT HC. unfold format. rewrite HT.
    destruct (Tokenizer.tokenize _ _ _) as [toks| |]; simpl; [|done..].
    assert (set_tokens F' toks
            = with_cfg (cfg F') (set_index (set_tokens F toks) (index F'))) as ->.
    { destruct F, F'. unfold carried in HC. simpl in *. by simplify_eq. }
    unfold getFormattedQueryFromTokens.
    change (tokens (with_cfg ?c (set_index (set_tokens F toks) ?j))) with toks.
    change (tokens (set_tokens F toks)) with toks.
    rewrite forEach_with_cfg.
    destruct (forEach_set_index toks 0 (index F') (set_tokens F toks) []) as [Hq Hc].
    destruct (forEach toks 0 (set_index _ _) []) as [q1 F1].
    destruct (forEach toks 0 (set_tokens F toks) []) as [q2 F2].
    cbn [fst snd] in *. subst q1. split; [done|]. simpl.
    f_equal. rewrite <- Hc. done.
  - intros F fuel query toks Htok.
    destruct (format_leaves F fuel query toks Htok)
      as (out & F1 & H0 & H1 & H2 & H3 & H4 & H5 & H6 & _).
    exists out, F1. repeat (split; [assumption|]). assumption.
  - intros F fuel1 query1 toks1 fuel2 query2 toks2 Htok1 Htok2.
    destruct (format_leaves F fuel1 query1 toks1 Htok1)
      as (out1 & F1 & H0 & H1 & _ & H3 & H4 & _ & _ & H7).
    rewrite <- H1 in Htok2.
    destruct (format_leaves F1 fuel2 query2 toks2 Htok2)
      as (out2 & F2 & G0 & _ & _ & G3 & G4 & _ & _ & G7).
    exists out2, F2. unfold and_then_format. rewrite H0. simpl.
    split; [exact G0|]. split; [by rewrite G3, H3, lastReserved_app|].
    split; [by rewrite G4, H4, paramsAfter_app|].
    intros Hind. destruct (H7 Hind) as [Hind1 _].
    destruct (G7 Hind1) as [_ Hout]. by rewrite Hout, H4.
Qed.

Lemma C2_witness :
  (output (format (sampleFormatter None) 9 (txt "a, b"))
   = output (format (set_index (set_tokens (sampleFormatter None) limitAsTokens) 7)
               9 (txt "a, b")) /\
   carried_after (format (sampleFormatter None) 9 (txt "a, b"))
   = carried_after (format (set_index (set_tokens (sampleFormatter None) limitAsTokens) 7)
                      9 (txt "a, b"))) /\
  (exists out F1,
     format usedFormatter 3 (txt "?,") = Ret (out, F1) /\
     tokenizer F1 = tokenizer usedFormatter /\
     tokens F1 = [mkToken PLACEHOLDER "?" ""; mkToken OPERATOR "," ""] /\
     previousReservedWord F1
     = lastReserved [mkToken PLACEHOLDER "?" ""; mkToken OPERATOR "," ""]
         (previousReservedWord usedFormatter) /\
     params F1
     = paramsAfter (params usedFormatter)
         [mkToken PLACEHOLDER "?" ""; mkToken OPERATOR "," ""] /\
     (forall seq, Params.params (params usedFormatter) = Some (Sequence seq) ->
        Params.params (params F1) = Some (Sequence seq) /\
        Params.index (params F1)
        = Params.index (params usedFormatter)
          + countPlaceholders [mkToken PLACEHOLDER "?" ""; mkToken OPERATOR "," ""]) /\
     (Forall (fun tk => movesIndent tk = false)
        [mkToken PLACEHOLDER "?" ""; mkToken OPERATOR "," ""] ->
      indentation F1 = indentation usedFormatter /\
      inlineBlock F1 = inlineBlock usedFormatter)) /\
  (exists out F2,
     and_then_format (format usedFormatter 3 (txt "?,")) 2 (txt "?") = Ret (out, F2) /\
     previousReservedWord F2
     = lastReserved ([mkToken PLACEHOLDER "?" ""; mkToken OPERATOR "," ""]
                     ++ [mkToken PLACEHOLDER "?" ""])
         (previousReservedWord usedFormatter) /\
     params F2
     = paramsAfter (params usedFormatter)
         ([mkToken PLACEHOLDER "?" ""; mkToken OPERATOR "," ""]
          ++ [mkToken PLACEHOLDER "?" ""]) /\
     (strip (Indentation.indent (indentation usedFormatter)) = [] ->
      strip out
      = concat (map strip
                  (printedTexts
                     (paramsAfter (params usedFormatter)
                        [mkToken PLACEHOLDER "?" ""; mkToken OPERATOR "," ""])
                     [mkToken PLACEHOLDER "?" ""])))).
Proof.
  destruct C2_format_reads_carried_state as (H1 & H2 & H3 & _).
  split; [|split].
  - apply (H1 (sampleFormatter None)
             (set_index (set_tokens (sampleFormatter None) limitAsTokens) 7));
      reflexivity.
  - apply (H2 usedFormatter 3 (txt "?,")). reflexivity.
  - apply (H3 usedFormatter 3 (txt "?,") _ 2 (txt "?")); reflexivity.
Defined.

(** A call on [usedFormatter] prints the second parameter and leaves the
    counter at 2; the formatter still remembers LIMIT, so the comma stays
    on the line. *)
Example format_used_formatter :
  output (format usedFormatter 3 (txt "?,")) = Ret (txt "2,") /\
  carried_after (format usedFormatter 3 (txt "?,"))
  = Some (indentation usedFormatter, inlineBlock usedFormatter,
          {| Params.params := Some (Sequence [txt "1"; txt "2"; txt "3"]);
             Params.index := 2 |},
          mkToken RESERVED_TOPLEVEL "LIMIT" "").
Proof. split; by vm_compute. Qed.

(** The failing input of C4: a quoted placeholder that runs to the end of
    the input and ends in an opening parenthesis. *)
Lemma unterminated_placeholder_throws prev :
  Tokenizer.getNextToken sampleTokenizer (txt "@'(") prev = Throw SyntaxError.
Proof. by vm_compute. Qed.

(** C4: [format] throws on the input [@'(] (at-sign, quote, parenthesis):
    [getEscapedPlaceholderKey] builds a pattern from the last character of
    the match, here the parenthesis, and [new RegExp] rejects it.  On the
    empty string [format] returns the empty string. *)
Theorem C4_format_throws :
  (forall fuel, format (sampleFormatter None) (S fuel) (txt "@'(") = Throw SyntaxError) /\
  (forall F fuel, output (format F fuel []) = Ret []).
Proof.
  split.
  - intros fuel. unfold format, Tokenizer.tokenize.
    change (tokenizer (sampleFormatter None)) with sampleTokenizer.
    rewrite tokenize_loop_step by done.
    by rewrite unterminated_placeholder_throws.
  - intros F fuel. unfold format, Tokenizer.tokenize. by destruct fuel.
Qed.

(** Outside of that defect [format] returns: whenever no pattern of the
    tokenizer can match the empty text and the query does not end in one of
    the four characters. *)
Lemma format_returns cfg F query :
  tokenizer F = Tokenizer.constructor cfg ->
  progressive (Tokenizer.constructor cfg) = true -> endsWell query = true ->
  exists out, output (format F (length query) query) = Ret out.
Proof.
  intros HF HT Hend. unfold format, Tokenizer.tokenize. rewrite HF.
  destruct (tokenize_loop_returns cfg (length query) query None [] HT Hend (le_n _))
    as [toks ->].
  simpl. destruct (getFormattedQueryFromTokens _). simpl. eauto.
Qed.




(** C8 as stated fails for a placeholder: its text is replaced by the
    parameter. *)
Lemma C8_counterexample :
  Tokenizer.tokenize sampleTokenizer 5 (txt "@name")
    = Ret [mkToken PLACEHOLDER "@name" "name"] /\
  canonical PLACEHOLDER = false /\
  output (format (sampleFormatter (Some (Mapping {[ txt "name" := txt "Bob" ]}))) 5
            (txt "@name"))
  = Ret (txt "Bob").
Proof. repeat (split; [by vm_compute|]). by vm_compute. Qed.

End FormatterClaims.

(** ** Runs of a class and literal texts *)

Section Runs.

Lemma takeWhile_dropWhile p s : takeWhile p s ++ dropWhile p s = s.
Proof. induction s as [|c s IH]; simpl; [done|]. destruct (p c); simpl; congruence. Qed.

Lemma takeWhile_Forall p s : Forall (fun c => p c = true) (takeWhile p s).
Proof.
  induction s as [|c s IH]; simpl; [constructor|].
  destruct (p c) eqn:E; by constructor.
Qed.

Lemma dropWhile_head p s : match dropWhile p s with c :: _ => p c = false | [] => True end.
Proof.
  induction s as [|c s IH]; simpl; [done|]. destruct (p c) eqn:E; [done|]. by simpl.
Qed.

Lemma dropWhile_app p q s :
  Forall (fun c => p c = true) q -> dropWhile p (q ++ s) = dropWhile p s.
Proof. induction 1 as [|c q Hc _ IH]; simpl; [done|]. by rewrite Hc. Qed.

Lemma length_dropWhile p s : length (dropWhile p s) <= length s.
Proof.
  rewrite <- (takeWhile_dropWhile p s) at 2. rewrite length_app. lia.
Qed.

Lemma take_takeWhile p s :
  take (length s - length (dropWhile p s)) s = takeWhile p s.
Proof.
  rewrite <- (takeWhile_dropWhile p s) at 1 3. apply take_all_but_rest.
Qed.

Lemma lastOr_cons b c s : lastOr b (c :: s) = lastOr (Some c) s.
Proof.
  unfold lastOr. destruct s as [|d s]; [done|].
  change (last (c :: d :: s)) with (last (d :: s)).
  by destruct (last (d :: s)) eqn:E; [|apply last_None in E].
Qed.

Lemma rmatch_Seq a b x : rmatch (Seq a b) x = rmatch a x ≫= rmatch b.
Proof. done. Qed.

Lemma rmatch_Alt a b x : rmatch (Alt a b) x = rmatch a x ++ rmatch b x.
Proof. done. Qed.

Lemma rmatch_Cls p b c s :
  rmatch (Cls p) (Pos b (c :: s)) = if p c then [Pos (Some c) s] else [].
Proof. done. Qed.

Lemma bind_one {A B} (f : A -> list B) x : [x] ≫= f = f x.
Proof. simpl. apply app_nil_r. Qed.

(** A greedy repetition of one class tries the longest run first and gives
    back one character at a time. *)
Lemma iter_greedy_class p n b s :
  length s <= n -> iter_greedy (rmatch (Cls p)) n (Pos b s) = greedyClass p b s.
Proof.
  revert b s. induction n as [|n IH]; intros b s Hn.
  { destruct s; [done | simpl in Hn; lia]. }
  destruct s as [|c s]; [done|].
  cbn [iter_greedy greedyClass].
  change (rmatch (Cls p) (Pos b (c :: s)))
    with (if p c then [Pos (Some c) s] else []).
  destruct (p c); [|done].
  rewrite filter_cons_True, filter_nil
    by (unfold shorter; simpl; apply bool_decide_eq_true_2; lia).
  simpl. rewrite app_nil_r, IH by (simpl in Hn; lia). done.
Qed.

Lemma rmatch_Star_class p b s :
  rmatch (Star (Cls p)) (Pos b s) = greedyClass p b s.
Proof. simpl. by apply iter_greedy_class. Qed.

Lemma greedyClass_head p b s :
  exists l, greedyClass p b s
            = Pos (lastOr b (takeWhile p s)) (dropWhile p s) :: l.
Proof.
  revert b. induction s as [|c s IH]; intros b; simpl; [by eexists|].
  destruct (p c); [|by eexists].
  destruct (IH (Some c)) as [l ->]. rewrite lastOr_cons. by eexists.
Qed.

(** [p+] in front of a text takes the longest run of [p]. *)
Lemma exec_plus_class p input :
  exec (plus (Cls p)) input
  = match takeWhile p input with [] => None | m => Some m end.
Proof.
  unfold exec, plus. destruct input as [|c s]; [done|].
  rewrite rmatch_Seq, rmatch_Cls. simpl takeWhile. destruct (p c); [|done].
  rewrite bind_one, rmatch_Star_class.
  destruct (greedyClass_head p (Some c) s) as [l ->].
  simpl rest. f_equal.
  pose proof (length_dropWhile p s).
  replace (length (c :: s) - length (dropWhile p s))
    with (S (length s - length (dropWhile p s))) by (simpl; lia).
  simpl. by rewrite take_takeWhile.
Qed.

Lemma startsWith_prefix p s : startsWith p s = true <-> p `prefix_of` s.
Proof.
  revert s. induction p as [|a p IH]; intros s; simpl.
  - split; [intros _; apply prefix_nil | done].
  - destruct s as [|c s].
    + split; [done | by intros ?%prefix_nil_inv].
    + rewrite andb_true_iff, bool_decide_eq_true, IH. split.
      * intros [-> H]. by apply prefix_cons.
      * intros H. split; [by apply prefix_cons_inv_1 in H | by apply prefix_cons_inv_2 in H].
Qed.

Lemma startsWith_app p s : startsWith p (p ++ s) = true.
Proof. apply startsWith_prefix. by exists s. Qed.

Lemma startsWith_take_drop p s :
  startsWith p s = true -> s = p ++ drop (length p) s.
Proof.
  intros [k ->]%startsWith_prefix. by rewrite drop_app_length.
Qed.

Lemma seqs_cons a l : l <> [] -> seqs (a :: l) = Seq a (seqs l).
Proof. by destruct l. Qed.

Lemma alts_cons a l : l <> [] -> alts (a :: l) = Alt a (alts l).
Proof. by destruct l. Qed.

(** A literal text matches in one way, and only in front of itself. *)
Lemma rmatch_lit_eq s x :
  rmatch (lit s) x
  = if startsWith s (rest x)
    then [Pos (lastOr (before x) s) (drop (length s) (rest x))]
    else [].
Proof.
  revert x. induction s as [|a s IH]; intros [b r]; [done|].
  assert (forall b r,
    rmatch (chr a) (Pos b r) ≫= rmatch (lit s)
    = if startsWith (a :: s) r
      then [Pos (lastOr b (a :: s)) (drop (length (a :: s)) r)] else []) as Hstep.
  { clear b r. intros b r. simpl. destruct r as [|c r]; [done|].
    unfold isChar. rewrite (bool_decide_ext (c = a) (a = c)) by done.
    case_bool_decide as Hac; simpl; [|done]. subst c.
    rewrite app_nil_r, IH. simpl. rewrite lastOr_cons. done. }
  unfold lit. destruct s as [|a' s].
  - specialize (Hstep b r). simpl in Hstep. simpl.
    destruct r as [|c r]; [done|]. simpl in *.
    destruct (isChar a c); simpl in *; [|done]. done.
  - change (map chr (a :: a' :: s)) with (chr a :: map chr (a' :: s)).
    rewrite seqs_cons by done. apply Hstep.
Qed.

Lemma rmatch_lit_here s b r :
  Pos (lastOr b s) r ∈ rmatch (lit s) (Pos b (s ++ r)).
Proof.
  rewrite rmatch_lit_eq. simpl. rewrite startsWith_app, drop_app_length. left.
Qed.

Lemma rmatch_alts_elem l r x y : r ∈ l -> y ∈ rmatch r x -> y ∈ rmatch (alts l) x.
Proof.
  intros Hr Hy. induction l as [|a l IH]; [by apply elem_of_nil in Hr|].
  destruct l as [|a' l].
  - by apply list_elem_of_singleton in Hr as ->.
  - rewrite alts_cons by done. simpl. apply elem_of_app.
    apply elem_of_cons in Hr as [-> | Hr]; [by left | right; auto].
Qed.

Lemma bind_nil {A B} (f : A -> list B) l :
  (forall x, x ∈ l -> f x = []) -> l ≫= f = [].
Proof.
  induction l as [|x l IH]; intros H; [done|].
  simpl. rewrite (H x) by left. apply IH. intros. apply H. by right.
Qed.

End Runs.

(** ** Whitespace and bare words *)

Section MaximalRuns.

Import Tokenizer tokenTypes.

Lemma getWhitespaceToken_run cfg input :
  getWhitespaceToken (constructor cfg) input
  = match takeWhile isSpace input with
    | [] => None
    | _ :: _ =>
        Some {| type := WHITESPACE; value := takeWhile isSpace input; key := [] |}
    end.
Proof.
  unfold getWhitespaceToken, getTokenOnFirstMatch.
  change (WHITESPACE_REGEX (constructor cfg)) with (plus (Cls isSpace)).
  rewrite exec_plus_class. by destruct (takeWhile isSpace input).
Qed.

(** X1: in front of non-empty input [getNextToken] never returns
    [undefined]: it returns a token, which is no longer than the input, or
    throws a [SyntaxError]; whatever the configuration.  So the test of the
    token in the loop of [tokenize] never fails. *)
Theorem next_token_never_undefined cfg input prev :
  input <> [] ->
  (exists tk, getNextToken (constructor cfg) input prev = Ret (Some tk) /\
              length (value tk) <= length input) \/
  getNextToken (constructor cfg) input prev = Throw SyntaxError.
Proof.
  intros Hne.
  pose proof (getNextToken_never_undefined cfg input prev Hne) as Hsome.
  pose proof (getNextToken_answers (constructor cfg) input prev) as Hans.
  destruct (getNextToken (constructor cfg) input prev) as [[tk|]|[]|] eqn:E;
    [left | done | by right | done].
  exists tk. split; [done|].
  apply getNextToken_lexed, lexed_sliceOf in E as [k Hk].
  rewrite (sliceOf_length _ _ Hk), length_take. lia.
Qed.

Lemma next_token_never_undefined_witness :
  (exists tk, getNextToken sampleTokenizer (txt "x") None = Ret (Some tk) /\
              length (value tk) <= length (txt "x")) \/
  getNextToken sampleTokenizer (txt "x") None = Throw SyntaxError.
Proof. by apply (next_token_never_undefined sampleConfig (txt "x") None). Defined.

(** X2: the whitespace matcher returns the longest run of whitespace at the
    start of the input, and nothing when the input does not start with
    whitespace; [getNextToken] returns that token whenever there is one,
    whatever the configuration. *)
Theorem whitespace_token_longest_run cfg input prev :
  getWhitespaceToken (constructor cfg) input
  = (match takeWhile isSpace input with
     | [] => None
     | _ :: _ =>
         Some {| type := WHITESPACE; value := takeWhile isSpace input; key := [] |}
     end) /\
  (takeWhile isSpace input <> [] ->
   getNextToken (constructor cfg) input prev
   = Ret (Some {| type := WHITESPACE; value := takeWhile isSpace input; key := [] |})).
Proof.
  split; [apply getWhitespaceToken_run|].
  intros Hne. unfold getNextToken. rewrite getWhitespaceToken_run.
  by destruct (takeWhile isSpace input).
Qed.

Lemma whitespace_token_longest_run_witness :
  getNextToken sampleTokenizer (txt "  a") None
  = Ret (Some {| type := WHITESPACE; value := txt "  "; key := [] |}).
Proof.
  apply (proj2 (whitespace_token_longest_run sampleConfig (txt "  a") None)).
  by vm_compute.
Defined.

(** X3: the bare-word matcher returns the longest run of word characters
    (letters, digits, the underscore and the special characters of the
    configuration) at the start of the input, and nothing when the input
    does not start with one. *)
Theorem word_token_longest_run cfg input :
  getWordToken (constructor cfg) input
  = match takeWhile (isBareWordChar cfg) input with
    | [] => None
    | _ :: _ =>
        Some {| type := WORD; value := takeWhile (isBareWordChar cfg) input; key := [] |}
    end.
Proof.
  unfold getWordToken, getTokenOnFirstMatch.
  change (WORD_REGEX (constructor cfg)) with (plus (Cls (isBareWordChar cfg))).
  rewrite exec_plus_class. by destruct (takeWhile _ input).
Qed.

End MaximalRuns.

(** ** Neighbouring tokens *)

Section Separated.

Import Tokenizer tokenTypes.

(** A token of type whitespace comes from the whitespace pattern. *)
Lemma lexed_whitespace T input tk :
  lexed T input tk -> type tk = WHITESPACE ->
  exec (WHITESPACE_REGEX T) input = Some (value tk).
Proof.
  intros [ty r m k Hin Hm | ty r m Hin Hm] Hty; simpl in Hty |- *.
  - apply elem_of_cons in Hin as [[= -> ->] | Hin]; [done|].
    repeat (apply elem_of_cons in Hin as [[= -> ->] | Hin]; [by vm_compute in Hty|]).
    by apply elem_of_nil in Hin.
  - repeat (apply elem_of_cons in Hin as [[= -> ->] | Hin]; [by vm_compute in Hty|]).
    by apply elem_of_nil in Hin.
Qed.

Lemma whitespace_value cfg input tk :
  lexed (constructor cfg) input tk -> isWhitespaceToken tk = true ->
  value tk = takeWhile isSpace input /\ value tk <> [].
Proof.
  intros Hl Hty. apply bool_decide_eq_true in Hty.
  pose proof (lexed_whitespace _ _ _ Hl Hty) as Hm.
  change (WHITESPACE_REGEX (constructor cfg)) with (plus (Cls isSpace)) in Hm.
  rewrite exec_plus_class in Hm.
  destruct (takeWhile isSpace input) eqn:E; [done|].
  injection Hm as Hm. by rewrite <- Hm.
Qed.

Lemma drop_takeWhile p s : drop (length (takeWhile p s)) s = dropWhile p s.
Proof.
  rewrite <- (takeWhile_dropWhile p s) at 2. by rewrite drop_app_length.
Qed.

Lemma takeWhile_dropWhile_nil p s : takeWhile p (dropWhile p s) = [].
Proof.
  pose proof (dropWhile_head p s) as H.
  destruct (dropWhile p s) as [|c r]; [done|]. simpl. by rewrite H.
Qed.

Lemma neighbours_snoc R l tk :
  neighbours R l = true ->
  (forall a, last l = Some a -> R a tk = true) ->
  neighbours R (l ++ [tk]) = true.
Proof.
  induction l as [|a l IH]; [done|]. intros Hs Hl.
  destruct l as [|b l].
  - simpl. rewrite (Hl a) by done. done.
  - change (neighbours R ((a :: b :: l) ++ [tk]))
      with (R a b && neighbours R ((b :: l) ++ [tk])).
    change (neighbours R (a :: b :: l)) with (R a b && neighbours R (b :: l)) in Hs.
    apply andb_true_iff in Hs as [Hab Hs]. rewrite Hab. simpl andb.
    apply IH; [done|]. intros a' Ha'. apply Hl. by rewrite last_cons_cons.
Qed.

(** Every token the loop adds was returned by [getNextToken]. *)
Lemma tokenize_loop_tokens T (P : Token -> Prop) fuel input token tokens toks :
  (forall input prev tk,
     input <> [] -> getNextToken T input prev = Ret (Some tk) -> P tk) ->
  Forall P tokens ->
  tokenize_loop T fuel input token tokens = Ret toks -> Forall P toks.
Proof.
  intros HP. revert input token tokens.
  induction fuel as [|fuel IH]; intros input token tokens Htokens.
  { destruct input; simpl; [|done]. by intros [= <-]. }
  destruct (decide (input = [])) as [->|Hne]; [by intros [= <-]|].
  rewrite tokenize_loop_step by done.
  destruct (getNextToken T input token) as [[tk|]|e|] eqn:E; simpl; try done.
  - apply IH. apply Forall_app. split; [done|].
    constructor; [by eapply HP | constructor].
  - by apply IH.
Qed.

Lemma tokenize_loop_separated cfg fuel input token tokens toks :
  tokenize_loop (constructor cfg) fuel input token tokens = Ret toks ->
  separated tokens = true ->
  (forall a, last tokens = Some a -> isWhitespaceToken a = true ->
             takeWhile isSpace input = []) ->
  separated toks = true.
Proof.
  revert input token tokens.
  induction fuel as [|fuel IH]; intros input token tokens.
  { destruct input; simpl; [|done]. by intros [= <-]. }
  destruct (decide (input = [])) as [->|Hne]; [by intros [= <-]|].
  rewrite tokenize_loop_step by done.
  destruct (getNextToken (constructor cfg) input token) as [[tk|]|e|] eqn:E;
    simpl; try done; [|apply IH].
  intros Hloop Hsep Hlast. apply getNextToken_lexed in E.
  apply (IH _ _ _ Hloop).
  - apply neighbours_snoc; [done|]. intros a Ha.
    destruct (isWhitespaceToken a) eqn:Hwa; [|done].
    destruct (isWhitespaceToken tk) eqn:Hwt; [|done].
    apply (whitespace_value _ _ _ E) in Hwt as [Hv Hn].
    rewrite (Hlast a Ha Hwa) in Hv. done.
  - intros a. rewrite last_snoc. intros [= <-] Hwt.
    apply (whitespace_value _ _ _ E) in Hwt as [-> _].
    unfold substring. rewrite drop_takeWhile. apply takeWhile_dropWhile_nil.
Qed.

(** X4: in the tokens that [tokenize] returns no two neighbours are both
    whitespace, and the text of a whitespace token is a non-empty run of
    whitespace; whatever the configuration. *)
Theorem whitespace_tokens_separated cfg fuel input toks :
  tokenize (constructor cfg) fuel input = Ret toks ->
  separated toks = true /\
  Forall (fun tk => isWhitespaceToken tk = true ->
                    value tk <> [] /\ Forall (fun c => isSpace c = true) (value tk)) toks.
Proof.
  unfold tokenize. intros H. split.
  - by apply (tokenize_loop_separated _ _ _ _ _ _ H).
  - apply (tokenize_loop_tokens _ _ _ _ _ _ _) with (3 := H); [|constructor].
    intros input' prev tk _ E%getNextToken_lexed Hw.
    destruct (whitespace_value _ _ _ E Hw) as [Hv Hn]. split; [done|].
    rewrite Hv. apply takeWhile_Forall.
Qed.

Lemma whitespace_tokens_separated_witness :
  separated [mkToken WORD "a" ""; mkToken WHITESPACE "  " ""; mkToken WORD "b" ""] = true /\
  Forall (fun tk => isWhitespaceToken tk = true ->
                    value tk <> [] /\ Forall (fun c => isSpace c = true) (value tk))
    [mkToken WORD "a" ""; mkToken WHITESPACE "  " ""; mkToken WORD "b" ""].
Proof.
  apply (whitespace_tokens_separated sampleConfig 3 (txt "a  b")). by vm_compute.
Defined.

Lemma never_reserved_after_dot T input prev tk :
  getNextToken T input (Some prev) = Ret (Some tk) ->
  bool_decide (value prev = ["."]) && isReservedType (type tk) = false.
Proof.
  intros H. case_bool_decide as Hdot; [|done]. simpl.
  destruct (isReservedType (type tk)) eqn:Hty; [|done]. exfalso.
  unfold isReservedType in Hty. apply bool_decide_eq_true in Hty.
  assert (getReservedWordToken T input (Some prev) = Some tk) as Hres.
  { apply reserved_token_origin; [done|].
    repeat (apply elem_of_cons in Hty as [-> | Hty]; [in_list|]).
    by apply elem_of_nil in Hty. }
  unfold getReservedWordToken, afterDot in Hres.
  by rewrite bool_decide_eq_true_2 in Hres.
Qed.

Lemma tokenize_loop_dots cfg fuel input token tokens toks :
  tokenize_loop (constructor cfg) fuel input token tokens = Ret toks ->
  token = last tokens -> dotsRespected tokens = true -> dotsRespected toks = true.
Proof.
  revert input token tokens.
  induction fuel as [|fuel IH]; intros input token tokens.
  { destruct input; simpl; [|done]. by intros [= <-]. }
  destruct (decide (input = [])) as [->|Hne]; [by intros [= <-]|].
  rewrite tokenize_loop_step by done.
  destruct (getNextToken (constructor cfg) input token) as [[tk|]|e|] eqn:E;
    simpl; try done; [|by apply getNextToken_never_undefined in E].
  intros Hloop -> Hdots. apply (IH _ _ _ Hloop); [by rewrite last_snoc|].
  apply neighbours_snoc; [done|]. intros a Ha. rewrite Ha in E.
  apply never_reserved_after_dot in E. by rewrite E.
Qed.

(** X23: the loop of [tokenize] hands each token to the search for the
    next one, so in the tokens it returns no token that follows a token
    whose text is a bare dot has a reserved type; whatever the
    configuration. *)
Theorem tokens_after_dot cfg fuel input toks :
  tokenize (constructor cfg) fuel input = Ret toks ->
  dotsRespected toks = true /\
  forall i a b, toks !! i = Some a -> toks !! S i = Some b -> value a = ["."] ->
                type b ∉ [RESERVED_TOPLEVEL; RESERVED_NEWLINE; RESERVED].
Proof.
  unfold tokenize. intros H.
  assert (dotsRespected toks = true) as Hdots
    by (by apply (tokenize_loop_dots _ _ _ _ _ _ H)).
  split; [done|]. clear H. revert Hdots.
  induction toks as [|x toks IH]; intros Hdots i a b Ha Hb Hdot; [done|].
  destruct toks as [|y toks]; [by destruct i|].
  change (dotsRespected (x :: y :: toks))
    with (negb (bool_decide (value x = ["."]) && isReservedType (type y))
          && dotsRespected (y :: toks)) in Hdots.
  apply andb_true_iff in Hdots as [Hxy Hdots].
  destruct i as [|i]; [|by eapply IH].
  simpl in Ha, Hb. injection Ha as <-. injection Hb as <-.
  rewrite bool_decide_eq_true_2 in Hxy by done. simpl in Hxy.
  apply negb_true_iff in Hxy. unfold isReservedType in Hxy.
  by apply bool_decide_eq_false in Hxy.
Qed.

Lemma tokens_after_dot_witness :
  dotsRespected [mkToken WORD "t" ""; mkToken OPERATOR "." ""; mkToken WORD "from" ""]
  = true /\
  forall i a b,
    [mkToken WORD "t" ""; mkToken OPERATOR "." ""; mkToken WORD "from" ""] !! i = Some a ->
    [mkToken WORD "t" ""; mkToken OPERATOR "." ""; mkToken WORD "from" ""] !! S i = Some b ->
    value a = ["."] -> type b ∉ [RESERVED_TOPLEVEL; RESERVED_NEWLINE; RESERVED].
Proof.
  apply (tokens_after_dot sampleConfig 3 (txt "t.from")). by vm_compute.
Defined.

End Separated.

(** ** Comments *)

Section Comments.

Import Tokenizer tokenTypes.

Lemma iter_lazy_stop step n x : step x = [] -> iter_lazy step n x = [x].
Proof. intros H. destruct n; [done|]. simpl. by rewrite H. Qed.

Lemma iter_lazy_class p n b c s :
  p c = true ->
  iter_lazy (rmatch (Cls p)) (S n) (Pos b (c :: s))
  = Pos b (c :: s) :: iter_lazy (rmatch (Cls p)) n (Pos (Some c) s).
Proof.
  intros Hp. cbn [iter_lazy]. rewrite rmatch_Cls, Hp.
  rewrite filter_cons_True, filter_nil
    by (unfold shorter; simpl; apply bool_decide_eq_true_2; lia).
  by rewrite bind_one.
Qed.

Lemma untilCommentEnd_cons c s :
  untilCommentEnd (c :: s)
  = if startsWith (txt "*/") (c :: s) then txt "*/" else c :: untilCommentEnd s.
Proof.
  destruct s as [|d s]; simpl; unfold isChar.
  - by case_bool_decide.
  - repeat case_bool_decide; simplify_eq; done.
Qed.

Lemma untilCommentEnd_prefix s : take (length (untilCommentEnd s)) s = untilCommentEnd s.
Proof.
  induction s as [|c s IH]; [done|]. rewrite untilCommentEnd_cons.
  destruct (startsWith _ _) eqn:E.
  - apply startsWith_take_drop in E. rewrite E at 1. by rewrite take_app_length.
  - simpl. by rewrite IH.
Qed.

Lemma length_untilCommentEnd s : length (untilCommentEnd s) <= length s.
Proof.
  rewrite <- (untilCommentEnd_prefix s), length_take. lia.
Qed.

(** The lazy body of a block comment stops at the first star and slash, or
    at the end of the text. *)
Lemma lazy_until_comment_end n b s :
  length s <= n ->
  exists b' l,
    iter_lazy (rmatch (Cls (fun _ => true))) n (Pos b s)
      ≫= rmatch (Alt (lit (txt "*/")) Eoi)
    = Pos b' (drop (length (untilCommentEnd s)) s) :: l.
Proof.
  revert n b. induction s as [|c s IH]; intros n b Hn.
  - rewrite iter_lazy_stop by done. rewrite bind_one. by exists b, [].
  - destruct n as [|n]; [simpl in Hn; lia|].
    rewrite iter_lazy_class by done.
    change ((?x :: ?l) ≫= ?f) with (f x ++ (l ≫= f)).
    rewrite rmatch_Alt, rmatch_lit_eq, untilCommentEnd_cons. simpl rest.
    destruct (startsWith _ _) eqn:E; [by eexists _, _|].
    destruct (IH n (Some c)) as (b' & l & ->); [simpl in Hn; lia|].
    by exists b', l.
Qed.

(** X5: the block-comment matcher answers only in front of a slash and a
    star; its token runs up to and including the first star followed by a
    slash after that opening, and to the end of the input when the comment
    is not closed. *)
Theorem block_comment_token cfg input :
  getBlockCommentToken (constructor cfg) input
  = if startsWith (txt "/*") input
    then Some {| type := BLOCK_COMMENT;
                 value := txt "/*" ++ untilCommentEnd (drop 2 input);
                 key := [] |}
    else None.
Proof.
  unfold getBlockCommentToken, getTokenOnFirstMatch, exec.
  change (BLOCK_COMMENT_REGEX (constructor cfg))
    with (Seq (lit (txt "/*"))
              (Seq (Lazy (Cls (fun _ => true))) (Alt (lit (txt "*/")) Eoi))).
  rewrite rmatch_Seq, rmatch_lit_eq. simpl rest.
  destruct (startsWith (txt "/*") input) eqn:E; [|done].
  apply startsWith_prefix in E as [s ->].
  change (drop _ (txt "/*" ++ s)) with s.
  rewrite bind_one, rmatch_Seq.
  change (rmatch (Lazy ?a) ?x) with (iter_lazy (rmatch a) (length (rest x)) x).
  cbn [rest before].
  destruct (lazy_until_comment_end (length s) (lastOr None (txt "/*")) s)
    as (b' & l & ->); [done|].
  simpl rest. do 2 f_equal.
  pose proof (length_untilCommentEnd s) as Hle.
  rewrite length_app, length_drop.
  change (length (txt "/*")) with 2.
  replace (2 + length s - (length s - length (untilCommentEnd s)))
    with (2 + length (untilCommentEnd s)) by lia.
  change (take (2 + ?n) (txt "/*" ++ s)) with (txt "/*" ++ take n s).
  by rewrite untilCommentEnd_prefix.
Qed.

Lemma isDot_not_LF c : isDot c = true -> isChar LF c = false.
Proof. unfold isDot. by destruct (isChar LF c). Qed.

(** The lazy body of a line comment runs to the first line terminator: it
    ends after a line feed or at the end of the text, and fails in front of
    a carriage return. *)
Lemma line_comment_tail n b s :
  length s <= n ->
  iter_lazy (rmatch (Cls isDot)) n (Pos b s) ≫= rmatch (Alt (chr LF) Eoi)
  = match dropWhile isDot s with
    | [] => [Pos (lastOr b s) []]
    | c :: r => if isChar LF c then [Pos (Some c) r] else []
    end.
Proof.
  revert n b. induction s as [|c s IH]; intros n b Hn.
  - rewrite iter_lazy_stop by done. by rewrite bind_one.
  - destruct n as [|n]; [simpl in Hn; lia|].
    assert (rmatch (Alt (chr LF) Eoi) (Pos b (c :: s))
            = if isChar LF c then [Pos (Some c) s] else []) as HE.
    { rewrite rmatch_Alt. unfold chr. rewrite rmatch_Cls. simpl.
      by destruct (isChar LF c). }
    simpl dropWhile. destruct (isDot c) eqn:Hc.
    + rewrite iter_lazy_class by done.
      change ((?x :: ?l) ≫= ?f) with (f x ++ (l ≫= f)).
      rewrite HE, (isDot_not_LF c Hc), IH by (simpl in Hn; lia).
      simpl. by rewrite lastOr_cons.
    + rewrite iter_lazy_stop by (by rewrite rmatch_Cls, Hc).
      by rewrite bind_one, HE.
Qed.

Lemma rmatch_alts_lits l x z :
  z ∈ rmatch (alts (map lit l)) x ->
  exists q, (q ∈ l \/ (l = [] /\ q = [])) /\
            startsWith q (rest x) = true /\ rest z = drop (length q) (rest x).
Proof.
  intros [[Hnil ->] | (r & Hr & Hz)]%rmatch_alts.
  { exists []. split; [right; by destruct l | done]. }
  apply list_elem_of_fmap in Hr as (q & -> & Hq).
  rewrite rmatch_lit_eq in Hz. exists q.
  destruct (startsWith q (rest x)); [|by apply elem_of_nil in Hz].
  apply list_elem_of_singleton in Hz as ->. by split; [left|].
Qed.

Lemma existsb_startsWith l s :
  existsb (fun p => startsWith p s) l = true <->
  exists q, q ∈ l /\ startsWith q s = true.
Proof.
  rewrite existsb_exists. split; intros (q & Hq & Hs); exists q; split; try done.
  - by apply list_elem_of_In.
  - by apply list_elem_of_In.
Qed.

(** X6: with line-comment prefixes that hold no line terminator, the
    line-comment matcher answers only in front of one of the prefixes; when
    the list of prefixes is empty it answers in front of any text.  Its
    token runs up to and including the first line feed, and to the end of
    the input when no line terminator follows; when the first line
    terminator is a carriage return the matcher does not answer at all. *)
Theorem line_comment_token cfg input :
  Forall (Forall (fun c => isDot c = true)) (lineCommentTypes cfg) ->
  getLineCommentToken (constructor cfg) input
  = if bool_decide (lineCommentTypes cfg = [])
       || existsb (fun p => startsWith p input) (lineCommentTypes cfg)
    then match dropWhile isDot input with
         | [] => Some {| type := LINE_COMMENT; value := input; key := [] |}
         | c :: _ =>
             if isChar LF c
             then Some {| type := LINE_COMMENT;
                          value := takeWhile isDot input ++ [LF]; key := [] |}
             else None
         end
    else None.
Proof.
  intros Hdots. unfold getLineCommentToken, getTokenOnFirstMatch, exec.
  change (LINE_COMMENT_REGEX (constructor cfg))
    with (Seq (alts (map lit (lineCommentTypes cfg)))
              (Seq (Lazy (Cls isDot)) (Alt (chr LF) Eoi))).
  rewrite rmatch_Seq.
  set (A := alts (map lit (lineCommentTypes cfg))).
  set (x := Pos None input).
  assert (forall z, z ∈ rmatch A x ->
            rmatch (Seq (Lazy (Cls isDot)) (Alt (chr LF) Eoi)) z
            = match dropWhile isDot input with
              | [] => [Pos (lastOr (before z) (rest z)) []]
              | c :: r => if isChar LF c then [Pos (Some c) r] else []
              end) as Htail.
  { intros [b s] (q & Hq & Hs & Hz)%rmatch_alts_lits.
    simpl in Hs, Hz. apply startsWith_take_drop in Hs.
    assert (Forall (fun c => isDot c = true) q) as Hq'.
    { destruct Hq as [Hq | [_ ->]]; [|constructor].
      by eapply (proj1 (Forall_forall _ _) Hdots). }
    rewrite Hs, <- Hz, dropWhile_app by done.
    rewrite rmatch_Seq. by apply line_comment_tail. }
  destruct (bool_decide _ || existsb _ _) eqn:Hex.
  - assert (rmatch A x <> []) as Hsome.
    { apply orb_true_iff in Hex as [Hnil%bool_decide_eq_true | Hex].
      { unfold A. by rewrite Hnil. }
      apply existsb_startsWith in Hex as (q & Hq & Hs).
      apply startsWith_prefix in Hs as [k Hk]. intros Hnil.
      assert (Pos (lastOr None q) k ∈ rmatch A x) as Hin.
      { apply (rmatch_alts_elem _ (lit q)); [by apply list_elem_of_fmap_2|].
        unfold x. rewrite Hk. apply rmatch_lit_here. }
      rewrite Hnil in Hin. by apply elem_of_nil in Hin. }
    destruct (rmatch A x) as [|z l] eqn:Hz; [done|].
    change ((?x :: ?l) ≫= ?f) with (f x ++ (l ≫= f)).
    rewrite Htail by left.
    pose proof (takeWhile_dropWhile isDot input) as Hsplit.
    destruct (dropWhile isDot input) as [|c r].
    + simpl. rewrite Nat.sub_0_r. by rewrite firstn_all.
    + destruct (isChar LF c) eqn:Hc.
      * simpl. apply bool_decide_eq_true in Hc as ->. do 2 f_equal.
        rewrite <- Hsplit at 1 2.
        change (LF :: r) with ([LF] ++ r). rewrite app_assoc.
        apply take_all_but_rest.
      * rewrite bind_nil; [done|].
        intros z' Hz'. rewrite Htail by (by right). done.
  - apply orb_false_iff in Hex as [Hne%bool_decide_eq_false Hex].
    rewrite bind_nil; [done|]. intros z (q & [Hq | [? _]] & Hs & _)%rmatch_alts_lits; [|done].
    assert (existsb (fun p => startsWith p input) (lineCommentTypes cfg) = true)
      as Hex' by (apply existsb_startsWith; eauto).
    congruence.
Qed.

Lemma line_comment_token_witness :
  getLineCommentToken sampleTokenizer (txt "-- a" ++ [LF] ++ txt "b")
  = Some {| type := LINE_COMMENT; value := txt "-- a" ++ [LF]; key := [] |} /\
  getLineCommentToken sampleTokenizer (txt "-- a" ++ [CR; LF] ++ txt "b") = None.
Proof.
  split.
  - apply (line_comment_token sampleConfig (txt "-- a" ++ [LF] ++ txt "b")).
    repeat constructor.
  - apply (line_comment_token sampleConfig (txt "-- a" ++ [CR; LF] ++ txt "b")).
    repeat constructor.
Defined.

End Comments.

(** ** Operators *)

Section Operators.

Import Tokenizer tokenTypes.

Lemma firstPrefix_Some l s o :
  firstPrefix l s = Some o -> o ∈ l /\ startsWith o s = true.
Proof.
  induction l as [|a l IH]; simpl; [done|].
  destruct (startsWith a s) eqn:E.
  - intros [= <-]. split; [left | done].
  - intros [Ho Hs]%IH. split; [by right | done].
Qed.

Lemma firstPrefix_longest l s o o' :
  longestFirst l = true -> firstPrefix l s = Some o' ->
  o ∈ l -> o `prefix_of` s -> length o <= length o'.
Proof.
  induction l as [|a l IH]; simpl; [done|].
  intros [Ha Hl]%andb_true_iff Hfirst Ho Hos.
  destruct (startsWith a s) eqn:E.
  - injection Hfirst as <-.
    apply elem_of_cons in Ho as [-> | Ho]; [done|].
    rewrite forallb_forall in Ha. specialize (Ha o).
    rewrite <- list_elem_of_In in Ha. specialize (Ha Ho).
    apply orb_true_iff in Ha as [Ha | Ha]; [|by apply Nat.leb_le in Ha].
    apply startsWith_prefix in E.
    destruct (prefix_weak_total _ _ _ E Hos) as [Hao | Hoa].
    + apply startsWith_prefix in Hao. by rewrite Hao in Ha.
    + by apply prefix_length.
  - apply elem_of_cons in Ho as [-> | Ho]; [|by apply IH].
    apply startsWith_prefix in Hos. congruence.
Qed.

(** Literal alternatives followed by a class: the first alternative the
    text starts with, or else one character of the class. *)
Lemma exec_alts_lits l p input :
  exec (alts (map lit l ++ [Cls p])) input
  = match firstPrefix l input with
    | Some o => Some o
    | None =>
        match input with
        | c :: _ => if p c then Some [c] else None
        | [] => None
        end
    end.
Proof.
  induction l as [|a l IH].
  - unfold exec. destruct input as [|c s]; [done|].
    simpl. destruct (p c); [|done]. simpl. f_equal.
    replace (S (length s) - length s) with 1 by lia. done.
  - change (map lit (a :: l) ++ [Cls p]) with (lit a :: (map lit l ++ [Cls p])).
    rewrite alts_cons by (by destruct (map lit l)).
    unfold exec in *. rewrite rmatch_Alt, rmatch_lit_eq. simpl rest. simpl firstPrefix.
    destruct (startsWith a input) eqn:E; [|exact IH].
    apply startsWith_prefix in E as [k ->].
    simpl. rewrite drop_app_length. f_equal. apply take_all_but_rest.
Qed.

(** X7: the text of an operator token is the longest operator of the list
    that the input starts with, and one character when the input starts
    with none of them. *)
Theorem operator_token_longest cfg input tk :
  getOperatorToken (constructor cfg) input = Some tk ->
  type tk = OPERATOR /\ value tk `prefix_of` input /\
  (value tk ∈ operators \/ length (value tk) = 1) /\
  (forall o, o ∈ operators -> o `prefix_of` input -> length o <= length (value tk)).
Proof.
  unfold getOperatorToken. intros H. first_match H. simpl.
  change (OPERATOR_REGEX (constructor cfg))
    with (alts (map lit operators ++ [Cls isDot])) in H.
  rewrite exec_alts_lits in H. split; [done|].
  destruct (firstPrefix operators input) as [o'|] eqn:E.
  - injection H as <-. destruct (firstPrefix_Some _ _ _ E) as [Hin Hs].
    split; [by apply startsWith_prefix|]. split; [by left|].
    intros o Ho Hos. eapply (firstPrefix_longest operators); [|done..]. by vm_compute.
  - destruct input as [|c s]; [done|]. destruct (isDot c); [|done].
    injection H as <-. split; [by exists s|]. split; [by right|].
    intros o Ho Hos. exfalso. clear -E Ho Hos.
    apply startsWith_prefix in Hos.
    induction operators as [|a l IH]; [by apply elem_of_nil in Ho|].
    simpl in E. destruct (startsWith a (c :: s)) eqn:Ea; [done|].
    apply elem_of_cons in Ho as [-> | Ho]; [congruence | auto].
Qed.

Lemma operator_token_longest_witness :
  type (mkToken OPERATOR "->>" "") = OPERATOR /\
  value (mkToken OPERATOR "->>" "") `prefix_of` txt "->>x" /\
  (value (mkToken OPERATOR "->>" "") ∈ operators \/
   length (value (mkToken OPERATOR "->>" "")) = 1) /\
  (forall o, o ∈ operators -> o `prefix_of` txt "->>x" ->
             length o <= length (value (mkToken OPERATOR "->>" ""))).
Proof.
  apply (operator_token_longest sampleConfig (txt "->>x")). by vm_compute.
Defined.

End Operators.

(** ** Word boundaries *)

Section Boundaries.

Import Tokenizer tokenTypes.

Lemma lastOr_None p : lastOr None p = last p.
Proof. unfold lastOr. by destruct (last p). Qed.

Lemma rmatch_Bnd x y : y ∈ rmatch Bnd x -> y = x /\ wordAfter x = negb (wordBefore x).
Proof.
  simpl. destruct (wordBefore x), (wordAfter x); simpl;
    first [ by intros ?%elem_of_nil | by intros ->%list_elem_of_singleton ].
Qed.

(** A pattern that ends in [\b] matches a text only where exactly one of
    the last character of the text and the character after it is a word
    character. *)
Lemma exec_Seq_Bnd a input m :
  exec (Seq a Bnd) input = Some m ->
  exists y, y ∈ rmatch a (Pos None input) /\ input = m ++ rest y /\
            wordBefore y = wordEnd m /\ wordStart (rest y) = negb (wordEnd m).
Proof.
  unfold exec.
  destruct (rmatch (Seq a Bnd) (Pos None input)) as [|y l] eqn:E; [done|].
  intros [= <-].
  assert (y ∈ rmatch (Seq a Bnd) (Pos None input)) as Hy by (rewrite E; left).
  rewrite rmatch_Seq in Hy. apply list_elem_of_bind in Hy as (z & Hy & Hz).
  apply rmatch_Bnd in Hy as [-> Hb].
  destruct (rmatch_tracks _ _ _ Hz) as (p & Hp & Hlast). simpl in Hp, Hlast.
  rewrite lastOr_None in Hlast. subst input. rewrite take_all_but_rest.
  assert (wordBefore z = wordEnd p) as Hw by (unfold wordBefore, wordEnd; by rewrite Hlast).
  exists z. repeat split; try done.
  rewrite <- Hw, <- Hb. done.
Qed.

Lemma plus_class_wordBefore p x y :
  (forall c, p c = true -> isWordChar c = true) ->
  y ∈ rmatch (plus (Cls p)) x -> wordBefore y = true.
Proof.
  intros Hp. unfold plus. rewrite rmatch_Seq.
  intros (z & Hy & Hz)%list_elem_of_bind.
  assert (wordBefore z = true) as Hwz.
  { destruct x as [b [|c s]]; [by apply elem_of_nil in Hz|].
    rewrite rmatch_Cls in Hz. destruct (p c) eqn:Hc; [|by apply elem_of_nil in Hz].
    apply list_elem_of_singleton in Hz as ->. by apply Hp. }
  revert Hwz.
  apply (rmatch_rel (fun x y => wordBefore x = true -> wordBefore y = true))
    with (r := Star (Cls p)); [done | auto | | done].
  simpl. intros x' c s _ Hc _. by apply Hp.
Qed.

Lemma isDigit_word c : isDigit c = true -> isWordChar c = true.
Proof. unfold isWordChar. intros ->. by rewrite !orb_true_r. Qed.

Lemma isHex_word c : isHex c = true -> isWordChar c = true.
Proof. destruct c as [[] [] [] [] [] [] [] []]; by vm_compute. Qed.

Lemma isBinary_word c : isChar "0" c || isChar "1" c = true -> isWordChar c = true.
Proof. destruct c as [[] [] [] [] [] [] [] []]; by vm_compute. Qed.

(** X8: a number token ends in a word character (a digit or a hexadecimal
    digit) and is followed in the input by the end of the text or by a
    character that is not a word character: digits that run into a letter
    or an underscore are not a number. *)
Theorem number_token_boundary cfg input tk :
  getNumberToken (constructor cfg) input = Some tk ->
  type tk = NUMBER /\
  exists s, input = value tk ++ s /\ wordEnd (value tk) = true /\ wordStart s = false.
Proof.
  unfold getNumberToken. intros H. first_match H. simpl. split; [done|].
  set (digits := plus (Cls isDigit)).
  change (NUMBER_REGEX (constructor cfg))
    with (Seq (alts [ Seq (opt (Seq (chr "-") (Star (Cls isSpace))))
                          (Seq digits (opt (Seq (chr ".") digits)));
                      Seq (lit (txt "0x")) (plus (Cls isHex));
                      Seq (lit (txt "0b"))
                          (plus (Cls (fun c => isChar "0" c || isChar "1" c))) ])
              Bnd) in H.
  apply exec_Seq_Bnd in H as (y & Hy & Hin & Hw & Hs).
  assert (wordBefore y = true) as Hwy.
  { apply rmatch_alts in Hy as [[? _] | (r & Hr & Hy)]; [done|].
    repeat (apply elem_of_cons in Hr as [-> | Hr]); [| | |by apply elem_of_nil in Hr].
    - rewrite rmatch_Seq in Hy. apply list_elem_of_bind in Hy as (z1 & Hy & _).
      rewrite rmatch_Seq in Hy. apply list_elem_of_bind in Hy as (z2 & Hy & Hz2).
      apply (plus_class_wordBefore _ _ _ isDigit_word) in Hz2.
      unfold opt in Hy. rewrite rmatch_Alt in Hy.
      apply elem_of_app in Hy as [Hy | Hy].
      + rewrite rmatch_Seq in Hy. apply list_elem_of_bind in Hy as (z3 & Hy & _).
        by apply (plus_class_wordBefore _ _ _ isDigit_word) in Hy.
      + by apply list_elem_of_singleton in Hy as ->.
    - rewrite rmatch_Seq in Hy. apply list_elem_of_bind in Hy as (z1 & Hy & _).
      by apply (plus_class_wordBefore _ _ _ isHex_word) in Hy.
    - rewrite rmatch_Seq in Hy. apply list_elem_of_bind in Hy as (z1 & Hy & _).
      by apply (plus_class_wordBefore _ _ _ isBinary_word) in Hy. }
  exists (rest y). rewrite Hw in Hwy. rewrite Hwy in Hs. done.
Qed.

Lemma number_token_boundary_witness :
  type (mkToken NUMBER "12" "") = NUMBER /\
  exists s, txt "12+x" = value (mkToken NUMBER "12" "") ++ s /\
            wordEnd (value (mkToken NUMBER "12" "")) = true /\ wordStart s = false.
Proof.
  apply (number_token_boundary sampleConfig (txt "12+x")). by vm_compute.
Defined.

(** X9: a reserved-word token is the upper-cased text of a match that ends
    at a word boundary: of the last character of the match and the
    character that follows it in the input exactly one is a word character.
    So a reserved word that ends in a letter is not recognised in front of
    a letter, a digit or an underscore. *)
Theorem reserved_word_boundary cfg input prev tk :
  getReservedWordToken (constructor cfg) input prev = Some tk ->
  type tk ∈ [RESERVED_TOPLEVEL; RESERVED_NEWLINE; RESERVED] /\
  exists m s, input = m ++ s /\ value tk = toUpperCase m /\
              wordStart s = negb (wordEnd m).
Proof.
  unfold getReservedWordToken, getToplevelReservedToken, getNewlineReservedToken,
    getPlainReservedToken.
  destruct (afterDot prev); [done|].
  destruct (getTokenOnFirstMatch _ RESERVED_TOPLEVEL _) eqn:E1;
    [|destruct (getTokenOnFirstMatch _ RESERVED_NEWLINE _) eqn:E2;
      [|destruct (getTokenOnFirstMatch _ RESERVED _) eqn:E3; [|done]]];
    simpl; intros [= <-];
    match goal with E : getTokenOnFirstMatch _ _ _ = Some _ |- _ => first_match E end;
    simpl; (split; [in_list|]);
    match goal with H : exec _ _ = Some ?m |- _ =>
      apply exec_Seq_Bnd in H as (y & _ & Hin & _ & Hs); by exists m, (rest y)
    end.
Qed.

Lemma reserved_word_boundary_witness :
  type (mkToken RESERVED_TOPLEVEL "SELECT" "")
    ∈ [RESERVED_TOPLEVEL; RESERVED_NEWLINE; RESERVED] /\
  exists m s, txt "select *" = m ++ s /\
              value (mkToken RESERVED_TOPLEVEL "SELECT" "") = toUpperCase m /\
              wordStart s = negb (wordEnd m).
Proof.
  apply (reserved_word_boundary sampleConfig (txt "select *") None). by vm_compute.
Defined.

End Boundaries.

(** ** Brackets, types and keys *)

Section Brackets.

Import Tokenizer tokenTypes.

Lemma rmatch_chr_i c x y :
  y ∈ rmatch (chr_i c) x ->
  exists d, rest x = d :: rest y /\ upperChar d = upperChar c.
Proof.
  destruct x as [b [|d s]]; [by intros ?%elem_of_nil|].
  unfold chr_i. rewrite rmatch_Cls. case_bool_decide as Hd; [|by intros ?%elem_of_nil].
  intros ->%list_elem_of_singleton. by exists d.
Qed.

(** A text matched without regard to letter case equals the pattern text
    up to letter case. *)
Lemma rmatch_lit_i p x y :
  y ∈ rmatch (lit_i p) x ->
  exists m, rest x = m ++ rest y /\ toUpperCase m = toUpperCase p.
Proof.
  revert x. induction p as [|c p IH]; intros x.
  - intros ->%list_elem_of_singleton. by exists [].
  - unfold lit_i. destruct p as [|c' p].
    + intros (d & Hd & Hu)%rmatch_chr_i. exists [d]. split; [done|]. simpl. by rewrite Hu.
    + change (map chr_i (c :: c' :: p)) with (chr_i c :: map chr_i (c' :: p)).
      rewrite seqs_cons by done. rewrite rmatch_Seq.
      intros (z & Hy & Hz)%list_elem_of_bind.
      apply rmatch_chr_i in Hz as (d & Hd & Hu).
      apply IH in Hy as (m & Hm & Hmu).
      exists (d :: m). split; [by rewrite Hd, Hm|]. simpl. by rewrite Hu, Hmu.
Qed.

Lemma rmatch_escapeParen p x y :
  y ∈ rmatch (escapeParen p) x ->
  exists m, rest x = m ++ rest y /\ toUpperCase m = toUpperCase p.
Proof.
  unfold escapeParen. case_bool_decide; [apply rmatch_lit_i|].
  change (seqs [Bnd; lit_i p; Bnd]) with (Seq Bnd (Seq (lit_i p) Bnd)).
  rewrite rmatch_Seq. intros (z1 & Hy & [-> _]%rmatch_Bnd)%list_elem_of_bind.
  rewrite rmatch_Seq in Hy. apply list_elem_of_bind in Hy as (z2 & Hy & Hz2).
  apply rmatch_Bnd in Hy as [-> _]. by apply rmatch_lit_i.
Qed.

Lemma exec_createParenRegex parens input m :
  parens <> [] -> exec (createParenRegex parens) input = Some m ->
  exists p, p ∈ parens /\ m `prefix_of` input /\ toUpperCase m = toUpperCase p.
Proof.
  intros Hne. unfold exec, createParenRegex.
  destruct (rmatch _ _) as [|y l] eqn:E; [done|]. intros [= <-].
  assert (y ∈ rmatch (alts (map escapeParen parens)) (Pos None input)) as Hy
    by (rewrite E; left).
  apply rmatch_alts in Hy as [[Hnil _] | (r & Hr & Hy)]; [by destruct parens|].
  apply list_elem_of_fmap in Hr as (p & -> & Hp).
  apply rmatch_escapeParen in Hy as (m & Hm & Hu). simpl in Hm. subst input.
  rewrite take_all_but_rest. exists p. split; [done|]. split; [by eexists | done].
Qed.

(** X10: the text of a bracket token is one of the configured brackets in
    upper case, whatever the letter case of the input; the input starts
    with a text that equals it up to letter case. *)
Theorem bracket_token_canonical cfg input tk :
  (openParens cfg <> [] ->
   getOpenParenToken (constructor cfg) input = Some tk ->
   type tk = OPEN_PAREN /\
   exists p m, p ∈ openParens cfg /\ value tk = toUpperCase p /\
               m `prefix_of` input /\ toUpperCase m = toUpperCase p) /\
  (closeParens cfg <> [] ->
   getCloseParenToken (constructor cfg) input = Some tk ->
   type tk = CLOSE_PAREN /\
   exists p m, p ∈ closeParens cfg /\ value tk = toUpperCase p /\
               m `prefix_of` input /\ toUpperCase m = toUpperCase p).
Proof.
  unfold getOpenParenToken, getCloseParenToken. split; intros Hne H;
    (destruct (getTokenOnFirstMatch _ _ _) as [tok|] eqn:E; [|done]);
    first_match E; simpl in H; injection H as <-; simpl; (split; [done|]);
    match goal with Hm : exec _ _ = Some ?m |- _ =>
      apply exec_createParenRegex in Hm as (p & Hp & Hpre & Hu); [|done];
      exists p, m; by rewrite Hu
    end.
Qed.

Lemma bracket_token_canonical_witness :
  (type (mkToken OPEN_PAREN "CASE" "") = OPEN_PAREN /\
   exists p m, p ∈ openParens sampleConfig /\
               value (mkToken OPEN_PAREN "CASE" "") = toUpperCase p /\
               m `prefix_of` txt "case x" /\ toUpperCase m = toUpperCase p) /\
  (type (mkToken CLOSE_PAREN ")" "") = CLOSE_PAREN /\
   exists p m, p ∈ closeParens sampleConfig /\
               value (mkToken CLOSE_PAREN ")" "") = toUpperCase p /\
               m `prefix_of` txt ") x" /\ toUpperCase m = toUpperCase p).
Proof.
  split.
  - apply (proj1 (bracket_token_canonical sampleConfig (txt "case x") _));
      [done | by vm_compute].
  - apply (proj2 (bracket_token_canonical sampleConfig (txt ") x") _));
      [done | by vm_compute].
Defined.

Lemma getNextToken_type_key T input prev tk :
  getNextToken T input prev = Ret (Some tk) ->
  type tk ∈ producedTypes /\ (type tk <> PLACEHOLDER -> key tk = []).
Proof.
  unfold getNextToken, producedTypes. intros H.
  destruct (getWhitespaceToken T input) eqn:E1.
  { simplify_eq. first_match E1. split; [in_list | done]. }
  destruct (getCommentToken T input) eqn:E2.
  { simplify_eq. unfold getCommentToken in E2.
    destruct (getLineCommentToken T input) eqn:E2'; simplify_eq.
    - first_match E2'. split; [in_list | done].
    - first_match E2. split; [in_list | done]. }
  destruct (getStringToken T input) eqn:E3.
  { simplify_eq. first_match E3. split; [in_list | done]. }
  destruct (getOpenParenToken T input) eqn:E4.
  { unfold getOpenParenToken in E4.
    destruct (getTokenOnFirstMatch _ _ _) eqn:E; [|done]. first_match E.
    simpl in E4. simplify_eq. split; [in_list | done]. }
  destruct (getCloseParenToken T input) eqn:E5.
  { unfold getCloseParenToken in E5.
    destruct (getTokenOnFirstMatch _ _ _) eqn:E; [|done]. first_match E.
    simpl in E5. simplify_eq. split; [in_list | done]. }
  destruct (getPlaceholderToken T input) as [[?|]| |] eqn:E6; try done.
  { simplify_eq. apply getPlaceholderToken_type in E6. rewrite E6.
    split; [in_list | done]. }
  destruct (getNumberToken T input) eqn:E7.
  { simplify_eq. first_match E7. split; [in_list | done]. }
  destruct (getReservedWordToken T input prev) eqn:E8.
  { simplify_eq. unfold getReservedWordToken, getToplevelReservedToken,
      getNewlineReservedToken, getPlainReservedToken in E8.
    destruct (afterDot prev); [done|].
    destruct (getTokenOnFirstMatch _ RESERVED_TOPLEVEL _) eqn:F1;
      [|destruct (getTokenOnFirstMatch _ RESERVED_NEWLINE _) eqn:F2;
        [|destruct (getTokenOnFirstMatch _ RESERVED _) eqn:F3; [|done]]];
      simpl in E8; injection E8 as <-;
      match goal with E : getTokenOnFirstMatch _ _ _ = Some _ |- _ => first_match E end;
      (split; [in_list | done]). }
  destruct (getWordToken T input) eqn:E9.
  { simplify_eq. first_match E9. split; [in_list | done]. }
  simplify_eq. first_match H. split; [in_list | done].
Qed.

(** X11: every token that [tokenize] returns has one of thirteen types,
    never the type [comment], and only placeholder tokens carry a key;
    whatever the tokenizer. *)
Theorem token_types_and_keys T fuel input toks :
  tokenize T fuel input = Ret toks ->
  Forall (fun tk => type tk ∈ producedTypes /\ type tk <> COMMENT /\
                    (type tk <> PLACEHOLDER -> key tk = [])) toks.
Proof.
  intros H. apply (tokenize_loop_tokens _ _ _ _ _ _ _) with (3 := H); [|constructor].
  intros input' prev tk _ [Hty Hkey]%getNextToken_type_key.
  split; [done|]. split; [|done].
  intros Hc. rewrite Hc in Hty. unfold producedTypes in Hty.
  repeat (apply elem_of_cons in Hty as [Hty | Hty]; [by vm_compute in Hty|]).
  by apply elem_of_nil in Hty.
Qed.

Lemma token_types_and_keys_witness :
  Forall (fun tk => type tk ∈ producedTypes /\ type tk <> COMMENT /\
                    (type tk <> PLACEHOLDER -> key tk = []))
    [mkToken WORD "a" ""; mkToken OPERATOR "=" ""; mkToken PLACEHOLDER "?1" "1"].
Proof.
  apply (token_types_and_keys sampleTokenizer 3 (txt "a=?1")). by vm_compute.
Defined.

End Brackets.

(** ** Quoted texts *)

Section Strings.

Import Tokenizer tokenTypes.

Lemma opens_chr_Seq c r : c ∈ openers -> opens (Seq (chr c) r).
Proof.
  intros Hc x y. rewrite rmatch_Seq. intros (z & _ & Hz)%list_elem_of_bind.
  apply rmatch_chr in Hz. exists c. by rewrite Hz.
Qed.

Lemma opens_Seq a b : opens a -> opens (Seq a b).
Proof.
  intros Ha x y. rewrite rmatch_Seq. intros (z & _ & Hz)%list_elem_of_bind. eauto.
Qed.

Lemma opens_plus a : opens a -> opens (plus a).
Proof. apply opens_Seq. Qed.

Lemma opens_alts l : l <> [] -> Forall opens l -> opens (alts l).
Proof.
  intros Hne Hall x y [[? _] | (r & Hr & Hy)]%rmatch_alts; [done|].
  rewrite Forall_forall in Hall. by eapply Hall.
Qed.

Lemma opens_quoted c open excluded close :
  c ∈ openers -> opens (quoted (chr c :: open) excluded close).
Proof.
  intros Hc. unfold quoted. apply opens_plus.
  change ((chr c :: open) ++ ?l) with (chr c :: (open ++ l)).
  rewrite seqs_cons by (by destruct open). by apply opens_chr_Seq.
Qed.

Lemma opens_patterns t r : patterns t = Some r -> opens r.
Proof.
  unfold patterns, openers. repeat case_bool_decide; intros [= <-].
  - apply opens_plus, opens_chr_Seq. in_list.
  - apply opens_Seq, opens_chr_Seq. in_list.
  - apply opens_quoted. in_list.
  - apply opens_quoted. in_list.
  - apply opens_quoted. in_list.
Qed.

Lemma knownStringTypes_patterns l :
  knownStringTypes l = true ->
  l <> [] /\
  Forall (fun r => opens r /\ closes r) (map (fun t => default Eps (patterns t)) l).
Proof.
  unfold knownStringTypes. destruct l as [|t0 l0]; [done|].
  set (l := t0 :: l0). intros H. split; [done|].
  apply Forall_fmap, Forall_forall. intros t Ht.
  rewrite forallb_forall in H. specialize (H t). rewrite <- list_elem_of_In in H.
  specialize (H Ht). simpl. destruct (patterns t) as [r|] eqn:E; [|done].
  split; [by eapply opens_patterns | by eapply closes_patterns].
Qed.

(** X12: with a non-empty list of string types that are all in the table,
    a string token is a non-empty piece at the start of the input that
    begins with an opening quote character and either ends with a closing
    quote character or runs to the end of the input; a quotation that is
    not closed is accepted.  With an empty list of string types the pattern
    is empty and the matcher returns a string token with empty text,
    whatever the input. *)
Theorem string_token_shape cfg input tk :
  (knownStringTypes (stringTypes cfg) = true ->
   getStringToken (constructor cfg) input = Some tk ->
   type tk = STRING /\ value tk `prefix_of` input /\
   (exists c, head (value tk) = Some c /\ c ∈ openers) /\
   (value tk = input \/ exists c, last (value tk) = Some c /\ c ∈ closers)) /\
  (stringTypes cfg = [] ->
   getStringToken (constructor cfg) input
   = Some {| type := STRING; value := []; key := [] |}).
Proof.
  split.
  2:{ intros Hnil. unfold getStringToken, getTokenOnFirstMatch.
      change (STRING_REGEX (constructor cfg))
        with (createStringPattern (stringTypes cfg)).
      rewrite Hnil. unfold exec. simpl. by rewrite Nat.sub_diag. }
  intros Hknown H. unfold getStringToken in H. first_match H. simpl.
  change (STRING_REGEX (constructor cfg)) with (createStringPattern (stringTypes cfg)) in H.
  pose proof (knownStringTypes_consuming _ Hknown) as Hcons.
  apply knownStringTypes_patterns in Hknown as [Hne Hall].
  assert (map (fun t => default Eps (patterns t)) (stringTypes cfg) <> []) as Hne'
    by (by destruct (stringTypes cfg)).
  assert (opens (createStringPattern (stringTypes cfg))) as Hopens.
  { apply opens_alts; [done|]. eapply Forall_impl; [exact Hall|]. by intros r [? _]. }
  assert (closes (createStringPattern (stringTypes cfg))) as Hcloses.
  { apply closes_alts; [done|]. eapply Forall_impl; [exact Hall|]. by intros r [_ ?]. }
  split; [done|]. pose proof H as Hex. unfold exec in Hex.
  destruct (rmatch _ _) as [|y l] eqn:E; [done|]. injection Hex as Hx.
  destruct (Hopens (Pos None input) y) as (c & Hc & Hin); [rewrite E; left|].
  destruct input as [|c' s]; simpl in Hc; [done|]. injection Hc as ->.
  pose proof (exec_consuming _ (c :: s) _ Hcons ltac:(done) H) as Hnil.
  destruct (exec_prefix _ _ _ H) as [k Hk].
  split; [rewrite Hk; apply prefix_take|].
  split; [|by eapply exec_closing].
  exists c. split; [|done]. rewrite Hk in Hnil |- *. by destruct k.
Qed.

Lemma string_token_shape_witness :
  (type (mkToken STRING "'it" "") = STRING /\
   value (mkToken STRING "'it" "") `prefix_of` txt "'it" /\
   (exists c, head (value (mkToken STRING "'it" "")) = Some c /\ c ∈ openers) /\
   (value (mkToken STRING "'it" "") = txt "'it" \/
    exists c, last (value (mkToken STRING "'it" "")) = Some c /\ c ∈ closers)) /\
  getStringToken (constructor noPrefixConfig) (txt "'it")
  = Some {| type := STRING; value := []; key := [] |}.
Proof.
  split.
  - apply (string_token_shape sampleConfig (txt "'it")); by vm_compute.
  - apply (string_token_shape noPrefixConfig (txt "'it") (mkToken STRING "" "")).
    reflexivity.
Defined.

(** X13: the matcher of quoted placeholders throws exactly when its pattern
    matches a text whose last character is a parenthesis, an opening square
    bracket or a backslash; in every other case it returns. *)
Theorem quoted_placeholder_throws T input :
  (getStringNamedPlaceholderToken T input = Throw SyntaxError <->
   exists m c, exec (STRING_NAMED_PLACEHOLDER_REGEX T) input = Some m /\
               last m = Some c /\ c ∈ unbalancing) /\
  ((exists tk, getStringNamedPlaceholderToken T input = Ret tk) \/
   getStringNamedPlaceholderToken T input = Throw SyntaxError).
Proof.
  unfold getStringNamedPlaceholderToken, getPlaceholderTokenWithKey,
    getTokenOnFirstMatch, getEscapedPlaceholderKey.
  destruct (exec _ input) as [m|]; simpl;
    [|split; [split; [done | by intros (? & ? & ? & _)] | by eauto]].
  destruct (escapedQuoteRegex (last m)) as [r|[]|] eqn:Eq; simpl.
  - split; [|by eauto]. split; [done|].
    intros (m' & c & [= <-] & Hl & Hc). rewrite Hl in Eq. unfold escapedQuoteRegex in Eq.
    unfold unbalancing in Hc. by rewrite bool_decide_eq_true_2 in Eq.
  - split; [|by right]. split; [|done]. intros _.
    apply escapedQuoteRegex_throws in Eq as (c & Hl & Hc). eauto.
  - exfalso. unfold escapedQuoteRegex in Eq. destruct (last m); [|done].
    by repeat case_match.
Qed.

Lemma quoted_placeholder_throws_witness :
  getStringNamedPlaceholderToken sampleTokenizer (txt "@`a\") = Throw SyntaxError.
Proof.
  apply (proj1 (quoted_placeholder_throws sampleTokenizer (txt "@`a\"))).
  exists (txt "@`a\"), "\". split; [by vm_compute|]. split; [by vm_compute | in_list].
Defined.

End Strings.

(** ** Tokens with an empty text *)

Section NonEmptyTokens.

Import Tokenizer tokenTypes.

Lemma length_concat_nonempty (l : list str) :
  Forall (fun s => s <> []) l -> length l <= length (concat l).
Proof.
  induction 1 as [|s l Hs _ IH]; [done|].
  simpl. rewrite length_app. destruct s; [done|]. simpl. lia.
Qed.

(** A token with an empty text is found again, whatever token came
    before, unless that is a dot. *)
Lemma empty_token_again cfg input prev prev' tk :
  input <> [] ->
  getNextToken (constructor cfg) input prev = Ret (Some tk) -> value tk = [] ->
  afterDot prev' = false ->
  getNextToken (constructor cfg) input prev' = Ret (Some tk).
Proof.
  intros Hne H Hv Hdot. revert H. unfold getNextToken.
  destruct (getWhitespaceToken _ _); [done|].
  destruct (getCommentToken _ _); [done|].
  destruct (getStringToken _ _); [done|].
  destruct (getOpenParenToken _ _); [done|].
  destruct (getCloseParenToken _ _); [done|].
  destruct (getPlaceholderToken _ _) as [[?|]| |]; try done.
  destruct (getNumberToken _ _); [done|].
  unfold getReservedWordToken at 2. rewrite Hdot.
  unfold getReservedWordToken. destruct (afterDot prev) eqn:Hp.
  - intros H. exfalso.
    assert (value tk <> []) as Hnil; [|done].
    destruct (getWordToken _ _) eqn:Ew.
    + injection H as ->. unfold getWordToken in Ew. first_match Ew. simpl.
      eapply exec_consuming; [|exact Hne|eassumption]. done.
    + injection H as H. unfold getOperatorToken in H. first_match H. simpl.
      eapply exec_consuming; [|exact Hne|eassumption]. done.
  - done.
Qed.

(** X24: a token with an empty text stalls the tokenizer.  When
    [getNextToken] returns such a token in front of non-empty input, the
    input is not advanced, the same token is found again at every later
    iteration, and the loop of [tokenize] never ends, whatever bound is put
    on its iterations. *)
Theorem empty_token_stalls cfg input token tk :
  input <> [] ->
  getNextToken (constructor cfg) input token = Ret (Some tk) -> value tk = [] ->
  forall fuel tokens,
    tokenize_loop (constructor cfg) fuel input token tokens = OutOfFuel.
Proof.
  intros Hne H Hv fuel. revert token H.
  induction fuel as [|fuel IH]; intros token H tokens; [by destruct input|].
  rewrite tokenize_loop_step by done. rewrite H. simpl. rewrite Hv. simpl.
  apply IH.
  eapply empty_token_again; [done | exact H | done |].
  unfold afterDot. rewrite Hv. by apply bool_decide_eq_false_2.
Qed.

Lemma empty_token_stalls_witness :
  tokenize_loop (constructor namedOnlyConfig) 1000 (txt "a") None [] = OutOfFuel.
Proof.
  apply (empty_token_stalls namedOnlyConfig (txt "a") None (mkToken PLACEHOLDER "" ""));
    by vm_compute.
Defined.

Lemma tokenize_loop_nonempty cfg fuel input token tokens toks :
  tokenize_loop (constructor cfg) fuel input token tokens = Ret toks ->
  Forall (fun tk => value tk <> []) tokens -> Forall (fun tk => value tk <> []) toks.
Proof.
  revert input token tokens.
  induction fuel as [|fuel IH]; intros input token tokens.
  { destruct input; simpl; [|done]. by intros [= <-]. }
  destruct (decide (input = [])) as [->|Hne]; [by intros [= <-]|].
  intros Hloop. pose proof Hloop as Hloop'. revert Hloop'.
  rewrite tokenize_loop_step by done.
  destruct (getNextToken (constructor cfg) input token) as [[tk|]|e|] eqn:E;
    simpl; try done; [|by apply IH].
  destruct (decide (value tk = [])) as [Hv|Hv].
  { by rewrite (empty_token_stalls _ _ _ _ Hne E Hv) in Hloop. }
  intros Hrest Htokens. apply (IH _ _ _ Hrest).
  apply Forall_app. split; [done|]. by constructor.
Qed.

(** X14: no token that [tokenize] returns has an empty text, so there are
    at most as many tokens as the input has characters; whatever the
    configuration. *)
Theorem tokens_nonempty cfg fuel input toks :
  tokenize (constructor cfg) fuel input = Ret toks ->
  Forall (fun tk => value tk <> []) toks /\ length toks <= length input.
Proof.
  intros H.
  assert (Forall (fun tk => value tk <> []) toks) as Hall
    by (by apply (tokenize_loop_nonempty _ _ _ _ _ _ H)).
  split; [done|].
  apply tokenize_loop_slices in H as (new & slices & -> & <- & Hs).
  simpl in Hall |- *. rewrite (Forall2_length _ _ _ Hs).
  apply length_concat_nonempty.
  clear -Hall Hs. induction Hs as [|tk sl new slices Hsl _ IH]; [constructor|].
  apply Forall_cons in Hall as [Hv Hall]. constructor; [|by apply IH].
  intros ->. apply sliceOf_length in Hsl. by destruct (value tk).
Qed.

Lemma tokens_nonempty_witness :
  Forall (fun tk => value tk <> [])
    [mkToken WORD "a" ""; mkToken OPERATOR "=" ""; mkToken NUMBER "1" ""] /\
  length [mkToken WORD "a" ""; mkToken OPERATOR "=" ""; mkToken NUMBER "1" ""]
  <= length (txt "a=1").
Proof.
  apply (tokens_nonempty sampleConfig 3 (txt "a=1")). by vm_compute.
Defined.

End NonEmptyTokens.

(** ** The formatter: blank input and trimmed output *)

Section Blank.

Import Formatter tokenTypes.

Lemma takeWhile_all p s : Forall (fun c => p c = true) s -> takeWhile p s = s.
Proof. induction 1 as [|c s Hc _ IH]; simpl; [done|]. by rewrite Hc, IH. Qed.

(** X15: a query that is not empty and holds whitespace only is one
    whitespace token; [format] returns the empty string for it and leaves
    the formatter as it was, apart from the token buffer and the index. *)
Theorem blank_query cfg F fuel query :
  tokenizer F = Tokenizer.constructor cfg ->
  query <> [] -> Forall (fun c => isSpace c = true) query ->
  format F (S fuel) query
  = Ret ([], set_index
               (set_tokens F [{| type := WHITESPACE; value := query; key := [] |}]) 0).
Proof.
  intros HT Hne Hblank. unfold format, Tokenizer.tokenize. rewrite HT.
  rewrite tokenize_loop_step by done.
  assert (Tokenizer.getNextToken (Tokenizer.constructor cfg) query None
          = Ret (Some {| type := WHITESPACE; value := query; key := [] |})) as ->.
  { unfold Tokenizer.getNextToken. rewrite getWhitespaceToken_run.
    rewrite (takeWhile_all _ _ Hblank). by destruct query. }
  simpl. unfold substring. rewrite drop_all.
  replace (Tokenizer.tokenize_loop _ fuel [] _ _)
    with (Ret (A := list Token) [{| type := WHITESPACE; value := query; key := [] |}])
    by (by destruct fuel).
  done.
Qed.

Lemma blank_query_witness :
  format (sampleFormatter None) 1 (txt "  ")
  = Ret ([], set_index
               (set_tokens (sampleFormatter None)
                  [{| type := WHITESPACE; value := txt "  "; key := [] |}]) 0).
Proof.
  apply (blank_query sampleConfig (sampleFormatter None) 0 (txt "  "));
    [done | done | repeat constructor].
Defined.

Lemma dropSpaces_head s c : head (dropSpaces s) = Some c -> isSpace c = false.
Proof.
  induction s as [|d s IH]; simpl; [done|].
  destruct (isSpace d) eqn:E; [done|]. simpl. by intros [= <-].
Qed.

Lemma dropSpaces_suffix s : dropSpaces s `suffix_of` s.
Proof.
  induction s as [|d s IH]; simpl; [done|].
  destruct (isSpace d); [by apply suffix_cons_r | done].
Qed.

Lemma trimEnd_last s c : last (trimEnd s) = Some c -> isSpace c = false.
Proof. unfold trimEnd. rewrite last_reverse. apply dropSpaces_head. Qed.

Lemma suffix_last {A} (l k : list A) x :
  l `suffix_of` k -> last l = Some x -> last k = Some x.
Proof. intros [p ->] Hl. rewrite last_app, Hl. done. Qed.

(** X16: the string that [format] returns neither begins nor ends with a
    whitespace character. *)
Theorem format_output_trimmed F fuel query out :
  output (format F fuel query) = Ret out ->
  (forall c, head out = Some c -> isSpace c = false) /\
  (forall c, last out = Some c -> isSpace c = false).
Proof.
  unfold format. destruct (Tokenizer.tokenize _ _ _) as [toks|e|]; simpl; [|done..].
  destruct (getFormattedQueryFromTokens _) as [q F']. simpl. intros [= <-].
  unfold trim. split; intros c.
  - apply dropSpaces_head.
  - intros Hl. apply (trimEnd_last q).
    by eapply suffix_last; [apply dropSpaces_suffix|].
Qed.

Lemma format_output_trimmed_witness :
  (forall c, head (lines ["SELECT"; "  a"]%string) = Some c -> isSpace c = false) /\
  (forall c, last (lines ["SELECT"; "  a"]%string) = Some c -> isSpace c = false).
Proof.
  apply (format_output_trimmed (sampleFormatter None) 5 (txt " select a ")).
  by vm_compute.
Defined.

End Blank.

(** ** The token before *)

Section Previous.

Import Formatter tokenTypes.

Lemma previousNonWhitespaceFrom_last F bound n :
  index F <= length (tokens F) -> 1 <= n -> n + bound = S (index F) ->
  previousNonWhitespaceFrom F bound n
  = last (filter (fun tk => isWhitespaceToken tk = false) (take bound (tokens F))).
Proof.
  intros Hi. revert n. induction bound as [|bound IH]; intros n Hn Hsum.
  - simpl. unfold previousToken. by rewrite bool_decide_eq_false_2 by lia.
  - assert (index F - n = bound) as Hb by lia.
    destruct (lookup_lt_is_Some_2 (tokens F) bound) as [tk Htk]; [lia|].
    assert (previousToken F n = Some tk) as Hp.
    { unfold previousToken. rewrite bool_decide_eq_true_2 by lia. by rewrite Hb. }
    rewrite (take_S_r _ _ _ Htk), filter_app.
    cbn [previousNonWhitespaceFrom]. rewrite Hp. simpl hasType.
    case_bool_decide as E.
    + rewrite filter_cons_False, filter_nil, app_nil_r
        by (unfold isWhitespaceToken; by rewrite bool_decide_eq_true_2).
      apply IH; lia.
    + rewrite filter_cons_True
        by (unfold isWhitespaceToken; by rewrite bool_decide_eq_false_2).
      by rewrite filter_nil, last_snoc.
Qed.

(** X17: while the token at the index is formatted,
    [previousNonWhitespaceToken] returns the nearest token before the index
    that is not whitespace, and the empty object when there is none; it
    never returns a whitespace token. *)
Theorem previous_non_whitespace_token F :
  index F <= length (tokens F) ->
  previousNonWhitespaceToken F
  = last (filter (fun tk => isWhitespaceToken tk = false) (take (index F) (tokens F))) /\
  hasType (previousNonWhitespaceToken F) WHITESPACE = false.
Proof.
  intros Hi. unfold previousNonWhitespaceToken.
  rewrite previousNonWhitespaceFrom_last by lia. split; [done|].
  destruct (last _) as [tk|] eqn:E; [|done].
  apply last_Some_elem_of, list_elem_of_filter in E as [E _]. exact E.
Qed.

Lemma previous_non_whitespace_token_witness :
  previousNonWhitespaceToken (set_index (set_tokens (sampleFormatter None) limitAsTokens) 9)
  = last (filter (fun tk => isWhitespaceToken tk = false) (take 9 limitAsTokens)) /\
  hasType (previousNonWhitespaceToken
             (set_index (set_tokens (sampleFormatter None) limitAsTokens) 9))
    WHITESPACE = false.
Proof.
  apply (previous_non_whitespace_token
           (set_index (set_tokens (sampleFormatter None) limitAsTokens) 9)).
  simpl. lia.
Defined.

End Previous.

(** ** Replacements of the formatter *)

Section Replacements.

Import Formatter tokenTypes.

Lemma collapseFrom_true s : collapseFrom true s = collapse (dropWhile isSpace s).
Proof.
  unfold collapse. induction s as [|c s IH]; simpl; [done|].
  destruct (isSpace c) eqn:E; [done|]. simpl. by rewrite E.
Qed.

Lemma replace_scan_collapse n x :
  length (rest x) < n ->
  replace_scan (plus (Cls isSpace)) [" "] n x = collapse (rest x).
Proof.
  revert x. induction n as [|n IH]; intros [b s] Hn; [simpl in Hn; lia|].
  destruct s as [|c s]; [done|].
  cbn [replace_scan rest]. unfold plus. rewrite rmatch_Seq, rmatch_Cls.
  unfold collapse. simpl collapseFrom. destruct (isSpace c) eqn:E.
  - rewrite bind_one, rmatch_Star_class.
    destruct (greedyClass_head isSpace (Some c) s) as [l ->].
    pose proof (length_dropWhile isSpace s).
    unfold shorter. simpl rest. rewrite bool_decide_eq_true_2 by (simpl; lia).
    rewrite IH by (simpl in *; lia). simpl. by rewrite collapseFrom_true.
  - simpl. f_equal. rewrite IH by (simpl in *; lia). done.
Qed.

Lemma collapseFrom_head s c : head (collapseFrom true s) = Some c -> isSpace c = false.
Proof.
  induction s as [|d s IH]; simpl; [done|].
  destruct (isSpace d) eqn:E; [done|]. by intros [= <-].
Qed.

Lemma collapse_collapseFrom b s : collapse (collapseFrom b s) = collapseFrom b s.
Proof.
  unfold collapse. revert b. induction s as [|c s IH]; intros b; simpl; [done|].
  destruct (isSpace c) eqn:E.
  - destruct b; [apply IH|].
    change (collapseFrom false (" " :: ?l)) with (" " :: collapseFrom true l).
    f_equal. rewrite collapseFrom_true.
    pose proof (collapseFrom_head s) as Hh.
    destruct (collapseFrom true s) as [|d l] eqn:El; [done|].
    simpl dropWhile. rewrite (Hh d) by done. unfold collapse. rewrite <- El. apply IH.
  - simpl. by rewrite E, IH.
Qed.

Lemma equalizeWhitespace_collapse s : equalizeWhitespace s = collapse s.
Proof.
  unfold equalizeWhitespace, replace_g.
  by rewrite replace_scan_collapse by (simpl; lia).
Qed.

(** X18: [equalizeWhitespace] replaces every run of whitespace by one space
    and keeps every other character; applying it again changes nothing. *)
Theorem equalizeWhitespace_collapses s :
  equalizeWhitespace s = collapse s /\
  equalizeWhitespace (equalizeWhitespace s) = equalizeWhitespace s.
Proof.
  split; [apply equalizeWhitespace_collapse|].
  rewrite !equalizeWhitespace_collapse. apply collapse_collapseFrom.
Qed.

Lemma replace_scan_line_feeds rep n x :
  length (rest x) < n ->
  replace_scan (chr LF) rep n x
  = concat (map (fun c => if isChar LF c then rep else [c]) (rest x)).
Proof.
  revert x. induction n as [|n IH]; intros [b s] Hn; [simpl in Hn; lia|].
  destruct s as [|c s]; [done|].
  cbn [replace_scan rest]. unfold chr. rewrite rmatch_Cls.
  simpl map. simpl concat. destruct (isChar LF c).
  - unfold shorter. simpl rest. rewrite bool_decide_eq_true_2 by (simpl; lia).
    by rewrite IH by (simpl in *; lia).
  - simpl. f_equal. by rewrite IH by (simpl in *; lia).
Qed.

(** X19: [indentComment] puts the current indent after every line feed of
    the comment and changes nothing else. *)
Theorem indentComment_line_feeds F comment :
  indentComment F comment
  = concat (map (fun c => if isChar LF c
                          then LF :: Indentation.getIndent (indentation F)
                          else [c]) comment).
Proof.
  unfold indentComment, replace_g. by rewrite replace_scan_line_feeds by (simpl; lia).
Qed.

End Replacements.

(** ** The line of a line comment *)

Section LineCommentBreak.

Import Formatter tokenTypes.

Lemma dropSpaces_app a b :
  dropSpaces (a ++ b)
  = match dropSpaces a with [] => dropSpaces b | _ :: _ => dropSpaces a ++ b end.
Proof.
  induction a as [|c a IH]; simpl; [done|]. by destruct (isSpace c).
Qed.

Lemma dropSpaces_blank s : Forall (fun c => isSpace c = true) s -> dropSpaces s = [].
Proof. induction 1 as [|c s Hc _ IH]; simpl; [done|]. by rewrite Hc. Qed.

Lemma trimEnd_blank s : Forall (fun c => isSpace c = true) s -> trimEnd s = [].
Proof.
  intros H. unfold trimEnd. rewrite dropSpaces_blank; [done|]. by apply Forall_reverse.
Qed.

Lemma dropSpaces_idemp s : dropSpaces (dropSpaces s) = dropSpaces s.
Proof.
  induction s as [|c s IH]; simpl; [done|].
  destruct (isSpace c) eqn:E; [done|]. simpl. by rewrite E.
Qed.

Lemma trimEnd_idemp s : trimEnd (trimEnd s) = trimEnd s.
Proof. unfold trimEnd. by rewrite reverse_involutive, dropSpaces_idemp. Qed.

Lemma trimEnd_app_fixed q y : trimEnd q = q -> trimEnd (q ++ y) = q ++ trimEnd y.
Proof.
  unfold trimEnd. intros Hq. rewrite reverse_app, dropSpaces_app.
  destruct (dropSpaces (reverse y)) as [|c l].
  - by rewrite Hq, app_nil_r.
  - by rewrite reverse_app, reverse_involutive.
Qed.

Lemma trimEnd_prefix s : trimEnd s `prefix_of` s.
Proof.
  apply prefix_suffix_reverse. unfold trimEnd. rewrite reverse_involutive.
  apply dropSpaces_suffix.
Qed.

(** Whatever is put after a text that ends in a line feed, a new line
    added to it keeps that line feed. *)
Lemma addNewline_keeps F q y :
  trimEnd q = q -> exists r, addNewline F (q ++ LF :: y) = q ++ LF :: r.
Proof.
  intros Hq. unfold addNewline. rewrite trimEnd_app_fixed by done.
  destruct (trimEnd_prefix (LF :: y)) as [k Hk].
  destruct (trimEnd (LF :: y)) as [|c l].
  - rewrite app_nil_r. by eexists.
  - injection Hk as <- _. rewrite <- !app_assoc. by eexists.
Qed.

Lemma trimTrailingWhitespace_keeps F q w :
  hasType (previousNonWhitespaceToken F) LINE_COMMENT = true ->
  trimEnd q = q -> Forall (fun c => isSpace c = true) w ->
  trimTrailingWhitespace F (q ++ LF :: w) = q ++ [LF].
Proof.
  intros Hc Hq Hw. unfold trimTrailingWhitespace. rewrite Hc.
  rewrite trimEnd_app_fixed by done.
  rewrite trimEnd_blank by (by constructor). by rewrite app_nil_r.
Qed.

(** The loop of [previousNonWhitespaceToken] reads the token buffer and
    the index only. *)
Lemma previousNonWhitespaceFrom_reads F G bound n :
  tokens F = tokens G -> index F = index G ->
  previousNonWhitespaceFrom F bound n = previousNonWhitespaceFrom G bound n.
Proof.
  intros Ht Hi. revert n. induction bound as [|bound IH]; intros n; simpl;
    unfold previousToken; rewrite Ht, Hi; [done|]. by rewrite IH.
Qed.

Lemma previousNonWhitespaceToken_reads F G :
  tokens F = tokens G -> index F = index G ->
  previousNonWhitespaceToken F = previousNonWhitespaceToken G.
Proof.
  intros Ht Hi. unfold previousNonWhitespaceToken. rewrite Hi.
  by apply previousNonWhitespaceFrom_reads.
Qed.

Lemma after_line_comment F :
  hasType (previousNonWhitespaceToken F) LINE_COMMENT = true ->
  hasType (previousToken F 1) WHITESPACE || hasType (previousToken F 1) LINE_COMMENT = true.
Proof.
  unfold previousNonWhitespaceToken. destruct (index F) as [|i] eqn:Hi; simpl.
  - unfold previousToken. rewrite Hi. by rewrite bool_decide_eq_false_2 by lia.
  - destruct (hasType (previousToken F 1) WHITESPACE); [done|]. by intros ->.
Qed.

Ltac keep_line_feed :=
  repeat match goal with
  | |- context [(?a ++ LF :: ?b) ++ ?c] =>
      rewrite <- (app_assoc a (LF :: b) c); rewrite <- (app_comm_cons b c LF)
  | |- context [(?a ++ [LF]) ++ ?c] =>
      rewrite <- (app_assoc a [LF] c); change ([LF] ++ c) with (LF :: c)
  end;
  first [ by eexists | by apply addNewline_keeps ].

Lemma formatToken_keeps F tok i q w :
  hasType (previousNonWhitespaceToken (set_index F i)) LINE_COMMENT = true ->
  trimEnd q = q -> Forall (fun c => isSpace c = true) w ->
  exists r, fst (formatToken F tok i (q ++ LF :: w)) = q ++ LF :: r.
Proof.
  intros Hc Hq Hw. unfold formatToken.
  set (F' := set_index F i) in *.
  pose proof (trimTrailingWhitespace_keeps F' q w Hc Hq Hw) as Htrim.
  case_bool_decide; [by eexists|].
  case_bool_decide; [unfold formatLineComment; simpl; keep_line_feed|].
  case_bool_decide.
  { unfold formatBlockComment. simpl.
    destruct (addNewline_keeps F' q w Hq) as [r1 ->]. keep_line_feed. }
  case_bool_decide.
  { unfold formatToplevelReservedWord. simpl.
    match goal with |- context [addNewline ?G (q ++ LF :: w)] =>
      destruct (addNewline_keeps G q w Hq) as [r1 ->] end.
    keep_line_feed. }
  case_bool_decide.
  { unfold formatNewlineReservedWord. simpl.
    destruct (addNewline_keeps F' q w Hq) as [r1 ->]. keep_line_feed. }
  case_bool_decide; [unfold formatWithSpaces; simpl; keep_line_feed|].
  case_bool_decide.
  { unfold formatOpeningParentheses.
    apply after_line_comment, orb_true_iff in Hc.
    replace (hasType (previousToken F' 1) WHITESPACE
             || hasType (previousToken F' 1) OPEN_PAREN
             || hasType (previousToken F' 1) LINE_COMMENT) with true
      by (destruct Hc as [-> | ->]; [done | by rewrite orb_true_r]).
    destruct (InlineBlock.isActive _); simpl; keep_line_feed. }
  case_bool_decide.
  { unfold formatClosingParentheses.
    destruct (InlineBlock.isActive _); simpl.
    - unfold formatWithSpaceAfter.
      rewrite trimTrailingWhitespace_keeps; [keep_line_feed | | done..].
      by rewrite (previousNonWhitespaceToken_reads _ F').
    - unfold formatWithSpaces.
      match goal with |- context [addNewline ?G (q ++ LF :: w)] =>
        destruct (addNewline_keeps G q w Hq) as [r1 ->] end.
      keep_line_feed. }
  case_bool_decide.
  { unfold formatPlaceholder. destruct (Params.get _ _). simpl. keep_line_feed. }
  case_bool_decide.
  { unfold formatComma. rewrite Htrim.
    destruct (InlineBlock.isActive _); [simpl; keep_line_feed|].
    destruct (test _ _); simpl; keep_line_feed. }
  case_bool_decide; [unfold formatWithSpaceAfter; rewrite Htrim; simpl; keep_line_feed|].
  case_bool_decide; [unfold formatWithoutSpaces; rewrite Htrim; simpl; keep_line_feed|].
  case_bool_decide; [unfold formatQuerySeparator; rewrite Htrim; simpl; keep_line_feed|].
  unfold formatWithSpaces. simpl. keep_line_feed.
Qed.

(** X20: no token is joined to the line of a line comment.  When the
    nearest token before that is not whitespace is a line comment, the
    query as [formatLineComment] left it keeps, after the next token is
    formatted, the text of the comment and the line feed that follows it;
    whatever the next token is.  The indent is taken to be whitespace. *)
Theorem line_comment_break_kept F0 F comment tok i q :
  Forall (fun c => isSpace c = true) (Indentation.getIndent (indentation F0)) ->
  hasType (previousNonWhitespaceToken (set_index F i)) LINE_COMMENT = true ->
  exists r, fst (formatToken F tok i (formatLineComment F0 comment q))
            = trimEnd (q ++ value comment) ++ LF :: r.
Proof.
  intros Hindent Hc. unfold formatLineComment, addNewline.
  change (?a ++ [LF] ++ ?b) with (a ++ LF :: b).
  apply formatToken_keeps; [done | apply trimEnd_idemp | done].
Qed.

Lemma line_comment_break_kept_witness :
  exists r,
    fst (formatToken
           (set_tokens (sampleFormatter None)
              [mkToken LINE_COMMENT "-- c" ""; mkToken WORD "a" ""])
           (mkToken WORD "a" "") 1
           (formatLineComment (sampleFormatter None) (mkToken LINE_COMMENT "-- c" "") []))
    = trimEnd ([] ++ value (mkToken LINE_COMMENT "-- c" "")) ++ LF :: r.
Proof.
  apply (line_comment_break_kept (sampleFormatter None)
           (set_tokens (sampleFormatter None)
              [mkToken LINE_COMMENT "-- c" ""; mkToken WORD "a" ""])).
  - by vm_compute.
  - by vm_compute.
Defined.

End LineCommentBreak.

(** ** Reserved phrases *)

Section Phrases.

Import Tokenizer tokenTypes.

Lemma rmatch_plus_space x y :
  y ∈ rmatch (plus (Cls isSpace)) x ->
  exists ws, rest x = ws ++ rest y /\ ws <> [] /\ Forall (fun c => isSpace c = true) ws.
Proof.
  unfold plus. rewrite rmatch_Seq. intros (z & Hy & Hz)%list_elem_of_bind.
  destruct x as [b [|c s]]; [by apply elem_of_nil in Hz|].
  rewrite rmatch_Cls in Hz. destruct (isSpace c) eqn:Hc; [|by apply elem_of_nil in Hz].
  apply list_elem_of_singleton in Hz as ->.
  apply (rmatch_reads (fun c => isSpace c = true)) in Hy as (p & Hp & HP); [|by simpl].
  simpl in Hp. exists (c :: p). simpl. rewrite Hp. by repeat constructor.
Qed.

Lemma rmatch_reservedWordPattern w x y :
  y ∈ rmatch (reservedWordPattern w) x ->
  exists m, rest x = m ++ rest y /\ spelled w m.
Proof.
  unfold reservedWordPattern.
  set (f := fun c => if isChar " " c then plus (Cls isSpace) else chr_i c).
  assert (forall c x y, y ∈ rmatch (f c) x ->
            exists m, rest x = m ++ rest y /\ forall w' m', spelled w' m' ->
                                                       spelled (c :: w') (m ++ m')) as Hf.
  { clear. intros c x y. unfold f. destruct (isChar " " c) eqn:Hc.
    - intros (ws & Hws & Hne & Hall)%rmatch_plus_space. exists ws. split; [done|].
      intros w' m' Hs. by apply spelled_space.
    - intros (d & Hd & Hu)%rmatch_chr_i. exists [d]. split; [done|].
      intros w' m' Hs. by apply spelled_char. }
  revert x. induction w as [|c w IH]; intros x.
  - intros ->%list_elem_of_singleton. exists []. split; [done | constructor].
  - destruct w as [|c' w].
    + intros (m & Hm & Hs)%Hf. exists m. split; [done|].
      rewrite <- (app_nil_r m). apply Hs. constructor.
    + change (map f (c :: c' :: w)) with (f c :: map f (c' :: w)).
      rewrite seqs_cons by done. rewrite rmatch_Seq.
      intros (z & Hy & Hz)%list_elem_of_bind.
      apply Hf in Hz as (m & Hm & Hs). apply IH in Hy as (m' & Hm' & Hs').
      exists (m ++ m'). split; [by rewrite Hm, Hm', app_assoc | by apply Hs].
Qed.

Lemma upperChar_space c : isSpace (upperChar c) = isSpace c.
Proof. destruct c as [[] [] [] [] [] [] [] []]; by vm_compute. Qed.

Lemma upperChar_blank c : isChar " " c = true -> upperChar c = " ".
Proof. intros ->%bool_decide_eq_true. done. Qed.

Lemma collapseFrom_blank b ws s :
  ws <> [] -> Forall (fun c => isSpace c = true) ws ->
  collapseFrom b (ws ++ s) = (if b then [] else [" "]) ++ collapseFrom true s.
Proof.
  intros Hne Hall. revert b. induction Hall as [|c ws Hc Hall IH]; intros b; [done|].
  simpl. rewrite Hc. destruct ws as [|c' ws].
  - by destruct b.
  - rewrite IH by done. by destruct b.
Qed.

Lemma toUpperCase_blank ws :
  Forall (fun c => isSpace c = true) ws ->
  Forall (fun c => isSpace c = true) (toUpperCase ws).
Proof.
  intros H. apply Forall_fmap. eapply Forall_impl; [exact H|].
  intros c Hc. simpl. by rewrite upperChar_space.
Qed.

Lemma spelled_collapse w m b :
  plainSpaces w = true -> spelled w m ->
  collapseFrom b (toUpperCase m) = collapseFrom b (toUpperCase w).
Proof.
  intros Hw Hs. revert b. induction Hs as [|c d w m Hc Hu Hs IH|c ws w m Hc Hne Hall Hs IH];
    intros b; [done| |];
    simpl in Hw; apply andb_true_iff in Hw as [Hcw Hw]; specialize (IH Hw).
  - rewrite Hc, orb_false_r in Hcw. apply negb_true_iff in Hcw.
    simpl. rewrite Hu, upperChar_space, Hcw. by rewrite IH.
  - rewrite toUpperCase_app.
    rewrite collapseFrom_blank; [|by destruct ws | by apply toUpperCase_blank].
    simpl. rewrite (upperChar_blank c Hc). simpl. rewrite IH. by destruct b.
Qed.

Lemma collapseFrom_toUpperCase b s :
  collapseFrom b (toUpperCase s) = toUpperCase (collapseFrom b s).
Proof.
  revert b. induction s as [|c s IH]; intros b; simpl; [done|].
  rewrite upperChar_space. destruct (isSpace c); [destruct b|]; simpl; by rewrite IH.
Qed.

Lemma exec_createReservedWordRegex l input m :
  l <> [] -> exec (createReservedWordRegex l) input = Some m ->
  exists w, w ∈ l /\ spelled w m.
Proof.
  intros Hne (y & Hy & Hin & _)%exec_Seq_Bnd.
  apply rmatch_alts in Hy as [[Hnil _] | (r & Hr & Hy)]; [by destruct l|].
  apply list_elem_of_fmap in Hr as (w & -> & Hw).
  apply rmatch_reservedWordPattern in Hy as (m' & Hm' & Hs). simpl in Hm'.
  rewrite Hm' in Hin. apply app_inv_tail in Hin as <-. eauto.
Qed.

(** X21: when the reserved words of the configuration hold no whitespace
    other than spaces, the text of a reserved-word token with its runs of
    whitespace equalized, which is what the formatter prints for a toplevel
    or newline reserved word, is a configured phrase of the class of the
    token in upper case, with single spaces; whatever letter case and
    whitespace the input has. *)
Theorem reserved_phrase_canonical cfg input prev tk :
  reservedToplevelWords cfg <> [] -> reservedNewlineWords cfg <> [] ->
  reservedWords cfg <> [] ->
  Forall (fun w => plainSpaces w = true)
    (reservedToplevelWords cfg ++ reservedNewlineWords cfg ++ reservedWords cfg) ->
  getReservedWordToken (constructor cfg) input prev = Some tk ->
  exists w,
    ((type tk = RESERVED_TOPLEVEL /\ w ∈ reservedToplevelWords cfg) \/
     (type tk = RESERVED_NEWLINE /\ w ∈ reservedNewlineWords cfg) \/
     (type tk = RESERVED /\ w ∈ reservedWords cfg)) /\
    Formatter.equalizeWhitespace (value tk)
    = toUpperCase (Formatter.equalizeWhitespace w).
Proof.
  intros Ht Hn Hp Hplain.
  apply Forall_app in Hplain as [Hpt Hplain]. apply Forall_app in Hplain as [Hpn Hpp].
  rewrite Forall_forall in Hpt, Hpn, Hpp.
  unfold getReservedWordToken, getToplevelReservedToken, getNewlineReservedToken,
    getPlainReservedToken.
  destruct (afterDot prev); [done|].
  destruct (getTokenOnFirstMatch _ RESERVED_TOPLEVEL _) eqn:E1;
    [|destruct (getTokenOnFirstMatch _ RESERVED_NEWLINE _) eqn:E2;
      [|destruct (getTokenOnFirstMatch _ RESERVED _) eqn:E3; [|done]]];
    simpl; intros [= <-];
    match goal with E : getTokenOnFirstMatch _ _ _ = Some _ |- _ => first_match E end;
    simpl;
    match goal with H : exec _ _ = Some ?m |- _ =>
      apply exec_createReservedWordRegex in H as (w & Hw & Hs); [|done]
    end;
    exists w; (split; [by eauto|]);
    rewrite !equalizeWhitespace_collapse; unfold collapse;
    rewrite <- collapseFrom_toUpperCase; apply spelled_collapse; auto.
Qed.

Lemma reserved_phrase_canonical_witness :
  exists w,
    ((type (mkToken RESERVED_TOPLEVEL "ORDER  BY" "") = RESERVED_TOPLEVEL /\
      w ∈ reservedToplevelWords sampleConfig) \/
     (type (mkToken RESERVED_TOPLEVEL "ORDER  BY" "") = RESERVED_NEWLINE /\
      w ∈ reservedNewlineWords sampleConfig) \/
     (type (mkToken RESERVED_TOPLEVEL "ORDER  BY" "") = RESERVED /\
      w ∈ reservedWords sampleConfig)) /\
    Formatter.equalizeWhitespace (value (mkToken RESERVED_TOPLEVEL "ORDER  BY" ""))
    = toUpperCase (Formatter.equalizeWhitespace w).
Proof.
  apply (reserved_phrase_canonical sampleConfig (txt "order  by x") None);
    [done | done | done | | by vm_compute].
  repeat constructor.
Defined.

End Phrases.

(** ** Parameters without a cursor *)

Section MappingParams.

Import Formatter tokenTypes.

Lemma printed_without_cursor P tk :
  (forall l, Params.params P <> Some (Sequence l)) -> snd (printed P tk) = P.
Proof.
  intros HP. unfold printed, Params.get.
  repeat case_bool_decide; try done.
  destruct (Params.params P) as [[m|l]|] eqn:E; [|by destruct (HP l)|done].
  by destruct (m !! key tk).
Qed.

(** X22: only a sequence of parameters has a cursor.  With a mapping, or
    without parameters, formatting any tokens leaves the parameters object
    as it was, and each placeholder prints the entry of the mapping under
    its key, or its own text when there is none. *)
Theorem params_without_cursor F l i q :
  (forall seq, Params.params (params F) <> Some (Sequence seq)) ->
  params (snd (forEach l i F q)) = params F /\
  forall tk query,
    fst (formatPlaceholder F tk query)
    = query ++ match Params.params (params F) with
               | Some (Mapping m) => default (value tk) (m !! key tk)
               | _ => value tk
               end ++ [" "].
Proof.
  intros HP. split.
  - rewrite forEach_params. induction l as [|tk l IH]; [done|].
    simpl. by rewrite printed_without_cursor.
  - intros tk query. unfold formatPlaceholder, Params.get.
    destruct (Params.params (params F)) as [[m|seq]|] eqn:E; [|by destruct (HP seq)|done].
    by destruct (m !! key tk).
Qed.

Lemma params_without_cursor_witness :
  params (snd (forEach [mkToken PLACEHOLDER "@a" "a"] 0
                 (sampleFormatter (Some (Mapping {[ txt "a" := txt "1" ]}))) []))
  = params (sampleFormatter (Some (Mapping {[ txt "a" := txt "1" ]}))) /\
  forall tk query,
    fst (formatPlaceholder (sampleFormatter (Some (Mapping {[ txt "a" := txt "1" ]})))
           tk query)
    = query ++ match Params.params
                       (params (sampleFormatter (Some (Mapping {[ txt "a" := txt "1" ]}))))
               with
               | Some (Mapping m) => default (value tk) (m !! key tk)
               | _ => value tk
               end ++ [" "].
Proof.
  apply (params_without_cursor
           (sampleFormatter (Some (Mapping {[ txt "a" := txt "1" ]})))).
  intros seq. simpl. done.
Defined.

End MappingParams.

(** ** Letter case of the input *)

Section LetterCase.

Import Tokenizer tokenTypes.

Lemma bind_fmap_upper (f : pos -> list pos) l :
  (forall x, f (upperPos x) = map upperPos (f x)) ->
  map upperPos l ≫= f = map upperPos (l ≫= f).
Proof.
  intros Hf. induction l as [|x l IH]; [done|].
  change (f (upperPos x) ++ (map upperPos l ≫= f) = map upperPos (f x ++ (l ≫= f))).
  by rewrite Hf, IH, map_app.
Qed.

Lemma shorter_upper x y : shorter (upperPos x) (upperPos y) = shorter x y.
Proof. unfold shorter, upperPos. simpl. by rewrite !length_toUpperCase. Qed.

Lemma filter_shorter_upper x l :
  filter (fun y => shorter (upperPos x) y = true) (map upperPos l)
  = map upperPos (filter (fun y => shorter x y = true) l).
Proof.
  induction l as [|y l IH]; [done|].
  simpl. rewrite !filter_cons, IH, shorter_upper.
  by destruct (decide (shorter x y = true)).
Qed.

Lemma iter_greedy_upper step n x :
  (forall x, step (upperPos x) = map upperPos (step x)) ->
  iter_greedy step n (upperPos x) = map upperPos (iter_greedy step n x).
Proof.
  intros Hs. revert x. induction n as [|n IH]; intros x; [done|].
  simpl. rewrite Hs, filter_shorter_upper, bind_fmap_upper by done.
  by rewrite map_app.
Qed.

Lemma iter_lazy_upper step n x :
  (forall x, step (upperPos x) = map upperPos (step x)) ->
  iter_lazy step n (upperPos x) = map upperPos (iter_lazy step n x).
Proof.
  intros Hs. revert x. induction n as [|n IH]; intros x; [done|].
  simpl. by rewrite Hs, filter_shorter_upper, bind_fmap_upper.
Qed.

Lemma upperChar_word c : isWordChar (upperChar c) = isWordChar c.
Proof. destruct c as [[] [] [] [] [] [] [] []]; by vm_compute. Qed.

Lemma upperChar_idemp c : upperChar (upperChar c) = upperChar c.
Proof. destruct c as [[] [] [] [] [] [] [] []]; by vm_compute. Qed.

(** A case-blind pattern matches the upper-cased text as it matches the
    text. *)
Lemma rmatch_upper r :
  caseBlind r -> forall x, rmatch r (upperPos x) = map upperPos (rmatch r x).
Proof.
  unfold caseBlind.
  induction r as [|p|a IHa b IHb|a IHa b IHb|a IHa|a IHa| | |]; simpl; intros Hc x.
  - done.
  - destruct x as [b [|c s]]; [done|]. simpl. rewrite Hc. by destruct (p c).
  - destruct Hc as [Ha Hb]. rewrite IHa by done. apply bind_fmap_upper. auto.
  - destruct Hc as [Ha Hb]. by rewrite IHa, IHb, map_app.
  - rewrite length_toUpperCase. apply iter_greedy_upper. auto.
  - rewrite length_toUpperCase. apply iter_lazy_upper. auto.
  - assert (wordBefore (upperPos x) = wordBefore x) as ->.
    { unfold wordBefore. simpl. destruct (before x); [apply upperChar_word | done]. }
    assert (wordAfter (upperPos x) = wordAfter x) as ->.
    { unfold wordAfter. simpl. destruct (rest x); [done | apply upperChar_word]. }
    by destruct (xorb _ _).
  - by destruct (before x).
  - by destruct (rest x).
Qed.

Lemma exec_upper r input :
  caseBlind r -> exec r (toUpperCase input) = option_map toUpperCase (exec r input).
Proof.
  intros Hr. unfold exec.
  change (Pos None (toUpperCase input)) with (upperPos (Pos None input)).
  rewrite rmatch_upper by done.
  destruct (rmatch r (Pos None input)) as [|y l]; [done|].
  simpl. rewrite !length_toUpperCase. unfold toUpperCase. by rewrite fmap_take.
Qed.

Lemma caseBlind_seqs l : Forall caseBlind l -> caseBlind (seqs l).
Proof.
  induction 1 as [|a l Ha _ IH]; [done|].
  destruct l as [|b l]; [done|]. rewrite seqs_cons by done. by split.
Qed.

Lemma caseBlind_alts l : Forall caseBlind l -> caseBlind (alts l).
Proof.
  induction 1 as [|a l Ha _ IH]; [done|].
  destruct l as [|b l]; [done|]. rewrite alts_cons by done. by split.
Qed.

Lemma caseBlind_chr_i c : caseBlind (chr_i c).
Proof. intros d. simpl. by rewrite upperChar_idemp. Qed.

Lemma caseBlind_lit_i s : caseBlind (lit_i s).
Proof.
  apply caseBlind_seqs, Forall_fmap, Forall_forall. intros c _. apply caseBlind_chr_i.
Qed.

Lemma caseBlind_createReservedWordRegex l : caseBlind (createReservedWordRegex l).
Proof.
  split; [|done]. apply caseBlind_alts, Forall_fmap, Forall_forall. intros w _.
  apply caseBlind_seqs, Forall_fmap, Forall_forall. intros c _. simpl.
  destruct (isChar " " c); [|apply caseBlind_chr_i].
  split; intros d; apply upperChar_space.
Qed.

Lemma caseBlind_createParenRegex l : caseBlind (createParenRegex l).
Proof.
  apply caseBlind_alts, Forall_fmap, Forall_forall. intros p _. simpl.
  unfold escapeParen. case_bool_decide; [apply caseBlind_lit_i|].
  apply caseBlind_seqs. repeat constructor. apply caseBlind_lit_i.
Qed.

Lemma upper_match_upper ty r input :
  caseBlind r ->
  upperValue (getTokenOnFirstMatch (toUpperCase input) ty r)
  = upperValue (getTokenOnFirstMatch input ty r).
Proof.
  intros Hr. unfold getTokenOnFirstMatch. rewrite exec_upper by done.
  destruct (exec r input); [|done]. simpl. by rewrite toUpperCase_idemp.
Qed.

Lemma upperValue_or a b :
  upperValue (match a with Some tk => Some tk | None => b end)
  = match upperValue a with Some tk => Some tk | None => upperValue b end.
Proof. by destruct a. Qed.

Lemma getReservedWordToken_upper cfg input prev :
  getReservedWordToken (constructor cfg) (toUpperCase input) prev
  = getReservedWordToken (constructor cfg) input prev.
Proof.
  unfold getReservedWordToken, getToplevelReservedToken, getNewlineReservedToken,
    getPlainReservedToken.
  destruct (afterDot prev); [done|].
  rewrite !upperValue_or.
  change (RESERVED_TOPLEVEL_REGEX (constructor cfg))
    with (createReservedWordRegex (reservedToplevelWords cfg)).
  change (RESERVED_NEWLINE_REGEX (constructor cfg))
    with (createReservedWordRegex (reservedNewlineWords cfg)).
  change (RESERVED_PLAIN_REGEX (constructor cfg))
    with (createReservedWordRegex (reservedWords cfg)).
  by rewrite !upper_match_upper by apply caseBlind_createReservedWordRegex.
Qed.

Lemma getParenToken_upper ty parens input :
  upperValue (getTokenOnFirstMatch (toUpperCase input) ty (createParenRegex parens))
  = upperValue (getTokenOnFirstMatch input ty (createParenRegex parens)).
Proof. apply upper_match_upper, caseBlind_createParenRegex. Qed.

(** X25: reserved words and brackets are recognised without regard to
    letter case: on two inputs that are equal up to letter case the
    reserved-word matcher returns the same token, and so do the two bracket
    matchers; whatever the configuration. *)
Theorem reserved_words_ignore_case cfg input input' prev :
  toUpperCase input = toUpperCase input' ->
  getReservedWordToken (constructor cfg) input prev
  = getReservedWordToken (constructor cfg) input' prev /\
  getOpenParenToken (constructor cfg) input = getOpenParenToken (constructor cfg) input' /\
  getCloseParenToken (constructor cfg) input = getCloseParenToken (constructor cfg) input'.
Proof.
  intros H. split; [|split].
  - by rewrite <- (getReservedWordToken_upper cfg input),
               <- (getReservedWordToken_upper cfg input'), H.
  - unfold getOpenParenToken.
    change (OPEN_PAREN_REGEX (constructor cfg)) with (createParenRegex (openParens cfg)).
    by rewrite <- (getParenToken_upper _ _ input), <- (getParenToken_upper _ _ input'), H.
  - unfold getCloseParenToken.
    change (CLOSE_PAREN_REGEX (constructor cfg)) with (createParenRegex (closeParens cfg)).
    by rewrite <- (getParenToken_upper _ _ input), <- (getParenToken_upper _ _ input'), H.
Qed.

Lemma reserved_words_ignore_case_witness :
  getReservedWordToken sampleTokenizer (txt "Select a") None
  = getReservedWordToken sampleTokenizer (txt "sELECT A") None /\
  getOpenParenToken sampleTokenizer (txt "Select a")
  = getOpenParenToken sampleTokenizer (txt "sELECT A") /\
  getCloseParenToken sampleTokenizer (txt "Select a")
  = getCloseParenToken sampleTokenizer (txt "sELECT A").
Proof.
  apply (reserved_words_ignore_case sampleConfig (txt "Select a") (txt "sELECT A") None).
  by vm_compute.
Defined.

End LetterCase.

(** ** Plain tokens *)

Section PlainTokens.

Import Formatter tokenTypes.





End PlainTokens.

(** ** The layout of the output *)

Section Layout.

Import Formatter tokenTypes.

Lemma strip_nil_blank s : strip s = [] -> blank s.
Proof.
  induction s as [|c s IH]; [constructor|]. unfold strip.
  rewrite filter_cons. destruct (decide (isSpace c = false)) as [E|E]; [done|].
  intros H. constructor; [by destruct (isSpace c) | by apply IH].
Qed.

Lemma dropSpaces_split s : exists a, blank a /\ s = a ++ dropSpaces s.
Proof.
  induction s as [|c s (a & Ha & IH)]; [exists []; split; [constructor | done]|].
  simpl. destruct (isSpace c) eqn:E; [|exists []; split; [constructor | done]].
  exists (c :: a). split; [by constructor|]. simpl. by rewrite <- IH.
Qed.

Lemma trimEnd_split s : exists b, blank b /\ s = trimEnd s ++ b.
Proof.
  destruct (dropSpaces_split (reverse s)) as (a & Ha & H).
  exists (reverse a). split; [by apply Forall_reverse|].
  unfold trimEnd. by rewrite <- reverse_app, <- H, reverse_involutive.
Qed.

Lemma trim_split s : exists a b, blank a /\ blank b /\ s = a ++ trim s ++ b.
Proof.
  destruct (trimEnd_split s) as (b & Hb & H).
  destruct (dropSpaces_split (trimEnd s)) as (a & Ha & H').
  exists a, b. repeat split; [done..|].
  unfold trim. by rewrite app_assoc, <- H'.
Qed.

Lemma trimEnd_fixed s :
  (forall c, last s = Some c -> isSpace c = false) -> trimEnd s = s.
Proof.
  intros H. unfold trimEnd.
  destruct (reverse s) as [|c r] eqn:E.
  - by apply (f_equal reverse) in E; rewrite reverse_involutive in E.
  - assert (last s = Some c) as Hc by (by rewrite <- head_reverse, E).
    simpl. rewrite (H c Hc), <- E. apply reverse_involutive.
Qed.

Lemma trimEnd_trim t : trimEnd (trim t) = trim t.
Proof.
  apply trimEnd_fixed. intros c Hc. apply (trimEnd_last t).
  eapply suffix_last; [apply dropSpaces_suffix | exact Hc].
Qed.

Lemma trimEnd_app_blank q w : blank w -> trimEnd (q ++ w) = trimEnd q.
Proof.
  intros Hw. unfold trimEnd. rewrite reverse_app, dropSpaces_app.
  by rewrite dropSpaces_blank by (by apply Forall_reverse).
Qed.

Lemma trimEnd_app_text q u : u <> [] -> trimEnd u = u -> trimEnd (q ++ u) = q ++ u.
Proof.
  intros Hu Hfix. apply trimEnd_fixed. intros c Hc.
  apply (trimEnd_last u). rewrite Hfix.
  rewrite last_app in Hc. destruct (last u) eqn:E; [done|].
  by apply last_None in E.
Qed.

Lemma laidOut_blank ts q w : laidOut ts q -> blank w -> laidOut ts (q ++ w).
Proof.
  intros H Hw. destruct H as [w0 H0|ts q t w0 H H0].
  - apply laidOut_nil. by apply Forall_app.
  - rewrite <- !app_assoc. apply laidOut_snoc; [done | by apply Forall_app].
Qed.

(** A text put after the output is laid out after the texts before it. *)
Lemma laidOut_text ts q v : laidOut ts q -> laidOut (ts ++ [v]) (q ++ v).
Proof.
  intros H. destruct (trim_split v) as (a & b & Ha & Hb & Hv).
  rewrite Hv at 2. rewrite app_assoc.
  apply laidOut_snoc; [by apply laidOut_blank | done].
Qed.

(** Trimming the output leaves the layout as it is. *)
Lemma laidOut_trimEnd ts q : laidOut ts q -> laidOut ts (trimEnd q).
Proof.
  induction 1 as [w Hw|ts q t w H IH Hw].
  - rewrite trimEnd_blank by done. apply laidOut_nil. constructor.
  - rewrite app_assoc, trimEnd_app_blank by done.
    destruct (trim t) as [|c u] eqn:E.
    + rewrite app_nil_r.
      replace (trimEnd q) with (trimEnd q ++ trim t ++ []) by (by rewrite E, app_nil_r).
      apply laidOut_snoc; [done | constructor].
    + rewrite trimEnd_app_text; [|done | by rewrite <- E, trimEnd_trim].
      replace (q ++ c :: u) with (q ++ trim t ++ []) by (by rewrite E, app_nil_r).
      apply laidOut_snoc; [done | constructor].
Qed.

Lemma laidOut_dropSpaces ts q : laidOut ts q -> laidOut ts (dropSpaces q).
Proof.
  induction 1 as [w Hw|ts q t w H IH Hw].
  - rewrite dropSpaces_blank by done. apply laidOut_nil. constructor.
  - rewrite dropSpaces_app. destruct (dropSpaces q) as [|c u] eqn:E.
    + rewrite dropSpaces_app. unfold trim at 1 2. rewrite dropSpaces_idemp.
      fold (trim t). destruct (trim t) as [|c u] eqn:Et.
      * rewrite dropSpaces_blank by done.
        replace (@nil ascii) with (@nil ascii ++ trim t ++ []) by (by rewrite Et).
        apply laidOut_snoc; [done | constructor].
      * rewrite <- Et. apply (laidOut_snoc ts [] t w); done.
    + by apply (laidOut_snoc ts (c :: u) t w).
Qed.

Lemma laidOut_trim ts q : laidOut ts q -> laidOut ts (trim q).
Proof. intros H. by apply laidOut_dropSpaces, laidOut_trimEnd. Qed.

Lemma blank_getIndent I : blank (Indentation.indent I) -> blank (Indentation.getIndent I).
Proof.
  intros H. unfold Indentation.getIndent.
  induction (length (Indentation.indentTypes I)) as [|n IH]; [constructor|].
  simpl. by apply Forall_app.
Qed.

(** The lines of a comment, with the indent after each line feed, are laid
    out one by one. *)
Lemma laidOut_lines ind ts q cur s :
  blank ind -> laidOut ts q ->
  laidOut (ts ++ linesFrom cur s)
    (q ++ cur ++ concat (map (fun c => if isChar LF c then LF :: ind else [c]) s)).
Proof.
  intros Hind. revert ts q cur. induction s as [|c s IH]; intros ts q cur H.
  - simpl. rewrite app_nil_r. by apply laidOut_text.
  - simpl. destruct (isChar LF c) eqn:E.
    + apply bool_decide_eq_true_1 in E. subst c.
      change (ts ++ (cur ++ [LF]) :: linesFrom [] s)
        with (ts ++ [cur ++ [LF]] ++ linesFrom [] s).
      change ((LF :: ind) ++ ?l) with ([LF] ++ ind ++ [] ++ l).
      rewrite !app_assoc. rewrite <- (app_assoc _ [] _).
      apply IH. apply laidOut_blank; [|done].
      rewrite <- app_assoc. by apply laidOut_text.
    + change ([c] ++ ?l) with ([c] ++ l). rewrite (app_assoc cur [c]).
      by apply IH.
Qed.

Section OneFormatter.

Variable F : t.
Hypothesis indent_blank : blank (Indentation.indent (indentation F)).

Lemma laidOut_addNewline ts q : laidOut ts q -> laidOut ts (addNewline F q).
Proof.
  intros H. unfold addNewline. apply laidOut_blank; [by apply laidOut_trimEnd|].
  apply Forall_app. split; [by repeat constructor | by apply blank_getIndent].
Qed.

Lemma laidOut_trimTrailingWhitespace ts q :
  laidOut ts q -> laidOut ts (trimTrailingWhitespace F q).
Proof.
  intros H. unfold trimTrailingWhitespace. destruct (hasType _ _).
  - apply laidOut_blank; [by apply laidOut_trimEnd | by repeat constructor].
  - by apply laidOut_trimEnd.
Qed.

Lemma laidOut_spaced ts q v : laidOut ts q -> laidOut (ts ++ [v]) (q ++ v ++ [" "]).
Proof.
  intros H. rewrite app_assoc.
  apply laidOut_blank; [by apply laidOut_text | by repeat constructor].
Qed.

Lemma laidOut_formatLineComment ts tk q :
  laidOut ts q -> laidOut (ts ++ [value tk]) (formatLineComment F tk q).
Proof. intros H. by apply laidOut_addNewline, laidOut_text. Qed.

Lemma laidOut_formatBlockComment ts tk q :
  laidOut ts q ->
  laidOut (ts ++ linesFrom [] (value tk)) (formatBlockComment F tk q).
Proof.
  intros H. unfold formatBlockComment. apply laidOut_addNewline.
  unfold indentComment, replace_g.
  rewrite replace_scan_line_feeds by (simpl; lia).
  apply (laidOut_lines _ ts (addNewline F q) []);
    [by apply blank_getIndent | by apply laidOut_addNewline].
Qed.

Lemma laidOut_formatNewlineReservedWord ts tk q :
  laidOut ts q ->
  laidOut (ts ++ [equalizeWhitespace (value tk)]) (formatNewlineReservedWord F tk q).
Proof. intros H. by apply laidOut_spaced, laidOut_addNewline. Qed.

Lemma laidOut_formatWithSpaces ts tk q :
  laidOut ts q -> laidOut (ts ++ [value tk]) (formatWithSpaces tk q).
Proof. apply laidOut_spaced. Qed.

Lemma laidOut_formatWithSpaceAfter ts tk q :
  laidOut ts q -> laidOut (ts ++ [value tk]) (formatWithSpaceAfter F tk q).
Proof. intros H. by apply laidOut_spaced, laidOut_trimTrailingWhitespace. Qed.

Lemma laidOut_formatWithoutSpaces ts tk q :
  laidOut ts q -> laidOut (ts ++ [value tk]) (formatWithoutSpaces F tk q).
Proof. intros H. by apply laidOut_text, laidOut_trimTrailingWhitespace. Qed.

Lemma laidOut_formatQuerySeparator ts tk q :
  laidOut ts q -> laidOut (ts ++ [value tk]) (formatQuerySeparator F tk q).
Proof.
  intros H. unfold formatQuerySeparator.
  rewrite (app_assoc [LF]), (app_assoc _ _ [LF]), (app_assoc _ [LF]).
  apply laidOut_blank; [|by repeat constructor].
  apply laidOut_text, laidOut_blank; [|by repeat constructor].
  by apply laidOut_trimTrailingWhitespace.
Qed.

Lemma laidOut_formatComma ts tk q :
  laidOut ts q -> laidOut (ts ++ [value tk]) (formatComma F tk q).
Proof.
  intros H. unfold formatComma.
  assert (laidOut (ts ++ [value tk])
            (trimTrailingWhitespace F q ++ value tk ++ [" "])) as H'
    by (by apply laidOut_spaced, laidOut_trimTrailingWhitespace).
  destruct (InlineBlock.isActive _); [done|].
  destruct (test _ _); [done | by apply laidOut_addNewline].
Qed.

Lemma laidOut_formatPlaceholder ts tk q :
  laidOut ts q ->
  laidOut (ts ++ [toText (fst (Params.get (params F) tk))])
    (fst (formatPlaceholder F tk q)).
Proof.
  intros H. unfold formatPlaceholder. destruct (Params.get _ _) as [v P].
  by apply laidOut_spaced.
Qed.

End OneFormatter.

Lemma laidOut_formatToplevelReservedWord F ts tk q :
  blank (Indentation.indent (indentation F)) -> laidOut ts q ->
  laidOut (ts ++ [equalizeWhitespace (value tk)])
    (fst (formatToplevelReservedWord F tk q)).
Proof.
  intros Hind H. unfold formatToplevelReservedWord. cbn [fst].
  apply laidOut_addNewline; [simpl; by rewrite indent_decreaseTopLevel|].
  apply laidOut_text.
  apply laidOut_addNewline; [simpl; by rewrite indent_decreaseTopLevel | done].
Qed.

Lemma laidOut_formatOpeningParentheses F ts tk q :
  blank (Indentation.indent (indentation F)) -> laidOut ts q ->
  laidOut (ts ++ [value tk]) (fst (formatOpeningParentheses F tk q)).
Proof.
  intros Hind H. unfold formatOpeningParentheses.
  assert (laidOut (ts ++ [value tk])
            ((if hasType (previousToken F 1) WHITESPACE
                 || hasType (previousToken F 1) OPEN_PAREN
                 || hasType (previousToken F 1) LINE_COMMENT
              then q else trimEnd q) ++ value tk)) as H'.
  { apply laidOut_text. destruct (_ || _ || _); [done | by apply laidOut_trimEnd]. }
  destruct (InlineBlock.isActive _); cbn [fst]; [done|].
  by apply laidOut_addNewline.
Qed.

Lemma laidOut_formatClosingParentheses F ts tk q :
  blank (Indentation.indent (indentation F)) -> laidOut ts q ->
  laidOut (ts ++ [value tk]) (fst (formatClosingParentheses F tk q)).
Proof.
  intros Hind H. unfold formatClosingParentheses.
  destruct (InlineBlock.isActive _); cbn [fst].
  - by apply laidOut_formatWithSpaceAfter.
  - by apply laidOut_formatWithSpaces, laidOut_addNewline.
Qed.

(** The formatter lays the texts of a token out after those before it. *)
Lemma formatToken_laidOut F tok i q ts :
  blank (Indentation.indent (indentation F)) -> laidOut ts q ->
  laidOut (ts ++ fst (shown (params F) tok)) (fst (formatToken F tok i q)).
Proof.
  intros Hind H.
  assert (blank (Indentation.indent (indentation (set_index F i)))) as Hind' by done.
  unfold formatToken, shown.
  repeat case_bool_decide; try types_clash; cbn [orb fst snd].
  all: try (first [ by rewrite app_nil_r
                  | by apply laidOut_formatLineComment
                  | by apply laidOut_formatBlockComment
                  | by apply laidOut_formatNewlineReservedWord
                  | by apply laidOut_formatWithSpaces
                  | by apply laidOut_formatComma
                  | by apply laidOut_formatWithSpaceAfter
                  | by apply laidOut_formatWithoutSpaces
                  | by apply laidOut_formatQuerySeparator
                  | by apply (laidOut_formatOpeningParentheses (set_index F i))
                  | by apply (laidOut_formatClosingParentheses (set_index F i)) ]).
  - pose proof (laidOut_formatPlaceholder (set_index F i) ts tok q H) as H'.
    change (params (set_index F i)) with (params F) in H'.
    by destruct (Params.get (params F) tok).
  - pose proof (laidOut_formatToplevelReservedWord (set_index F i) ts tok q Hind' H) as H'.
    by destruct (formatToplevelReservedWord _ _ _).
Qed.

Lemma shown_params P tk : snd (shown P tk) = snd (printed P tk).
Proof.
  unfold shown, printed. repeat case_bool_decide; try done;
    try (by destruct (Params.get P tk)).
  all: by destruct (_ || _).
Qed.

Lemma forEach_laidOut l i F q ts :
  strip (Indentation.indent (indentation F)) = [] -> laidOut ts q ->
  laidOut (ts ++ shownTexts (params F) l) (fst (forEach l i F q)).
Proof.
  revert i F q ts. induction l as [|tk l IH]; intros i F q ts Hind H.
  { simpl. by rewrite app_nil_r. }
  simpl. destruct (formatToken_strip F tk i q Hind) as (_ & HP & HI).
  pose proof (formatToken_laidOut F tk i q ts (strip_nil_blank _ Hind) H) as H'.
  pose proof (shown_params (params F) tk) as HS.
  destruct (formatToken F tk i q) as [q' F']. cbn [fst snd] in *.
  destruct (shown (params F) tk) as [s P']. cbn [fst snd] in *.
  rewrite app_assoc. rewrite HS, <- HP. apply IH; [by rewrite HI | done].
Qed.

(** One text is laid out as itself between whitespace. *)
Lemma laidOut_one t out :
  laidOut [t] out -> exists a b, blank a /\ blank b /\ out = a ++ trim t ++ b.
Proof.
  intros H. inversion H as [|ts q t' w H' Hw Hts Hq].
  apply app_singleton in Hts as [[-> [= ->]] | [_ [=]]].
  inversion H' as [a Ha|ts' q' t'' w' H'' Hw' Hts' Hq']; [|by destruct ts'].
  by exists q, w.
Qed.

(** C8, amended: the text of a reserved-word or bracket token is the
    matched piece of the input in upper case, the text of any other token is
    the matched piece itself.  Formatting changes whitespace only and no
    letter case: when the indent unit is whitespace, the output of [format]
    consists of the texts of the tokens, in order, each without the
    whitespace at its two ends and otherwise character for character, with
    nothing but whitespace before, between and after them.  Here a
    whitespace token gives no text, a placeholder gives its parameter, a
    block comment gives its lines one by one, a toplevel or newline
    reserved word gives its text with each run of whitespace replaced by
    one space, and every other token (string, word, number, operator, line
    comment, plain reserved word, bracket) gives its text as it is.  In
    particular the output without its whitespace is, token by token, the
    text of the tokens without their whitespace. *)
Theorem C8_case_canonicalization :
  (forall T input prev tk,
     Tokenizer.getNextToken T input prev = Ret (Some tk) ->
     exists k, value tk
               = if canonical (type tk) then toUpperCase (take k input) else take k input) /\
  (forall F fuel query toks out,
     strip (Indentation.indent (indentation F)) = [] ->
     Tokenizer.tokenize (tokenizer F) fuel query = Ret toks ->
     output (format F fuel query) = Ret out ->
     strip out = concat (map strip (printedTexts (params F) toks))) /\
  (forall F fuel query toks out,
     strip (Indentation.indent (indentation F)) = [] ->
     Tokenizer.tokenize (tokenizer F) fuel query = Ret toks ->
     output (format F fuel query) = Ret out ->
     laidOut (shownTexts (params F) toks) out).
Proof.
  split; [|split].
  - intros T input prev tk H. by apply getNextToken_lexed, lexed_sliceOf in H.
  - intros F fuel query toks out Hind Htok. unfold format. rewrite Htok. simpl.
    unfold getFormattedQueryFromTokens.
    change (tokens (set_tokens F toks)) with toks.
    pose proof (forEach_strip toks 0 (set_tokens F toks) [] Hind) as H.
    destruct (forEach toks 0 (set_tokens F toks) []) as [q G].
    intros [= <-]. by rewrite strip_trim.
  - intros F fuel query toks out Hind Htok. unfold format. rewrite Htok. simpl.
    unfold getFormattedQueryFromTokens.
    change (tokens (set_tokens F toks)) with toks.
    pose proof (forEach_laidOut toks 0 (set_tokens F toks) [] [] Hind
                  (laidOut_nil [] (Forall_nil_2 _))) as H.
    destruct (forEach toks 0 (set_tokens F toks) []) as [q G].
    intros [= <-]. by apply laidOut_trim.
Qed.

Lemma C8_witness :
  (exists k, txt "SELECT"
             = if canonical RESERVED_TOPLEVEL
               then toUpperCase (take k (txt "select 'a  b'"))
               else take k (txt "select 'a  b'")) /\
  strip (lines ["SELECT"; "  'a  b'"]%string)
  = concat (map strip (printedTexts (params (sampleFormatter None))
                         [mkToken RESERVED_TOPLEVEL "SELECT" "";
                          mkToken WHITESPACE " " ""; mkToken STRING "'a  b'" ""])) /\
  laidOut (shownTexts (params (sampleFormatter None))
             [mkToken RESERVED_TOPLEVEL "SELECT" "";
              mkToken WHITESPACE " " ""; mkToken STRING "'a  b'" ""])
    (lines ["SELECT"; "  'a  b'"]%string).
Proof.
  destruct C8_case_canonicalization as (H1 & H2 & H3). split; [|split].
  - apply (H1 sampleTokenizer (txt "select 'a  b'") None
             (mkToken RESERVED_TOPLEVEL "SELECT" "")).
    by vm_compute.
  - apply (H2 (sampleFormatter None) 8 (txt "select 'a  b'")); by vm_compute.
  - apply (H3 (sampleFormatter None) 8 (txt "select 'a  b'")); by vm_compute.
Defined.

(** The layout tells texts apart that differ in their whitespace inside:
    a string with two spaces is not laid out as the same string with
    one. *)
Example laidOut_keeps_inner_whitespace :
  ~ laidOut [txt "'a  b'"] (txt "'a b'").
Proof.
  intros H. apply laidOut_one in H as (a & b & _ & _ & H).
  apply (f_equal length) in H. rewrite !length_app in H.
  change (length (trim (txt "'a  b'"))) with 6 in H. simpl in H. lia.
Qed.

End Layout.

(** ** Placeholder keys, with and without prefixes *)

Section PlaceholderPrefixes.

Import Tokenizer tokenTypes.





(** Without prefixes every identifier is taken for a placeholder, and its
    key lacks the first character. *)
Example identifier_as_placeholder :
  getIdentNamedPlaceholderToken (constructor noPrefixConfig) (txt "id = 1")
  = Ret (Some (mkToken PLACEHOLDER "id" "d")) /\
  getIndexedPlaceholderToken (constructor noPrefixConfig) (txt "12 ")
  = Ret (Some (mkToken PLACEHOLDER "12" "2")) /\
  getIndexedPlaceholderToken (constructor noPrefixConfig) (txt "x")
  = Ret (Some (mkToken PLACEHOLDER "" "")).
Proof. repeat split; by vm_compute. Qed.

End PlaceholderPrefixes.

